(** * viam-i2c-display: the SH110x framebuffer, rasterizer and bus protocol

    A shallow embedding of [display/display.go]:
    - Go's [int] (64 bits on the supported targets) is a [Z] with the
      two's-complement wrap-around written out; a [byte] is a [Z] in
      [0, 256); a [[]byte] is a [list Z] (every slice of the driver comes
      from [make] with a length only, so capacity and length coincide);
    - a run-time panic (index or slice out of range) is the result [Panic];
      the unbounded [for] loops take fuel and answer [OutOfFuel] when it is
      used up;
    - the I2C bus is an interface over an abstract world; the driver logs
      every bus call in a trace. *)

From Stdlib Require Import ZArith List Lia Bool.
Import ListNotations.
Open Scope Z_scope.

(* ------------------------------------------------------------------ *)
(** ** Machine integers *)

Module GoInt.

Definition int_min : Z := - 2 ^ 63.
Definition int_max : Z := 2 ^ 63 - 1.

Definition is_int (z : Z) : Prop := int_min <= z <= int_max.

(** Two's-complement reduction of a mathematical integer to an [int]. *)
Definition wrap (z : Z) : Z := (z + 2 ^ 63) mod 2 ^ 64 - 2 ^ 63.

Definition add (a b : Z) : Z := wrap (a + b).
Definition sub (a b : Z) : Z := wrap (a - b).
Definition mul (a b : Z) : Z := wrap (a * b).
(** Go's [/] truncates toward zero. *)
Definition div (a b : Z) : Z := Z.quot a b.

(** Reduction to a [byte]. *)
Definition wrap8 (z : Z) : Z := z mod 256.

(** [float64(n)] for an [int] n: the nearest value with a 53-bit
    significand, ties to even.  The value is always an integer, so it is
    kept as a [Z]. *)
Definition round53 (a : Z) : Z :=
  let k := Z.log2 a - 52 in
  if k <=? 0 then a
  else
    let q := Z.shiftr a k in
    let r := a mod 2 ^ k in
    let half := 2 ^ (k - 1) in
    let q' := if (half <? r) || ((half =? r) && Z.odd q) then q + 1 else q in
    Z.shiftl q' k.

Definition float64 (z : Z) : Z := Z.sgn z * round53 (Z.abs z).

(** [math.Abs] on such a value. *)
Definition fabs (f : Z) : Z := Z.abs f.

End GoInt.
Import GoInt.

(* ------------------------------------------------------------------ *)
(** ** Results of the pure drawing code *)

Inductive result (A : Type) : Type :=
| Done (a : A)
| Panic
| OutOfFuel.
Arguments Done {A} a.
Arguments Panic {A}.
Arguments OutOfFuel {A}.

Definition bind {A B : Type} (r : result A) (k : A -> result B) : result B :=
  match r with
  | Done a => k a
  | Panic => Panic
  | OutOfFuel => OutOfFuel
  end.

Notation "x <- r ;; k" := (bind r (fun x => k))
  (at level 61, r at next level, right associativity).

(* ------------------------------------------------------------------ *)
(** ** Framebuffer *)

Definition WIDTH : Z := 64.
Definition LENGTH : Z := 128.

(** [blank()]: [make([]byte, 1024)]. *)
Definition blank : list Z := repeat 0 1024.

(** [l[i] = v] for an index already known to be in range. *)
Fixpoint upd (i : nat) (v : Z) (l : list Z) : list Z :=
  match l with
  | [] => []
  | h :: t =>
      match i with
      | O => v :: t
      | S i' => h :: upd i' v t
      end
  end.

(** [buf[idx] |= mask]; an index outside [0, len(buf)) panics. *)
Definition orAt (idx mask : Z) (buf : list Z) : result (list Z) :=
  if (0 <=? idx) && (idx <? Z.of_nat (length buf)) then
    Done (upd (Z.to_nat idx) (Z.lor (nth (Z.to_nat idx) buf 0) mask) buf)
  else Panic.

(** [for v >= span { v -= span }] *)
Fixpoint reduceAbove (fuel : nat) (span v : Z) : result Z :=
  match fuel with
  | O => OutOfFuel
  | S fuel' =>
      if v >=? span then reduceAbove fuel' span (sub v span) else Done v
  end.

(** [for v < 0 { v += span }] *)
Fixpoint raiseBelow (fuel : nat) (span v : Z) : result Z :=
  match fuel with
  | O => OutOfFuel
  | S fuel' =>
      if v <? 0 then raiseBelow fuel' span (add v span) else Done v
  end.

(** The coordinate part of [writePixel]: the swap, the four wrap loops and
    the index with its clamp.  Answers the buffer index and the wrapped
    [y] whose low three bits select the bit. *)
Definition pixelIndex (fuel : nat) (x y : Z) : result (Z * Z) :=
  let '(x, y) := (y, x) in
  x <- reduceAbove fuel WIDTH x ;;
  x <- raiseBelow fuel WIDTH x ;;
  y <- reduceAbove fuel LENGTH y ;;
  y <- raiseBelow fuel LENGTH y ;;
  let idx := add x (mul (div y 8) WIDTH) in
  let blen := div (mul WIDTH LENGTH) 8 in
  idx <- reduceAbove fuel blen idx ;;
  Done (idx, y).

Definition writePixel (fuel : nat) (x y : Z) (buf : list Z) : result (list Z) :=
  p <- pixelIndex fuel x y ;;
  orAt (fst p) (Z.shiftl 1 (Z.land (snd p) 7)) buf.

(* ------------------------------------------------------------------ *)
(** ** Bresenham line *)

(** The [for x0 <= x1] loop of [writeLine]; [fp] is the fuel handed to
    each [writePixel], [n] bounds the iterations. *)
Fixpoint lineLoop (fp n : nat) (steep : bool) (x1 dx dy ystep : Z)
    (x0 y0 err : Z) (buf : list Z) : result (list Z) :=
  match n with
  | O => OutOfFuel
  | S n' =>
      if x0 <=? x1 then
        buf <- (if steep then writePixel fp y0 x0 buf
                else writePixel fp x0 y0 buf) ;;
        let err := sub err dy in
        let '(y0, err) :=
          if err <? 0 then (add y0 ystep, add err dx) else (y0, err) in
        lineLoop fp n' steep x1 dx dy ystep (add x0 1) y0 err buf
      else Done buf
  end.

Definition writeLine (fuel : nat) (x0 y0 x1 y1 : Z) (buf : list Z)
    : result (list Z) :=
  let steep := fabs (float64 (sub y1 y0)) >? fabs (float64 (sub x1 x0)) in
  let '(x0, y0, x1, y1) :=
    if steep then (y0, x0, y1, x1) else (x0, y0, x1, y1) in
  let '(x0, y0, x1, y1) :=
    if x0 >? x1 then (x1, y1, x0, y0) else (x0, y0, x1, y1) in
  let dx := sub x1 x0 in
  let dy := sub y1 y0 in
  let dy := if dy <? 0 then mul dy (-1) else dy in
  let err := div dx 2 in
  let ystep := if y0 <? y1 then 1 else -1 in
  lineLoop fuel fuel steep x1 dx dy ystep x0 y0 err buf.

(** [for i := x; i < x+w; i++ { buf = writeLine(i, y, i, y+h, buf) }] *)
Fixpoint fillLoop (fuel n : nat) (i hi y h : Z) (buf : list Z)
    : result (list Z) :=
  match n with
  | O => OutOfFuel
  | S n' =>
      if i <? hi then
        buf <- writeLine fuel i y i (add y h) buf ;;
        fillLoop fuel n' (add i 1) hi y h buf
      else Done buf
  end.

Definition writeFillRect (fuel : nat) (x y w h : Z) (buf : list Z)
    : result (list Z) :=
  fillLoop fuel fuel x (add x w) y h buf.

(* ------------------------------------------------------------------ *)
(** ** Text renderer *)

(** The glyph tables [chars] (six ints per printable character: byte
    offset, width, height, advance, x offset, y offset) and [freemono]
    (the bitmap bytes) are data of the package's font file; the renderer
    is parametric in them. *)
Class Font : Type := {
  chars : list (list Z);
  freemono : list Z
}.

(** [l[i]]; [None] stands for the index-out-of-range panic. *)
Definition index {A : Type} (i : Z) (l : list A) : option A :=
  if (0 <=? i) && (i <? Z.of_nat (length l)) then nth_error l (Z.to_nat i)
  else None.

Definition lift {A : Type} (o : option A) : result A :=
  match o with
  | Some a => Done a
  | None => Panic
  end.

(** [for i := i0; i < i0 + n; i++ { s = body(i, s) }] for a bound the body
    does not change. *)
Fixpoint forRange {S : Type} (n : nat) (i : Z) (body : Z -> S -> result S)
    (s : S) : result S :=
  match n with
  | O => Done s
  | S n' => s' <- body i s ;; forRange n' (i + 1) body s'
  end.

Section Text.
Context `{Font}.

(** One turn of the inner [xx] loop; the state is [(bo, bit, bits, buf)]. *)
Definition glyphBit (fuel : nat) (x y xo yo yy xx : Z)
    (st : Z * Z * Z * list Z) : result (Z * Z * Z * list Z) :=
  let '(bo, bit, bits, buf) := st in
  p <- (if Z.land bit 7 =? 0
        then b <- lift (index bo freemono) ;; Done (b, add bo 1)
        else Done (bits, bo)) ;;
  let '(bits, bo) := p in
  let bit := wrap8 (bit + 1) in
  buf <- (if Z.land bits 0x80 >? 0
          then writePixel fuel (add (add x xo) xx) (sub (sub y yo) yy) buf
          else Done buf) ;;
  let bits := wrap8 (Z.shiftl bits 1) in
  Done (bo, bit, bits, buf).

Definition glyphRow (fuel : nat) (x y xo yo w yy : Z)
    (st : Z * Z * Z * list Z) : result (Z * Z * Z * list Z) :=
  forRange (Z.to_nat w) 0 (glyphBit fuel x y xo yo yy) st.

Fixpoint writeString (fuel : nat) (x y : Z) (char : list Z) (buf : list Z)
    : result (list Z) :=
  match char with
  | [] => Done buf
  | cb :: rest =>
      let charIdx := wrap8 (cb - 0x20) in
      if (cb <? 0x20) || (charIdx >=? 95) then writeString fuel x y rest buf
      else
        cInfo <- lift (index charIdx chars) ;;
        bo <- lift (index 0 cInfo) ;;
        w <- lift (index 1 cInfo) ;;
        h <- lift (index 2 cInfo) ;;
        adv <- lift (index 3 cInfo) ;;
        xo <- lift (index 4 cInfo) ;;
        yo <- lift (index 5 cInfo) ;;
        st <- forRange (Z.to_nat h) 0 (glyphRow fuel x y xo yo w)
                (bo, 0, 0, buf) ;;
        writeString fuel (add x adv) y rest (snd st)
  end.
End Text.

(* ------------------------------------------------------------------ *)
(** ** The bus and the driver *)

Inductive error : Type := Err (code : Z).

(** [buses.I2C] and its handle, over an abstract world.  At most one
    handle is open at a time in the driver, so the handle's methods act on
    the world directly.  A Go [error] is an [option error], [None] for
    [nil]. *)
Class I2C (W : Type) : Type := {
  OpenHandle : Z -> W -> option error * W;
  Read : Z -> W -> list Z * option error * W;
  Write : list Z -> W -> option error * W;
  Close : W -> option error * W
}.

Inductive event : Type :=
| EvOpen (addr : Z)
| EvRead (count : Z)
| EvWrite (bytes : list Z)
| EvClose
| EvSleep (ms : Z).

Definition sh110xMEMORYMODE : Z := 0x20.
Definition sh110xSETCONTRAST : Z := 0x81.
Definition sh110xSEGREMAP : Z := 0xA0.
Definition sh110xDISPLAYALLONRESUME : Z := 0xA4.
Definition sh110xNORMALDISPLAY : Z := 0xA6.
Definition sh110xSETMULTIPLEX : Z := 0xA8.
Definition sh110xDCDC : Z := 0xAD.
Definition sh110xDISPLAYOFF : Z := 0xAE.
Definition sh110xCOMSCANINC : Z := 0xC0.
Definition sh110xSETDISPLAYOFFSET : Z := 0xD3.
Definition sh110xSETDISPLAYCLOCKDIV : Z := 0xD5.
Definition sh110xSETPRECHARGE : Z := 0xD9.
Definition sh110xSETVCOMDETECT : Z := 0xDB.
Definition sh110xSETDISPSTARTLINE : Z := 0xDC.

Definition contrast : list Z := [0; 0x81; 0x2F].

Definition init : list Z :=
  [ 0x00;
    sh110xDISPLAYOFF;
    sh110xSETDISPLAYCLOCKDIV; 0x51;
    sh110xMEMORYMODE;
    sh110xSETCONTRAST; 0x4F;
    sh110xDCDC; 0x8A;
    sh110xSEGREMAP;
    sh110xCOMSCANINC;
    sh110xSETDISPSTARTLINE; 0x0;
    sh110xSETDISPLAYOFFSET; 0x60;
    sh110xSETPRECHARGE; 0x22;
    sh110xSETVCOMDETECT; 0x35;
    sh110xSETMULTIPLEX; 0x3F;
    sh110xDISPLAYALLONRESUME;
    sh110xNORMALDISPLAY ].

(** [buf[lo:hi]]; [None] stands for the slice-bounds panic. *)
Definition slice (lo hi : Z) (buf : list Z) : option (list Z) :=
  if (0 <=? lo) && (lo <=? hi) && (hi <=? Z.of_nat (length buf)) then
    Some (firstn (Z.to_nat (hi - lo)) (skipn (Z.to_nat lo) buf))
  else None.

(** [for i, pix := range data { if i >= len(new) { break }; new[i] = pix }] *)
Fixpoint rangeCopy (i : nat) (data new : list Z) : list Z :=
  match data with
  | [] => new
  | pix :: rest =>
      if (length new <=? i)%nat then new
      else rangeCopy (S i) rest (upd i pix new)
  end.

Section Driver.
Context {W : Type} `{I2C W} `{Font}.

(** The [display] struct: the fields the operations use. *)
Record display : Type := {
  addr : Z;
  current : list Z
}.

(** The driver instance together with the bus world it talks to and the
    log of the bus calls made so far. *)
Record machine : Type := {
  disp : display;
  world : W;
  trace : list event
}.

Inductive outcome (A : Type) : Type :=
| Ret (a : A) (m : machine)
| Fault (m : machine)
| Diverge.
Arguments Ret {A} a m.
Arguments Fault {A} m.
Arguments Diverge {A}.

Definition step (ev : event) (w : W) (m : machine) : machine :=
  {| disp := disp m; world := w; trace := trace m ++ [ev] |}.

Definition openHandle (m : machine) : option error * machine :=
  let '(e, w) := OpenHandle (addr (disp m)) (world m) in
  (e, step (EvOpen (addr (disp m))) w m).

Definition hRead (count : Z) (m : machine) : list Z * option error * machine :=
  let '(b, e, w) := Read count (world m) in
  (b, e, step (EvRead count) w m).

Definition hWrite (bs : list Z) (m : machine) : option error * machine :=
  let '(e, w) := Write bs (world m) in
  (e, step (EvWrite bs) w m).

Definition hClose (m : machine) : option error * machine :=
  let '(e, w) := Close (world m) in
  (e, step EvClose w m).

Definition sleep (ms : Z) (m : machine) : machine :=
  step (EvSleep ms) (world m) m.

Definition setCurrent (buf : list Z) (m : machine) : machine :=
  {| disp := {| addr := addr (disp m); current := buf |};
     world := world m; trace := trace m |}.

(** [initDisp]: the results of the three writes and of the deferred
    close are dropped by the source. *)
Definition initDisp (m : machine) : option error * machine :=
  let '(err, m) := openHandle m in
  match err with
  | Some e => (Some e, m)
  | None =>
      let m := snd (hWrite contrast m) in
      let m := snd (hWrite init m) in
      let m := sleep 100 m in
      let m := snd (hWrite [0x00; 0xAF] m) in
      (None, snd (hClose m))
  end.

Definition checkInit (m : machine) : outcome (option error) :=
  let '(err, m) := openHandle m in
  match err with
  | Some e => Ret (Some e) m
  | None =>
      let '(buffer, _, m) := hRead 1 m in
      let '(err, m) := hClose m in
      match err with
      | Some e => Ret (Some e) m
      | None =>
          match index 0 buffer with
          | None => Fault m
          | Some b =>
              if b =? 71 then Ret None (snd (initDisp m)) else Ret None m
          end
      end
  end.

(** The page loop of [writeBuf]: [for reg = 0xB0; reg <= 0xBF; reg++],
    with [iter] counting along. *)
Fixpoint pageLoop (n : nat) (reg iter : Z) (buf : list Z) (m : machine)
    : outcome unit :=
  match n with
  | O => Diverge
  | S n' =>
      if reg <=? 0xBF then
        let m := snd (hWrite [0; reg; 0x10; 0] m) in
        match slice (0 + iter * 64) (31 + iter * 64) buf with
        | None => Fault m
        | Some c1 =>
            let m := snd (hWrite (0x40 :: c1) m) in
            match slice (31 + iter * 64) (62 + iter * 64) buf with
            | None => Fault m
            | Some c2 =>
                let m := snd (hWrite (0x40 :: c2) m) in
                match index (62 + iter * 64) buf,
                      index (63 + iter * 64) buf with
                | Some b1, Some b2 =>
                    let m := snd (hWrite [0x40; b1; b2] m) in
                    pageLoop n' (wrap8 (reg + 1)) (iter + 1) buf m
                | _, _ => Fault m
                end
            end
        end
      else Ret tt m
  end.

(** [writeBuf]: the result of [checkInit] is dropped; the deferred close
    runs on every exit after the handle is open. *)
Definition writeBuf (buf : list Z) (m : machine) : outcome (option error) :=
  match checkInit m with
  | Fault m => Fault m
  | Diverge => Diverge
  | Ret _ m =>
      let '(err, m) := openHandle m in
      match err with
      | Some e => Ret (Some e) m
      | None =>
          match pageLoop 17 0xB0 0 buf m with
          | Ret _ m => Ret None (snd (hClose (setCurrent buf m)))
          | Fault m => Fault (snd (hClose m))
          | Diverge => Diverge
          end
      end
  end.

Definition DisplayBytes (data : list Z) (m : machine)
    : outcome (option error) :=
  match writeBuf blank m with
  | Fault m => Fault m
  | Diverge => Diverge
  | Ret _ m =>
      let new := repeat 0 (length (current (disp m))) in
      let new := rangeCopy 0 data new in
      writeBuf new m
  end.

Definition WriteString (fuel : nat) (xloc yloc : Z) (text : list Z)
    (m : machine) : outcome (option error) :=
  let new := current (disp m) in
  match writeString fuel xloc yloc text new with
  | Done new => writeBuf new m
  | Panic => Fault m
  | OutOfFuel => Diverge
  end.

Definition DrawLine (fuel : nat) (x1 y1 x2 y2 : Z) (m : machine)
    : outcome (option error) :=
  let new := current (disp m) in
  match writeLine fuel x1 y1 x2 y2 new with
  | Done new => writeBuf new m
  | Panic => Fault m
  | OutOfFuel => Diverge
  end.

Definition Reset (m : machine) : outcome (option error) :=
  let m := snd (initDisp m) in
  writeBuf blank m.

End Driver.

Arguments Ret {W A} a m.
Arguments Fault {W A} m.
Arguments Diverge {W A}.


(* ------------------------------------------------------------------ *)
(** ** Closed forms used in the statements *)

(** The coordinate model in closed form: after the swap the device [x]
    is the user's [y] reduced modulo 64 and the device [y] is the user's
    [x] reduced modulo 128 ([Z]'s [mod] is the non-negative one), and the
    byte index is [x' + (y' / 8) * 64]. *)
Definition wrapX (y : Z) : Z := y mod 64.
Definition wrapY (x : Z) : Z := x mod 128.
Definition bufIndex (x y : Z) : Z := wrapX y + wrapY x / 8 * 64.

(** A loop state of the glyph loops whose buffer has length [n]. *)
Definition stLen (n : nat) (st : Z * Z * Z * list Z) : Prop :=
  length (snd st) = n.

(** A computation that returns for no amount of fuel. *)
Definition never_returns {A : Type} (run : nat -> result A) : Prop :=
  forall fuel a, run fuel <> Done a.

(** Whether the pixel at user coordinate [(x, y)] is lit, and the number
    of lit pixels of a buffer. *)
Definition pixelOn (x y : Z) (buf : list Z) : bool :=
  Z.testbit (nth (Z.to_nat (bufIndex x y)) buf 0) (Z.land (wrapY x) 7).

Definition popcount (b : Z) : nat :=
  length (filter (Z.testbit b) [0; 1; 2; 3; 4; 5; 6; 7]).

Definition litPixels (buf : list Z) : nat :=
  fold_right (fun b n => (popcount b + n)%nat) 0%nat buf.

(** The bus writes of one commit, in the spec's words: for each page
    [p] of [0 .. 15] the command [[0x00, 0xB0 + p, 0x10, 0x00]], then the
    page's 64 bytes as transfers of 31, 31 and 2 bytes, each behind the
    data-mode byte [0x40]. *)
Definition pageWrites (buf : list Z) (p : nat) : list event :=
  [ EvWrite [0x00; 0xB0 + Z.of_nat p; 0x10; 0x00];
    EvWrite (0x40 :: firstn 31 (skipn (64 * p) buf));
    EvWrite (0x40 :: firstn 31 (skipn (64 * p + 31) buf));
    EvWrite (0x40 :: firstn 2 (skipn (64 * p + 62) buf)) ].

Definition commitWrites (buf : list Z) : list event :=
  flat_map (pageWrites buf) (seq 0 16).

(** The bus calls of one [initDisp] whose handle opens. *)
Definition initTrace (a : Z) : list event :=
  [ EvOpen a; EvWrite contrast; EvWrite init; EvSleep 100;
    EvWrite [0x00; 0xAF]; EvClose ].

(** [DisplayBytes]' buffer in the spec's words: the input cut to 1024
    bytes and filled up with zeros. *)
Definition truncPad (data : list Z) : list Z :=
  firstn 1024 data ++ repeat 0 (1024 - length data).

Section BusStates.
Context {W : Type} `{I2C W}.

(** The probe of [checkInit] started in [m] opens its handle, gets an
    empty buffer from the status read, and closes without error. *)
Definition probeReadsNothing (m : @machine W) : Prop :=
  exists m1 e m2 m3,
    openHandle m = (None, m1) /\
    hRead 1 m1 = ([], e, m2) /\
    hClose m2 = (None, m3).

Definition faults {A : Type} (o : @outcome W A) : Prop :=
  exists m, o = Fault m.

(** The bus serves the driver from the worlds in [P]: from such a world
    every handle opens and every status read returns at least one byte,
    and every bus call leads to such a world again.  Nothing is asked of
    what [Write] and [Close] report. *)
Record serves (P : W -> Prop) : Prop := {
  serves_open : forall a w, P w ->
    fst (OpenHandle a w) = None /\ P (snd (OpenHandle a w));
  serves_read : forall n w, P w ->
    fst (fst (Read n w)) <> [] /\ P (snd (Read n w));
  serves_write : forall bs w, P w -> P (snd (Write bs w));
  serves_close : forall w, P w -> P (snd (Close w))
}.
End BusStates.

(* ------------------------------------------------------------------ *)
(** ** A simulated bus, for running the driver *)

(** A device that answers every call the same way: whether handles open,
    what a status read returns, whether writes and closes report an
    error. *)
Record Sim : Type := {
  sim_open_fails : bool;
  sim_status : list Z;
  sim_write_fails : bool;
  sim_close_fails : bool
}.

#[export] Instance simBus : I2C Sim := {
  OpenHandle _ w := (if sim_open_fails w then Some (Err 1) else None, w);
  Read _ w := (sim_status w, match sim_status w with
                             | [] => Some (Err 2)
                             | _ => None
                             end, w);
  Write _ w := (if sim_write_fails w then Some (Err 3) else None, w);
  Close w := (if sim_close_fails w then Some (Err 4) else None, w)
}.

(** A font whose 95 glyphs are all one lit pixel wide and high. *)
#[export] Instance dotFont : Font := {
  chars := repeat [0; 1; 1; 1; 0; 0] 95;
  freemono := [0x80]
}.

Definition simMachine (w : Sim) (buf : list Z) : @machine Sim :=
  {| disp := {| addr := 0x3C; current := buf |}; world := w; trace := [] |}.

Definition healthy : Sim :=
  {| sim_open_fails := false; sim_status := [0];
     sim_write_fails := false; sim_close_fails := false |}.

(** The same machine with more bus calls on its log. *)
Definition logged {W : Type} (evs : list event) (m : @machine W) : @machine W :=
  {| disp := disp m; world := world m; trace := trace m ++ evs |}.

(** A controller that reports the reset sentinel 0x47. *)
Definition resetSeen : Sim :=
  {| sim_open_fails := false; sim_status := [71];
     sim_write_fails := false; sim_close_fails := false |}.

(** The same, on a bus whose closes report an error. *)
Definition resetSeenCloseFails : Sim :=
  {| sim_open_fails := false; sim_status := [71];
     sim_write_fails := false; sim_close_fails := true |}.

(** A device whose status read returns nothing. *)
Definition mute : Sim :=
  {| sim_open_fails := false; sim_status := [];
     sim_write_fails := false; sim_close_fails := false |}.

Definition muteCloseFails : Sim :=
  {| sim_open_fails := false; sim_status := [];
     sim_write_fails := false; sim_close_fails := true |}.

(** A device on which every write reports an error. *)
Definition deaf : Sim :=
  {| sim_open_fails := false; sim_status := [0];
     sim_write_fails := true; sim_close_fails := false |}.

(** The simulated devices whose handles open and whose status read
    returns something. *)
Definition answering (w : Sim) : Prop :=
  sim_open_fails w = false /\ sim_status w <> [].

(* ------------------------------------------------------------------ *)
(** ** Reading pixels back *)

(** [(x', y')] names the same pixel of the panel as [(x, y)]: the user's
    [x] counts modulo 128 and the user's [y] modulo 64. *)
Definition samePixel (x y x' y' : Z) : bool :=
  (wrapY x' =? wrapY x) && (wrapX y' =? wrapX y).

(** Every bit that is set in [buf] is set in [buf'], and the two have the
    same length. *)
Definition covers (buf buf' : list Z) : Prop :=
  length buf' = length buf /\
  forall (i : nat) (k : Z),
    0 <= k -> Z.testbit (nth i buf 0) k = true ->
    Z.testbit (nth i buf' 0) k = true.

(** [lo, lo + 1, ..., lo + n - 1]. *)
Definition zrange (lo : Z) (n : nat) : list Z :=
  map (fun k => lo + Z.of_nat k) (seq 0 n).

(** Whether [(x', y')] is one of the pixels [pts]. *)
Definition amongPixels (pts : list (Z * Z)) (x' y' : Z) : bool :=
  existsb (fun p => samePixel (fst p) (snd p) x' y') pts.

(* ------------------------------------------------------------------ *)
(** ** The pen of the text renderer *)

Section Pen.
Context `{Font}.

(** Where [x] stands after [writeString] has gone through [text]: every
    byte from 0x20 to 0x7E moves it by its glyph's advance. *)
Fixpoint penAfter (x : Z) (text : list Z) : Z :=
  match text with
  | [] => x
  | cb :: rest =>
      if (cb <? 0x20) || (wrap8 (cb - 0x20) >=? 95) then penAfter x rest
      else
        match index (wrap8 (cb - 0x20)) chars with
        | Some cInfo =>
            match index 3 cInfo with
            | Some adv => penAfter (add x adv) rest
            | None => x
            end
        | None => x
        end
  end.
End Pen.

(* ------------------------------------------------------------------ *)
(** ** Reading the bus log *)

(** The display data a log carries, as the controller takes it: the
    bytes that follow the data-mode byte [0x40] of each write, in order;
    writes that start otherwise are commands. *)
Definition dataBytes (evs : list event) : list Z :=
  flat_map (fun ev =>
              match ev with
              | EvWrite (b :: c) => if b =? 0x40 then c else []
              | _ => []
              end) evs.

(** No write of the log is longer than [n] bytes. *)
Definition writesWithin (n : nat) (evs : list event) : Prop :=
  Forall (fun ev =>
            match ev with
            | EvWrite bs => (length bs <= n)%nat
            | _ => True
            end) evs.

(** A bus whose handles open a given number of times and then no more;
    the world counts the opens that are left. *)
#[export] Instance flakyBus : I2C nat := {
  OpenHandle _ w := match w with
                    | O => (Some (Err 1), O)
                    | S k => (None, k)
                    end;
  Read _ w := ([0], None, w);
  Write _ w := (None, w);
  Close w := (None, w)
}.

Definition flakyMachine (opens : nat) (buf : list Z) : @machine nat :=
  {| disp := {| addr := 0x3C; current := buf |}; world := opens; trace := [] |}.

(* ------------------------------------------------------------------ *)
(** ** Construction and the start-up animation *)

Definition defaultI2Caddr : Z := 0x3C.

(** [Config]; the bus name is a string, kept as its bytes. *)
Record Config : Type := {
  I2CBus : list Z;
  I2cAddr : Z;
  SkipAnimation : bool
}.

(** [Validate]: the dependencies (always none) and the error, which is
    the missing-field error exactly when [i2c_bus] is empty. *)
Definition Validate (config : Config) : list (list Z) * option error :=
  if (length (I2CBus config) =? 0)%nat then ([], Some (Err 22))
  else ([], None).

Section Construction.
Context {W : Type} `{I2C W}.

(** The loop of [initAnimation], [for i := 1; i < 15; i++], with [left]
    turns to go.  [cancelled i] is what the poll of [ctx.Done()] finds at
    turn [i].  [writeFillRect] draws into [buf] in place, and once a
    [writeBuf] has stored [buf] in [d.current] the two are one slice:
    [aliased] records that, and from then on the stored framebuffer
    follows every change of [buf].  The loop answers whether it ran to
    its end ([true]) or returned on a cancellation ([false]), with the
    buffer and the aliasing it ended with. *)
Fixpoint animLoop (fuel : nat) (cancelled : Z -> bool) (left : nat) (i : Z)
    (buf : list Z) (aliased : bool) (m : @machine W)
    : outcome (bool * list Z * bool) :=
  match left with
  | O => Ret (true, buf, aliased) m
  | S left' =>
      if cancelled i then Ret (false, buf, aliased) m
      else
        match writeFillRect fuel (mul i 8) 20 8 24 buf with
        | Done buf' =>
            let m := if aliased then setCurrent buf' m else m in
            match writeBuf buf' m with
            | Ret r m' =>
                let aliased' :=
                  match r with None => true | Some _ => aliased end in
                animLoop fuel cancelled left' (add i 1) buf' aliased' m'
            | Fault m' => Fault m'
            | Diverge => Diverge
            end
        | Panic => Fault m
        | OutOfFuel => Diverge
        end
  end.

Definition initAnimation (fuel : nat) (cancelled : Z -> bool) (m : @machine W)
    : outcome unit :=
  match animLoop fuel cancelled 14 1 blank false m with
  | Ret (true, _, _) m =>
      match writeBuf blank m with
      | Ret _ m => Ret tt m
      | Fault m => Fault m
      | Diverge => Diverge
      end
  | Ret (false, _, _) m => Ret tt m
  | Fault m => Fault m
  | Diverge => Diverge
  end.

(** [for i := 0; i < 4; i++ { d.initDisp(ctx) }] *)
Fixpoint initTimes (n : nat) (m : @machine W) : @machine W :=
  match n with
  | O => m
  | S n' => initTimes n' (snd (initDisp m))
  end.

(** [newDisplay].  [busErr] is the error of [buses.NewI2cBus], [None]
    when the bus was obtained; the bus then starts in the world [w].  The
    result is the construction error, or the run of the constructor on
    the new driver. *)
Definition newDisplay (fuel : nat) (cancelled : Z -> bool)
    (busErr : option error) (attr : Config) (w : W)
    : error + outcome unit :=
  match busErr with
  | Some e => inl e
  | None =>
      let addr := I2cAddr attr in
      let addr := if addr =? 0 then defaultI2Caddr else addr in
      let m := {| disp := {| addr := wrap8 addr; current := blank |};
                  world := w; trace := [] |} in
      let m := initTimes 4 m in
      if negb (SkipAnimation attr) then inr (initAnimation fuel cancelled m)
      else inr (Ret tt m)
  end.

End Construction.

(** The bar the animation has drawn after [j] frames: columns
    [8 .. 8 j + 7], rows [20 .. 44]. *)
Definition animBar (j : nat) : list (Z * Z) :=
  flat_map (fun c => map (fun r => (c, r)) (zrange 20 25)) (zrange 8 (8 * j)).

(** [buf] shows exactly the pixels [pts]. *)
Definition shows (pts : list (Z * Z)) (buf : list Z) : Prop :=
  forall x' y', pixelOn x' y' buf = amongPixels pts x' y'.

Definition neverCancelled : Z -> bool := fun _ => false.


(* ------------------------------------------------------------------ *)
(** ** The RPC service of the display API *)

Definition is_int32 (x : Z) : Prop := - 2 ^ 31 <= x < 2 ^ 31.

(** The conversion [int32(x)] of an [int]: the low 32 bits, signed. *)
Definition int32 (x : Z) : Z := (x + 2 ^ 31) mod 2 ^ 32 - 2 ^ 31.

(** The request messages; coordinates are [int32] fields. *)
Record WriteStringRequest : Type := {
  wsName : list Z;
  Xloc : Z;
  Yloc : Z;
  Text : list Z
}.

Record DrawLineRequest : Type := {
  dlName : list Z;
  X1 : Z;
  Y1 : Z;
  X2 : Z;
  Y2 : Z
}.

Section Service.
Context {W : Type} `{I2C W} `{Font}.

(** [s.coll.Resource(name)]: the error of the lookup, or [None] when the
    name resolves to the driver. *)
Variable coll : list Z -> option error.

(** The server's handlers: look the name up, run the driver's method on
    the fields widened to [int], hand its error back. *)
Definition serviceServer_WriteString (fuel : nat) (req : WriteStringRequest)
    (m : @machine W) : outcome (option error) :=
  match coll (wsName req) with
  | Some e => Ret (Some e) m
  | None => WriteString fuel (Xloc req) (Yloc req) (Text req) m
  end.

Definition serviceServer_DrawLine (fuel : nat) (req : DrawLineRequest)
    (m : @machine W) : outcome (option error) :=
  match coll (dlName req) with
  | Some e => Ret (Some e) m
  | None => DrawLine fuel (X1 req) (Y1 req) (X2 req) (Y2 req) m
  end.

(** The client's methods: build the request, with the coordinates
    narrowed to [int32], and hand back the error of the call [rpc]. *)
Definition client_WriteString {R : Type} (rpc : WriteStringRequest -> R)
    (name : list Z) (xloc yloc : Z) (text : list Z) : R :=
  rpc {| wsName := name; Xloc := int32 xloc; Yloc := int32 yloc;
         Text := text |}.

Definition client_DrawLine {R : Type} (rpc : DrawLineRequest -> R)
    (name : list Z) (x1 y1 x2 y2 : Z) : R :=
  rpc {| dlName := name; X1 := int32 x1; Y1 := int32 y1;
         X2 := int32 x2; Y2 := int32 y2 |}.

(** A client whose calls reach this server. *)
Definition remote_WriteString (fuel : nat) (name : list Z) (xloc yloc : Z)
    (text : list Z) (m : @machine W) : outcome (option error) :=
  client_WriteString (fun req => serviceServer_WriteString fuel req m)
    name xloc yloc text.

Definition remote_DrawLine (fuel : nat) (name : list Z) (x1 y1 x2 y2 : Z)
    (m : @machine W) : outcome (option error) :=
  client_DrawLine (fun req => serviceServer_DrawLine fuel req m)
    name x1 y1 x2 y2.

End Service.
(* ================================================================== *)
(** * Properties *)

(* ------------------------------------------------------------------ *)
(** ** Integer facts *)

Ltac int_consts :=
  unfold is_int, int_min, int_max, add, sub, mul, wrap, WIDTH, LENGTH in *;
  change (2 ^ 63) with 9223372036854775808 in *;
  change (2 ^ 64) with 18446744073709551616 in *.

Lemma wrap_id (z : Z) : is_int z -> wrap z = z.
Proof. intros Hz. int_consts. rewrite Z.mod_small; lia. Qed.

Lemma wrap_is_int (z : Z) : is_int (wrap z).
Proof.
  int_consts.
  pose proof (Z.mod_pos_bound (z + 9223372036854775808) 18446744073709551616).
  lia.
Qed.

Lemma wrap_period (z k : Z) : wrap (z + k * 2 ^ 64) = wrap z.
Proof.
  unfold wrap.
  replace (z + k * 2 ^ 64 + 2 ^ 63) with (z + 2 ^ 63 + k * 2 ^ 64) by lia.
  now rewrite Z.mod_add by (change (2 ^ 64) with 18446744073709551616; lia).
Qed.

Lemma wrap_wrap_add (a b : Z) : wrap (wrap a + b) = wrap (a + b).
Proof.
  unfold wrap at 2.
  change (2 ^ 64) with 18446744073709551616.
  change (2 ^ 63) with 9223372036854775808.
  pose proof (Z.div_mod (a + 9223372036854775808) 18446744073709551616
                ltac:(lia)) as E.
  replace ((a + 9223372036854775808) mod 18446744073709551616
           - 9223372036854775808 + b)
    with (a + b + (- ((a + 9223372036854775808) / 18446744073709551616))
                  * 2 ^ 64)
    by (change (2 ^ 64) with 18446744073709551616; lia).
  apply wrap_period.
Qed.

(** The conversion to [float64] is exact up to [2 ^ 53] and rounds to
    even above; the largest int becomes [2 ^ 63]. *)
Example float64_values :
  float64 (-5) = -5 /\
  float64 (2 ^ 53) = 2 ^ 53 /\
  float64 (2 ^ 53 + 1) = 2 ^ 53 /\
  float64 (2 ^ 53 + 3) = 2 ^ 53 + 4 /\
  float64 (- (2 ^ 53 + 3)) = - (2 ^ 53 + 4) /\
  float64 int_max = 2 ^ 63 /\
  float64 int_min = - 2 ^ 63.
Proof. repeat split; vm_compute; reflexivity. Qed.

(** Arithmetic wraps around: the successor of the largest int is the
    smallest, and the smallest int is its own negative. *)
Example wrap_values :
  add int_max 1 = int_min /\ mul int_min (-1) = int_min /\
  sub int_min 1 = int_max /\ div (-7) 2 = -3.
Proof. repeat split; vm_compute; reflexivity. Qed.

Lemma add_is_int (a b : Z) : is_int (add a b).
Proof. apply wrap_is_int. Qed.

Lemma sub_is_int (a b : Z) : is_int (sub a b).
Proof. apply wrap_is_int. Qed.

(* ------------------------------------------------------------------ *)
(** ** The wrap loops *)

Lemma reduceAbove_below (fuel : nat) (span v : Z) :
  (0 < fuel)%nat -> v < span -> reduceAbove fuel span v = Done v.
Proof.
  intros Hf Hv. destruct fuel as [|f]; [lia|]. simpl.
  destruct (v >=? span) eqn:E; [lia | reflexivity].
Qed.

Lemma reduceAbove_done (fuel : nat) (span v : Z) :
  0 < span -> is_int v -> Z.max 0 v < Z.of_nat fuel ->
  reduceAbove fuel span v = Done (if v <? 0 then v else v mod span).
Proof.
  intros Hs. revert v.
  induction fuel as [|f IH]; intros v Hv Hf; [lia|].
  simpl. destruct (v >=? span) eqn:E.
  - assert (Hsub : sub v span = v - span).
    { apply wrap_id. unfold is_int, int_min, int_max in *. lia. }
    rewrite Hsub, IH.
    + destruct (v <? 0) eqn:E1; [lia|].
      destruct (v - span <? 0) eqn:E2; [lia|].
      f_equal. replace v with (v - span + 1 * span) at 2 by lia.
      now rewrite Z.mod_add by lia.
    + unfold is_int, int_min, int_max in *. lia.
    + lia.
  - destruct (v <? 0) eqn:E1; [reflexivity|].
    now rewrite Z.mod_small by lia.
Qed.

Lemma raiseBelow_done (fuel : nat) (span v : Z) :
  0 < span -> span <= int_max -> is_int v -> v < span ->
  Z.max 0 (- v) < Z.of_nat fuel ->
  raiseBelow fuel span v = Done (v mod span).
Proof.
  intros Hs Hs'. revert v.
  induction fuel as [|f IH]; intros v Hv Hlt Hf; [lia|].
  simpl. destruct (v <? 0) eqn:E.
  - assert (Hadd : add v span = v + span).
    { apply wrap_id. unfold is_int, int_min, int_max in *. lia. }
    rewrite Hadd, IH.
    + f_equal. replace (v + span) with (v + 1 * span) by lia.
      now rewrite Z.mod_add by lia.
    + unfold is_int, int_min, int_max in *. lia.
    + lia.
    + lia.
  - now rewrite Z.mod_small by lia.
Qed.

Lemma bufIndex_range (x y : Z) : 0 <= bufIndex x y < 1024.
Proof.
  unfold bufIndex, wrapX, wrapY.
  pose proof (Z.mod_pos_bound y 64 ltac:(lia)).
  pose proof (Z.mod_pos_bound x 128 ltac:(lia)).
  assert (0 <= x mod 128 / 8 <= 15).
  { split; [apply Z.div_pos; lia|].
    apply Z.lt_succ_r, Z.div_lt_upper_bound; lia. }
  lia.
Qed.

Lemma wrapOne (fuel : nat) (span v : Z) :
  0 < span -> span <= int_max -> is_int v -> Z.abs v < Z.of_nat fuel ->
  (r <- reduceAbove fuel span v ;; raiseBelow fuel span r) = Done (v mod span).
Proof.
  intros Hs Hs' Hv Hf.
  rewrite reduceAbove_done by (auto; lia). simpl.
  destruct (v <? 0) eqn:E.
  - apply raiseBelow_done; auto; lia.
  - pose proof (Z.mod_pos_bound v span Hs).
    rewrite raiseBelow_done; auto.
    + now rewrite Z.mod_mod by lia.
    + unfold is_int, int_min, int_max in *. lia.
    + lia.
    + lia.
Qed.

Lemma pixelIndex_done (fuel : nat) (x y : Z) :
  is_int x -> is_int y -> Z.abs x + Z.abs y < Z.of_nat fuel ->
  pixelIndex fuel x y = Done (bufIndex x y, wrapY x).
Proof.
  intros Hx Hy Hf. unfold pixelIndex.
  assert (W1 := wrapOne fuel WIDTH y ltac:(unfold WIDTH; lia)
                  ltac:(unfold WIDTH, int_max; lia) Hy ltac:(lia)).
  assert (W2 := wrapOne fuel LENGTH x ltac:(unfold LENGTH; lia)
                  ltac:(unfold LENGTH, int_max; lia) Hx ltac:(lia)).
  destruct (reduceAbove fuel WIDTH y) as [y1| |]; simpl in W1; try discriminate.
  simpl. rewrite W1. simpl.
  destruct (reduceAbove fuel LENGTH x) as [x1| |]; simpl in W2; try discriminate.
  simpl. rewrite W2. simpl.
  pose proof (bufIndex_range x y) as Hr.
  unfold bufIndex, wrapX, wrapY, WIDTH, LENGTH in *.
  pose proof (Z.mod_pos_bound y 64 ltac:(lia)).
  pose proof (Z.mod_pos_bound x 128 ltac:(lia)).
  assert (Hq : div (x mod 128) 8 = x mod 128 / 8).
  { unfold div. apply Z.quot_div_nonneg; lia. }
  rewrite Hq.
  assert (0 <= x mod 128 / 8 <= 15).
  { split; [apply Z.div_pos; lia|].
    apply Z.lt_succ_r, Z.div_lt_upper_bound; lia. }
  assert (Hm : mul (x mod 128 / 8) 64 = x mod 128 / 8 * 64).
  { apply wrap_id. unfold is_int, int_min, int_max. lia. }
  rewrite Hm.
  assert (Ha : add (y mod 64) (x mod 128 / 8 * 64)
               = y mod 64 + x mod 128 / 8 * 64).
  { apply wrap_id. unfold is_int, int_min, int_max. lia. }
  rewrite Ha.
  change (div (mul 64 128) 8) with 1024.
  rewrite reduceAbove_below by lia.
  reflexivity.
Qed.

Lemma writePixel_done (fuel : nat) (x y : Z) (buf : list Z) :
  is_int x -> is_int y -> Z.abs x + Z.abs y < Z.of_nat fuel ->
  writePixel fuel x y buf
  = orAt (bufIndex x y) (Z.shiftl 1 (Z.land (wrapY x) 7)) buf.
Proof.
  intros Hx Hy Hf. unfold writePixel.
  now rewrite pixelIndex_done.
Qed.

Lemma upd_length (i : nat) (v : Z) (l : list Z) : length (upd i v l) = length l.
Proof.
  revert i. induction l as [|h t IH]; intros [|i]; simpl; auto.
Qed.

Lemma orAt_length (idx mask : Z) (buf buf' : list Z) :
  orAt idx mask buf = Done buf' -> length buf' = length buf.
Proof.
  unfold orAt. destruct (_ && _); [|discriminate].
  intros E. injection E as <-. apply upd_length.
Qed.

(* ------------------------------------------------------------------ *)
(** ** writePixel *)

Lemma writePixel_total_aux (x y : Z) (buf : list Z) (fuel : nat) :
  is_int x -> is_int y -> length buf = 1024%nat ->
  Z.abs x + Z.abs y < Z.of_nat fuel ->
  exists buf', writePixel fuel x y buf = Done buf' /\ length buf' = 1024%nat.
Proof.
  intros Hx Hy Hlen Hf.
  pose proof (bufIndex_range x y) as Hr.
  rewrite writePixel_done by assumption.
  unfold orAt.
  replace ((0 <=? bufIndex x y) && (bufIndex x y <? Z.of_nat (length buf)))
    with true.
  - eexists. split; [reflexivity|]. now rewrite upd_length.
  - symmetry. rewrite Hlen. apply andb_true_iff.
    split; [apply Z.leb_le | apply Z.ltb_lt]; lia.
Qed.

(** C7. [writePixel] is total on a 1024-byte buffer: for all ints [x] and
    [y] the wrap loops end once the fuel exceeds [|x| + |y|], the byte
    index they produce lies in [0, 1024), and the store succeeds, leaving
    a 1024-byte buffer. *)
Theorem writePixel_total (x y : Z) (buf : list Z) :
  is_int x -> is_int y -> length buf = 1024%nat ->
  forall fuel, Z.abs x + Z.abs y < Z.of_nat fuel ->
  exists idx yw buf',
    pixelIndex fuel x y = Done (idx, yw) /\
    0 <= idx < 1024 /\
    writePixel fuel x y buf = Done buf' /\
    length buf' = 1024%nat.
Proof.
  intros Hx Hy Hlen fuel Hf.
  pose proof (bufIndex_range x y) as Hr.
  assert (Hin : (0 <=? bufIndex x y) && (bufIndex x y <? Z.of_nat (length buf))
                = true).
  { rewrite Hlen. apply andb_true_iff. split; [apply Z.leb_le | apply Z.ltb_lt]; lia. }
  exists (bufIndex x y), (wrapY x).
  eexists. rewrite writePixel_done, pixelIndex_done by assumption.
  unfold orAt. rewrite Hin.
  repeat split; try lia.
  now rewrite upd_length.
Qed.

Lemma writePixel_total_witness :
  exists idx yw buf',
    pixelIndex 2000 (-70) 1000 = Done (idx, yw) /\
    0 <= idx < 1024 /\
    writePixel 2000 (-70) 1000 blank = Done buf' /\
    length buf' = 1024%nat.
Proof.
  apply (writePixel_total (-70) 1000 blank).
  - unfold is_int, int_min, int_max. lia.
  - unfold is_int, int_min, int_max. lia.
  - reflexivity.
  - lia.
Defined.

Lemma wrap_mod (z d : Z) : 0 < d -> (d | 2 ^ 64) -> wrap z mod d = z mod d.
Proof.
  intros Hd [k Hk]. unfold wrap.
  change (2 ^ 63) with 9223372036854775808 in *.
  pose proof (Z.div_mod (z + 9223372036854775808) (2 ^ 64)
                ltac:(change (2 ^ 64) with 18446744073709551616; lia)) as E.
  replace ((z + 9223372036854775808) mod 2 ^ 64 - 9223372036854775808)
    with (z + (- ((z + 9223372036854775808) / 2 ^ 64) * k) * d).
  - now rewrite Z.mod_add by lia.
  - rewrite Hk in *. lia.
Qed.

(** C3, as the code has it: the user's [x] is the device's long axis, so
    [writePixel] has period 128 in [x] and 64 in [y]. *)
Theorem writePixel_periodic (x y : Z) (buf : list Z) :
  is_int x -> is_int y ->
  exists fuel0, forall fuel, (fuel0 <= fuel)%nat ->
    writePixel fuel (add x 128) (add y 64) buf = writePixel fuel x y buf /\
    writePixel fuel x y buf
    = orAt (bufIndex x y) (Z.shiftl 1 (Z.land (wrapY x) 7)) buf.
Proof.
  intros Hx Hy.
  exists (Z.to_nat (Z.abs x + Z.abs y + Z.abs (add x 128) + Z.abs (add y 64) + 1)).
  intros fuel Hf.
  rewrite !writePixel_done; try assumption; try apply add_is_int; try lia.
  split; [|reflexivity].
  unfold bufIndex, wrapX, wrapY, add.
  rewrite (wrap_mod (x + 128) 128), (wrap_mod (y + 64) 64);
    try lia; try (exists (2 ^ 57); reflexivity); try (exists (2 ^ 58); reflexivity).
  replace (x + 128) with (x + 1 * 128) by lia.
  replace (y + 64) with (y + 1 * 64) by lia.
  now rewrite !Z.mod_add by lia.
Qed.

Lemma writePixel_periodic_witness :
  exists fuel0, forall fuel, (fuel0 <= fuel)%nat ->
    writePixel fuel (add 3 128) (add (-5) 64) blank = writePixel fuel 3 (-5) blank /\
    writePixel fuel 3 (-5) blank
    = orAt (bufIndex 3 (-5)) (Z.shiftl 1 (Z.land (wrapY 3) 7)) blank.
Proof.
  apply (writePixel_periodic 3 (-5) blank);
    unfold is_int, int_min, int_max; lia.
Defined.

(** C3, as the spec words it (period 64 in [x] and 128 in [y]), fails:
    (0,0) lights bit 0 of byte 0, (64,128) bit 0 of byte 512. *)
Lemma writePixel_period_64_128_fails :
  exists b1 b2,
    writePixel 8 0 0 blank = Done b1 /\
    writePixel 8 (add 0 64) (add 0 128) blank = Done b2 /\
    nth 0 b1 0 = 1 /\ nth 0 b2 0 = 0 /\
    nth 512 b1 0 = 0 /\ nth 512 b2 0 = 1 /\
    b1 <> b2.
Proof.
  eexists. eexists.
  split; [vm_compute; reflexivity|].
  split; [vm_compute; reflexivity|].
  repeat (split; [vm_compute; reflexivity|]).
  intros E. apply (f_equal (fun l => nth 0 l 0)) in E.
  vm_compute in E. discriminate.
Qed.

(* ------------------------------------------------------------------ *)
(** ** writeLine *)

Lemma bind_Done_r {A : Type} (r : result A) : (a <- r ;; Done a) = r.
Proof. now destruct r. Qed.

Lemma round53_pos (a : Z) : 0 < a -> 0 < round53 a.
Proof.
  intros Ha. unfold round53.
  destruct (Z.log2 a - 52 <=? 0) eqn:Ek; [assumption|].
  apply Z.leb_gt in Ek.
  set (k := Z.log2 a - 52) in *.
  assert (Hq : 1 <= Z.shiftr a k).
  { rewrite Z.shiftr_div_pow2 by lia.
    apply Z.div_le_lower_bound; [apply Z.pow_pos_nonneg; lia|].
    rewrite Z.mul_1_r.
    transitivity (2 ^ Z.log2 a).
    - apply Z.pow_le_mono_r; lia.
    - apply Z.log2_spec; lia. }
  rewrite Z.shiftl_mul_pow2 by lia.
  apply Z.mul_pos_pos; [|apply Z.pow_pos_nonneg; lia].
  destruct (_ || _); lia.
Qed.

Lemma round53_0 : round53 0 = 0.
Proof. reflexivity. Qed.

Lemma fabs_float64_nonneg (z : Z) : 0 <= fabs (float64 z).
Proof. unfold fabs. apply Z.abs_nonneg. Qed.

Lemma fabs_float64_zero (z : Z) : fabs (float64 z) = 0 -> z = 0.
Proof.
  unfold fabs, float64. intros E.
  assert (E' : Z.sgn z * round53 (Z.abs z) = 0) by lia.
  destruct (Z.eq_dec z 0) as [|Hz]; [assumption|exfalso].
  pose proof (round53_pos (Z.abs z) ltac:(lia)).
  apply Z.mul_eq_0 in E'. lia.
Qed.

Lemma fabs_float64_abs (z1 z2 : Z) :
  Z.abs z1 = Z.abs z2 -> fabs (float64 z1) = fabs (float64 z2).
Proof.
  intros E. unfold fabs, float64.
  rewrite !Z.abs_mul, E. f_equal. lia.
Qed.

Lemma abs_sub_sym (a b : Z) : Z.abs (sub a b) = Z.abs (sub b a).
Proof.
  unfold sub, wrap.
  change (2 ^ 63) with 9223372036854775808.
  change (2 ^ 64) with 18446744073709551616.
  Z.div_mod_to_equations. lia.
Qed.

Lemma sub_zero_eq (a b : Z) : is_int a -> is_int b -> sub a b = 0 -> a = b.
Proof.
  unfold sub, wrap, is_int, int_min, int_max.
  change (2 ^ 63) with 9223372036854775808.
  change (2 ^ 64) with 18446744073709551616.
  intros Ha Hb. Z.div_mod_to_equations. lia.
Qed.

Lemma sub_diag (a : Z) : sub a a = 0.
Proof. unfold sub. now rewrite Z.sub_diag. Qed.

Lemma steep_sym (a b c d : Z) :
  (fabs (float64 (sub d b)) >? fabs (float64 (sub c a)))
  = (fabs (float64 (sub b d)) >? fabs (float64 (sub a c))).
Proof.
  now rewrite (fabs_float64_abs _ _ (abs_sub_sym d b)),
              (fabs_float64_abs _ _ (abs_sub_sym c a)).
Qed.

Lemma gtb_false (a b : Z) : a <= b -> (a >? b) = false.
Proof. intros. rewrite Z.gtb_ltb. now apply Z.ltb_ge. Qed.

Lemma gtb_true (a b : Z) : b < a -> (a >? b) = true.
Proof. intros. rewrite Z.gtb_ltb. now apply Z.ltb_lt. Qed.

(** Both endpoint orders reach the loop in the same state. *)
Lemma writeLine_swap (fuel : nat) (a b c d : Z) (buf : list Z) :
  is_int a -> is_int b -> is_int c -> is_int d ->
  writeLine fuel a b c d buf = writeLine fuel c d a b buf.
Proof.
  intros Ha Hb Hc Hd. unfold writeLine.
  rewrite (steep_sym a b c d).
  destruct (fabs (float64 (sub b d)) >? fabs (float64 (sub a c))) eqn:Es.
  - (* steep: the walk is along y *)
    destruct (Z.compare_spec b d) as [E|Hlt|Hgt].
    + subst d. rewrite sub_diag in Es.
      pose proof (fabs_float64_nonneg (sub a c)).
      change (fabs (float64 0)) with 0 in Es.
      rewrite Z.gtb_ltb in Es. apply Z.ltb_lt in Es. lia.
    + replace (b >? d) with false by (symmetry; apply gtb_false; lia).
      replace (d >? b) with true by (symmetry; apply gtb_true; lia).
      reflexivity.
    + replace (b >? d) with true by (symmetry; apply gtb_true; lia).
      replace (d >? b) with false by (symmetry; apply gtb_false; lia).
      reflexivity.
  - (* not steep: the walk is along x *)
    destruct (Z.compare_spec a c) as [E|Hlt|Hgt].
    + subst c. rewrite sub_diag in Es.
      change (fabs (float64 0)) with 0 in Es.
      pose proof (fabs_float64_nonneg (sub b d)).
      assert (E0 : fabs (float64 (sub b d)) = 0).
      { rewrite Z.gtb_ltb in Es. apply Z.ltb_ge in Es. lia. }
      apply fabs_float64_zero in E0.
      apply sub_zero_eq in E0; try assumption. subst d.
      reflexivity.
    + replace (a >? c) with false by (symmetry; apply gtb_false; lia).
      replace (c >? a) with true by (symmetry; apply gtb_true; lia).
      reflexivity.
    + replace (a >? c) with true by (symmetry; apply gtb_true; lia).
      replace (c >? a) with false by (symmetry; apply gtb_false; lia).
      reflexivity.
Qed.

Lemma writePixel_ok (fuel : nat) (x y : Z) (buf : list Z) :
  is_int x -> is_int y -> length buf = 1024%nat ->
  2 ^ 64 < Z.of_nat fuel ->
  exists buf', writePixel fuel x y buf = Done buf' /\ length buf' = 1024%nat.
Proof.
  intros Hx Hy Hlen Hf.
  destruct (writePixel_total_aux x y buf fuel) as (b & E & L); auto.
  - unfold is_int, int_min, int_max in *.
    change (2 ^ 63) with 9223372036854775808 in *.
    change (2 ^ 64) with 18446744073709551616 in *. lia.
  - eauto.
Qed.

(** The loop ends when the walk's last column is below the largest int:
    [x0] then climbs past [x1] without wrapping. *)
Lemma lineLoop_ok (fp : nat) (steep : bool) (x1 dx dy ystep : Z) :
  x1 < int_max -> 2 ^ 64 < Z.of_nat fp ->
  forall (k n : nat) (x0 y0 err : Z) (buf : list Z),
    is_int x0 -> is_int y0 -> Z.to_nat (x1 + 1 - x0) = k -> (k < n)%nat ->
    length buf = 1024%nat ->
    exists buf',
      lineLoop fp n steep x1 dx dy ystep x0 y0 err buf = Done buf' /\
      length buf' = 1024%nat.
Proof.
  intros Hx1 Hfp.
  induction k as [|k IH]; intros n x0 y0 err buf Hx0 Hy0 Hk Hn Hlen;
    (destruct n as [|n]; [lia|]); simpl.
  - replace (x0 <=? x1) with false by (symmetry; apply Z.leb_gt; lia).
    eauto.
  - replace (x0 <=? x1) with true by (symmetry; apply Z.leb_le; lia).
    assert (Hpix : exists buf1,
               (if steep then writePixel fp y0 x0 buf
                else writePixel fp x0 y0 buf) = Done buf1 /\
               length buf1 = 1024%nat).
    { destruct steep; apply writePixel_ok; assumption. }
    destruct Hpix as (buf1 & -> & Hlen1). simpl.
    assert (Hinc : add x0 1 = x0 + 1).
    { apply wrap_id. unfold is_int, int_min, int_max in *. lia. }
    rewrite Hinc.
    destruct (sub err dy <? 0);
      apply IH; try apply add_is_int; try assumption; try lia;
      unfold is_int, int_min, int_max in *; lia.
Qed.

Lemma writeLine_ok (fuel : nat) (a b c d : Z) (buf : list Z) :
  is_int a -> is_int b -> is_int c -> is_int d ->
  a < int_max -> b < int_max -> c < int_max -> d < int_max ->
  length buf = 1024%nat -> 2 ^ 65 <= Z.of_nat fuel ->
  exists buf', writeLine fuel a b c d buf = Done buf' /\ length buf' = 1024%nat.
Proof.
  intros Ha Hb Hc Hd Ha' Hb' Hc' Hd' Hlen Hf. unfold writeLine.
  assert (Hfp : 2 ^ 64 < Z.of_nat fuel).
  { change (2 ^ 65) with 36893488147419103232 in Hf.
    change (2 ^ 64) with 18446744073709551616. lia. }
  destruct (fabs (float64 (sub d b)) >? fabs (float64 (sub c a)));
    [destruct (b >? d) | destruct (a >? c)];
    (eapply lineLoop_ok; [ | exact Hfp | | | reflexivity | | exact Hlen ];
     try assumption;
     unfold is_int, int_min, int_max in *;
     change (2 ^ 63) with 9223372036854775808 in *;
     change (2 ^ 65) with 36893488147419103232 in *; lia).
Qed.

(** C4. Rasterization does not depend on the order of the endpoints: for
    int endpoints both orders give the same outcome at every fuel, and
    (for endpoints below the largest int, on a 1024-byte buffer) that
    outcome is a buffer once the fuel is large enough. *)
Theorem writeLine_symmetric (a b c d : Z) (buf : list Z) :
  is_int a -> is_int b -> is_int c -> is_int d ->
  (forall fuel, writeLine fuel a b c d buf = writeLine fuel c d a b buf) /\
  (a < int_max -> b < int_max -> c < int_max -> d < int_max ->
   length buf = 1024%nat ->
   forall fuel, 2 ^ 65 <= Z.of_nat fuel ->
   exists buf',
     writeLine fuel a b c d buf = Done buf' /\
     writeLine fuel c d a b buf = Done buf').
Proof.
  intros Ha Hb Hc Hd. split.
  - intros fuel. now apply writeLine_swap.
  - intros Ha' Hb' Hc' Hd' Hlen fuel Hf.
    destruct (writeLine_ok fuel a b c d buf) as (buf' & E & _); try assumption.
    exists buf'. split; [assumption|].
    now rewrite <- (writeLine_swap fuel a b c d buf).
Qed.

Lemma writeLine_symmetric_witness :
  (forall fuel, writeLine fuel 10 10 0 0 blank = writeLine fuel 0 0 10 10 blank) /\
  (10 < int_max -> 10 < int_max -> 0 < int_max -> 0 < int_max ->
   length blank = 1024%nat ->
   forall fuel, 2 ^ 65 <= Z.of_nat fuel ->
   exists buf',
     writeLine fuel 10 10 0 0 blank = Done buf' /\
     writeLine fuel 0 0 10 10 blank = Done buf').
Proof.
  apply (writeLine_symmetric 10 10 0 0 blank);
    unfold is_int, int_min, int_max; lia.
Defined.

(** The two orders of the line (10,10)-(0,0), run. *)
Example writeLine_10_10_0_0 :
  writeLine 20 10 10 0 0 blank = writeLine 20 0 0 10 10 blank /\
  exists buf', writeLine 20 0 0 10 10 blank = Done buf' /\
               map (fun i => nth i buf' 0) (seq 0 11)
               = [1; 2; 4; 8; 16; 32; 64; 128; 0; 0; 0] /\
               map (fun i => nth i buf' 0) (seq 64 11)
               = [0; 0; 0; 0; 0; 0; 0; 0; 1; 2; 4].
Proof.
  split; [vm_compute; reflexivity|].
  eexists. split; [vm_compute; reflexivity|].
  split; vm_compute; reflexivity.
Qed.

(** A steep line, both ways: (3,0)-(0,9) is walked along [y]. *)
Example writeLine_3_0_0_9 :
  writeLine 20 3 0 0 9 blank = writeLine 20 0 9 3 0 blank /\
  exists buf', writeLine 20 0 9 3 0 blank = Done buf' /\
               litPixels buf' = 10%nat /\
               pixelOn 3 0 buf' = true /\ pixelOn 0 9 buf' = true.
Proof.
  split; [vm_compute; reflexivity|].
  eexists. split; [vm_compute; reflexivity|].
  repeat split; vm_compute; reflexivity.
Qed.

(** The single-point line (5,5)-(5,5) on a blank buffer lights one pixel,
    the one at (5,5): bit 5 of byte 5. *)
Example writeLine_5_5_5_5 :
  writeLine 8 5 5 5 5 blank = Done (upd 5 32 blank) /\
  writePixel 8 5 5 blank = Done (upd 5 32 blank) /\
  litPixels (upd 5 32 blank) = 1%nat /\
  pixelOn 5 5 (upd 5 32 blank) = true.
Proof. repeat split; vm_compute; reflexivity. Qed.

(** Below the largest int a single-point line is one [writePixel]. *)
Lemma writeLine_point (x y : Z) (buf : list Z) (fuel : nat) :
  is_int x -> is_int y -> x < int_max -> (2 <= fuel)%nat ->
  writeLine fuel x y x y buf = writePixel fuel x y buf.
Proof.
  intros Hx Hy Hmax Hf. unfold writeLine.
  rewrite !sub_diag.
  change (fabs (float64 0) >? fabs (float64 0)) with false.
  cbv beta iota zeta.
  rewrite (gtb_false x x) by lia.
  cbv beta iota zeta.
  rewrite !sub_diag. change (0 <? 0) with false.
  rewrite (Z.ltb_irrefl y). change (div 0 2) with 0.
  cbv beta iota zeta.
  destruct fuel as [|[|f]]; try lia.
  cbn [lineLoop].
  replace (x <=? x) with true by (symmetry; apply Z.leb_le; lia).
  assert (Hinc : add x 1 = x + 1).
  { apply wrap_id. unfold is_int, int_min, int_max in *. lia. }
  rewrite Hinc, sub_diag. change (0 <? 0) with false. cbv iota beta.
  replace (x + 1 <=? x) with false by (symmetry; apply Z.leb_gt; lia).
  apply bind_Done_r.
Qed.

Lemma lineLoop_int_max (fp n : nat) (steep : bool) (dx dy ystep : Z)
    (x0 y0 err : Z) (buf b : list Z) :
  is_int x0 ->
  lineLoop fp n steep int_max dx dy ystep x0 y0 err buf <> Done b.
Proof.
  revert x0 y0 err buf.
  induction n as [|n IH]; intros x0 y0 err buf Hx0; simpl; [discriminate|].
  replace (x0 <=? int_max) with true
    by (symmetry; apply Z.leb_le; unfold is_int in Hx0; lia).
  destruct (if steep then writePixel fp y0 x0 buf else writePixel fp x0 y0 buf)
    as [buf1| |]; simpl; try discriminate.
  destruct (sub err dy <? 0); apply IH, add_is_int.
Qed.

(** C8 at the largest int: a single-point line at
    [x = 9223372036854775807] returns for no amount of fuel, whatever
    [y] and the buffer.  After the endpoint is plotted, [x0++] wraps to
    the smallest int and the test [x0 <= x1] holds forever. *)
Theorem writeLine_point_int_max (y : Z) (buf : list Z) :
  never_returns (fun fuel => writeLine fuel int_max y int_max y buf).
Proof.
  intros fuel b. unfold writeLine.
  rewrite !sub_diag.
  change (fabs (float64 0) >? fabs (float64 0)) with false.
  cbv beta iota zeta.
  rewrite (gtb_false int_max int_max) by lia.
  cbv beta iota zeta.
  apply lineLoop_int_max. unfold is_int, int_min, int_max. lia.
Qed.

(** What that run does before it hangs: after two turns of the loop the
    pixel at [x = int_min] is already lit besides the endpoint. *)
Example lineLoop_int_max_second_pixel :
  add int_max 1 = int_min /\
  (int_min <=? int_max) = true /\
  exists b1 b2,
    writePixel 0 int_max 0 blank = OutOfFuel /\
    orAt (bufIndex int_max 0) (Z.shiftl 1 (Z.land (wrapY int_max) 7)) blank
    = Done b1 /\
    orAt (bufIndex int_min 0) (Z.shiftl 1 (Z.land (wrapY int_min) 7)) b1
    = Done b2 /\
    litPixels b1 = 1%nat /\ litPixels b2 = 2%nat.
Proof.
  split; [vm_compute; reflexivity|].
  split; [vm_compute; reflexivity|].
  eexists. eexists.
  split; [reflexivity|].
  split; [vm_compute; reflexivity|].
  split; [vm_compute; reflexivity|].
  split; vm_compute; reflexivity.
Qed.

(* ------------------------------------------------------------------ *)
(** ** Slices and copies *)

Lemma slice_nat (lo n : nat) (buf : list Z) (zlo zhi : Z) :
  (lo + n <= length buf)%nat -> zlo = Z.of_nat lo -> zhi = Z.of_nat (lo + n) ->
  slice zlo zhi buf = Some (firstn n (skipn lo buf)).
Proof.
  intros Hlen -> ->. unfold slice.
  replace ((0 <=? Z.of_nat lo) && (Z.of_nat lo <=? Z.of_nat (lo + n))
           && (Z.of_nat (lo + n) <=? Z.of_nat (length buf))) with true.
  - do 3 f_equal; lia.
  - symmetry. rewrite !andb_true_iff, !Z.leb_le. lia.
Qed.

Lemma index_nat (i : nat) (buf : list Z) (z : Z) :
  (i < length buf)%nat -> z = Z.of_nat i -> index z buf = Some (nth i buf 0).
Proof.
  intros Hlen ->. unfold index.
  replace ((0 <=? Z.of_nat i) && (Z.of_nat i <? Z.of_nat (length buf))) with true.
  - rewrite Nat2Z.id. now apply nth_error_nth'.
  - symmetry. rewrite andb_true_iff, Z.leb_le, Z.ltb_lt. lia.
Qed.

Lemma firstn_2_skipn (k : nat) (buf : list Z) :
  (k + 2 <= length buf)%nat ->
  firstn 2 (skipn k buf) = [nth k buf 0; nth (k + 1) buf 0].
Proof.
  revert buf. induction k as [|k IH]; intros buf Hlen.
  - destruct buf as [|a [|b t]]; simpl in *; try lia. reflexivity.
  - destruct buf as [|a t]; simpl in *; try lia. apply IH. lia.
Qed.

Lemma firstn_skipn_add (a b : nat) (l : list Z) :
  firstn a l ++ firstn b (skipn a l) = firstn (a + b) l.
Proof.
  revert l. induction a as [|a IH]; intros l; simpl; [reflexivity|].
  destruct l as [|h t]; simpl.
  - now rewrite firstn_nil.
  - now rewrite IH.
Qed.

(** The three transfers of page [p] are the page's 64 bytes, cut 31, 31
    and 2. *)
Lemma page_chunks (buf : list Z) (p : nat) :
  length buf = 1024%nat -> (p < 16)%nat ->
  let c1 := firstn 31 (skipn (64 * p) buf) in
  let c2 := firstn 31 (skipn (64 * p + 31) buf) in
  let c3 := firstn 2 (skipn (64 * p + 62) buf) in
  length c1 = 31%nat /\ length c2 = 31%nat /\ length c3 = 2%nat /\
  c1 ++ c2 ++ c3 = firstn 64 (skipn (64 * p) buf).
Proof.
  intros Hlen Hp c1 c2 c3. subst c1 c2 c3.
  repeat split;
    try (rewrite length_firstn, length_skipn; lia).
  replace (skipn (64 * p + 31) buf) with (skipn 31 (skipn (64 * p) buf))
    by (rewrite skipn_skipn; f_equal; lia).
  replace (skipn (64 * p + 62) buf) with (skipn 62 (skipn (64 * p) buf))
    by (rewrite skipn_skipn; f_equal; lia).
  set (pg := skipn (64 * p) buf).
  replace (skipn 62 pg) with (skipn 31 (skipn 31 pg))
    by (rewrite skipn_skipn; reflexivity).
  rewrite (firstn_skipn_add 31 2 (skipn 31 pg)).
  rewrite (firstn_skipn_add 31 (31 + 2) pg).
  reflexivity.
Qed.

Lemma upd_app (pre post : list Z) (p v : Z) :
  upd (length pre) v (pre ++ p :: post) = pre ++ v :: post.
Proof. induction pre as [|h t IH]; simpl; [reflexivity | now rewrite IH]. Qed.

Lemma rangeCopy_app (data pre post : list Z) :
  rangeCopy (length pre) data (pre ++ post)
  = pre ++ firstn (length post) data ++ skipn (length data) post.
Proof.
  revert pre post. induction data as [|pix rest IH]; intros pre post; simpl.
  - now rewrite firstn_nil.
  - destruct post as [|p post'].
    + rewrite app_nil_r, Nat.leb_refl. simpl. now rewrite app_nil_r.
    + replace (length (pre ++ p :: post') <=? length pre)%nat with false
        by (symmetry; apply Nat.leb_gt; rewrite length_app; simpl; lia).
      rewrite upd_app.
      replace (pre ++ pix :: post') with ((pre ++ [pix]) ++ post')
        by (now rewrite <- app_assoc).
      replace (S (length pre)) with (length (pre ++ [pix]))
        by (rewrite length_app; simpl; lia).
      rewrite IH. simpl. now rewrite <- app_assoc.
Qed.

Lemma skipn_repeat (k n : nat) : skipn k (repeat 0 n) = repeat 0 (n - k).
Proof.
  revert n. induction k as [|k IH]; intros n.
  - now rewrite Nat.sub_0_r.
  - destruct n as [|n]; simpl; [reflexivity | apply IH].
Qed.

Lemma rangeCopy_repeat (n : nat) (data : list Z) :
  rangeCopy 0 data (repeat 0 n) = firstn n data ++ repeat 0 (n - length data).
Proof.
  pose proof (rangeCopy_app data [] (repeat 0 n)) as E.
  cbn [app length] in E.
  now rewrite repeat_length, skipn_repeat in E.
Qed.

Lemma truncPad_length (data : list Z) : length (truncPad data) = 1024%nat.
Proof.
  unfold truncPad. rewrite length_app, length_firstn, repeat_length. lia.
Qed.

(* ------------------------------------------------------------------ *)
(** ** Buffer lengths and fuel of the drawing code *)

Lemma writePixel_length (fuel : nat) (x y : Z) (buf buf' : list Z) :
  writePixel fuel x y buf = Done buf' -> length buf' = length buf.
Proof.
  unfold writePixel. destruct (pixelIndex fuel x y) as [p| |]; simpl;
    try discriminate.
  apply orAt_length.
Qed.

Lemma lineLoop_length (fp n : nat) (steep : bool) (x1 dx dy ystep : Z) :
  forall (x0 y0 err : Z) (buf buf' : list Z),
    lineLoop fp n steep x1 dx dy ystep x0 y0 err buf = Done buf' ->
    length buf' = length buf.
Proof.
  induction n as [|n IH]; intros x0 y0 err buf buf'; simpl; [discriminate|].
  destruct (x0 <=? x1); [|intros E; injection E as <-; reflexivity].
  destruct (if steep then writePixel fp y0 x0 buf else writePixel fp x0 y0 buf)
    as [buf1| |] eqn:E1; simpl; try discriminate.
  assert (L1 : length buf1 = length buf).
  { destruct steep; eapply writePixel_length; eassumption. }
  destruct (sub err dy <? 0); intros E; apply IH in E; congruence.
Qed.

Lemma writeLine_length (fuel : nat) (x0 y0 x1 y1 : Z) (buf buf' : list Z) :
  writeLine fuel x0 y0 x1 y1 buf = Done buf' -> length buf' = length buf.
Proof.
  unfold writeLine.
  destruct (fabs (float64 (sub y1 y0)) >? fabs (float64 (sub x1 x0)));
    [destruct (y0 >? y1) | destruct (x0 >? x1)];
    apply lineLoop_length.
Qed.

Lemma writePixel_fuelled (fuel : nat) (x y : Z) (buf : list Z) :
  is_int x -> is_int y -> 2 ^ 64 < Z.of_nat fuel ->
  writePixel fuel x y buf <> OutOfFuel.
Proof.
  intros Hx Hy Hf. rewrite writePixel_done; try assumption.
  - unfold orAt. destruct (_ && _); discriminate.
  - unfold is_int, int_min, int_max in *.
    change (2 ^ 63) with 9223372036854775808 in *.
    change (2 ^ 64) with 18446744073709551616 in *. lia.
Qed.

Lemma forRange_inv {S : Type} (F : Prop) (P : S -> Prop)
    (body : Z -> S -> result S) :
  (forall i s, P s ->
     (F -> body i s <> OutOfFuel) /\ (forall s', body i s = Done s' -> P s')) ->
  forall (n : nat) (i : Z) (s : S), P s ->
    (F -> forRange n i body s <> OutOfFuel) /\
    (forall s', forRange n i body s = Done s' -> P s').
Proof.
  intros Hb. induction n as [|n IH]; intros i s Hs; simpl.
  - split; [discriminate|]. intros s' E. now injection E as <-.
  - destruct (Hb i s Hs) as [Hnf Hd].
    destruct (body i s) as [s1| |]; simpl.
    + apply IH, Hd. reflexivity.
    + split; discriminate.
    + split; [intros HF; now apply Hnf | discriminate].
Qed.

Section TextProofs.
Context `{Font}.

Lemma glyphBit_inv (fuel : nat) (x y xo yo yy : Z) (n : nat) :
  forall xx st, stLen n st ->
    (2 ^ 64 < Z.of_nat fuel ->
     glyphBit fuel x y xo yo yy xx st <> OutOfFuel) /\
    (forall st', glyphBit fuel x y xo yo yy xx st = Done st' -> stLen n st').
Proof.
  intros xx [[[bo bit] bits] buf] Hst. unfold stLen in *. simpl in Hst.
  unfold glyphBit.
  destruct (if Z.land bit 7 =? 0
            then b <- lift (index bo freemono);; Done (b, add bo 1)
            else Done (bits, bo)) as [[bits' bo']| |] eqn:E1; simpl.
  - destruct (Z.land bits' 128 >? 0).
    + pose proof (fun Hf => writePixel_fuelled fuel (add (add x xo) xx)
                    (sub (sub y yo) yy) buf (add_is_int _ _)
                    (sub_is_int _ _) Hf) as Hnf.
      destruct (writePixel fuel (add (add x xo) xx) (sub (sub y yo) yy) buf)
        as [buf1| |] eqn:E2; simpl.
      * split; [discriminate|]. intros st' E. injection E as <-. simpl.
        apply writePixel_length in E2. congruence.
      * split; discriminate.
      * split; [|discriminate].
        intros Hf. apply Hnf in Hf. congruence.
    + simpl. split; [discriminate|]. intros st' E. now injection E as <-.
  - split; discriminate.
  - exfalso. destruct (Z.land bit 7 =? 0); [|discriminate].
    destruct (index bo freemono); discriminate.
Qed.

Lemma glyphRow_inv (fuel : nat) (x y xo yo w : Z) (n : nat) :
  forall yy st, stLen n st ->
    (2 ^ 64 < Z.of_nat fuel ->
     glyphRow fuel x y xo yo w yy st <> OutOfFuel) /\
    (forall st', glyphRow fuel x y xo yo w yy st = Done st' -> stLen n st').
Proof.
  intros yy st Hst. unfold glyphRow.
  apply (forRange_inv _ (stLen n)); [|assumption].
  intros xx s Hs. now apply glyphBit_inv.
Qed.

(** With fuel above [2 ^ 64] the renderer never runs dry, and a buffer it
    returns has the length of the one it was given. *)
Lemma writeString_inv (fuel : nat) (text : list Z) :
  forall (x y : Z) (buf : list Z),
    (2 ^ 64 < Z.of_nat fuel -> writeString fuel x y text buf <> OutOfFuel) /\
    (forall buf', writeString fuel x y text buf = Done buf' ->
                  length buf' = length buf).
Proof.
  induction text as [|cb rest IH]; intros x y buf; simpl.
  - split; [discriminate|]. intros buf' E. now injection E as <-.
  - destruct ((cb <? 32) || (wrap8 (cb - 32) >=? 95)); [apply IH|].
    destruct (index (wrap8 (cb - 32)) chars) as [cInfo|]; simpl;
      [|split; discriminate].
    destruct (index 0 cInfo) as [bo|]; simpl; [|split; discriminate].
    destruct (index 1 cInfo) as [w|]; simpl; [|split; discriminate].
    destruct (index 2 cInfo) as [h|]; simpl; [|split; discriminate].
    destruct (index 3 cInfo) as [adv|]; simpl; [|split; discriminate].
    destruct (index 4 cInfo) as [xo|]; simpl; [|split; discriminate].
    destruct (index 5 cInfo) as [yo|]; simpl; [|split; discriminate].
    destruct (forRange_inv (2 ^ 64 < Z.of_nat fuel) (stLen (length buf))
                (glyphRow fuel x y xo yo w)
                (fun yy s Hs => glyphRow_inv fuel x y xo yo w (length buf) yy s Hs)
                (Z.to_nat h) 0 (bo, 0, 0, buf) eq_refl) as [Hnf Hd].
    destruct (forRange (Z.to_nat h) 0 (glyphRow fuel x y xo yo w) (bo, 0, 0, buf))
      as [st| |]; simpl;
      [|split; discriminate
       |split; [intros Hf; now apply Hnf in Hf | discriminate]].
    specialize (Hd st eq_refl). unfold stLen in Hd.
    destruct (IH (add x adv) y (snd st)) as [Hnf' Hd'].
    split; [assumption|]. intros buf' E. rewrite (Hd' buf' E). exact Hd.
Qed.
End TextProofs.

(* ------------------------------------------------------------------ *)
(** ** The bus protocol *)

Section DriverProofs.
Context {W : Type} `{I2C W} `{Font}.
Implicit Types m : @machine W.

Lemma openHandle_inv m e m' :
  openHandle m = (e, m') ->
  trace m' = trace m ++ [EvOpen (addr (disp m))] /\ disp m' = disp m.
Proof.
  unfold openHandle. destruct (OpenHandle _ _) as [e0 w].
  intros E. injection E as <- <-. now split.
Qed.

Lemma hRead_inv m n b e m' :
  hRead n m = (b, e, m') ->
  trace m' = trace m ++ [EvRead n] /\ disp m' = disp m.
Proof.
  unfold hRead. destruct (Read _ _) as [[b0 e0] w].
  intros E. injection E as <- <- <-. now split.
Qed.

Lemma hClose_inv m e m' :
  hClose m = (e, m') ->
  trace m' = trace m ++ [EvClose] /\ disp m' = disp m.
Proof.
  unfold hClose. destruct (Close _) as [e0 w].
  intros E. injection E as <- <-. now split.
Qed.

Lemma hClose_snd m :
  trace (snd (hClose m)) = trace m ++ [EvClose] /\
  disp (snd (hClose m)) = disp m.
Proof. destruct (hClose m) as [e m'] eqn:E. now apply hClose_inv in E. Qed.

Lemma hWrite_snd bs m :
  trace (snd (hWrite bs m)) = trace m ++ [EvWrite bs] /\
  disp (snd (hWrite bs m)) = disp m.
Proof. unfold hWrite. destruct (Write _ _) as [e w]. now split. Qed.

Lemma hWrite_trace bs m : trace (snd (hWrite bs m)) = trace m ++ [EvWrite bs].
Proof. apply hWrite_snd. Qed.

Lemma hWrite_disp bs m : disp (snd (hWrite bs m)) = disp m.
Proof. apply hWrite_snd. Qed.

Lemma initDisp_disp m : disp (snd (initDisp m)) = disp m.
Proof.
  unfold initDisp. destruct (openHandle m) as [[e|] m1] eqn:E;
    apply openHandle_inv in E as [_ D]; simpl; [assumption|].
  rewrite (proj2 (hClose_snd _)), hWrite_disp. unfold sleep, step. simpl.
  rewrite !hWrite_disp. exact D.
Qed.

Lemma initDisp_trace m m1 :
  openHandle m = (None, m1) ->
  trace (snd (initDisp m)) = trace m ++ initTrace (addr (disp m)).
Proof.
  intros E. unfold initDisp. rewrite E.
  apply openHandle_inv in E as [T _]. simpl.
  rewrite (proj1 (hClose_snd _)), hWrite_trace. unfold sleep, step. simpl.
  rewrite !hWrite_trace, T. unfold initTrace.
  now rewrite <- !app_assoc.
Qed.

Lemma initDisp_grows m :
  exists evs,
    trace (snd (initDisp m)) = trace m ++ EvOpen (addr (disp m)) :: evs.
Proof.
  destruct (openHandle m) as [[e|] m1] eqn:E.
  - unfold initDisp. rewrite E. apply openHandle_inv in E as [T _].
    exists []. exact T.
  - rewrite (initDisp_trace m m1 E). unfold initTrace. eauto.
Qed.

Lemma checkInit_disp m :
  match checkInit m with
  | Ret _ m' => disp m' = disp m
  | Fault m' => disp m' = disp m
  | Diverge => False
  end.
Proof.
  unfold checkInit.
  destruct (openHandle m) as [[e|] m1] eqn:E1;
    apply openHandle_inv in E1 as [_ D1]; [assumption|].
  destruct (hRead 1 m1) as [[buffer e] m2] eqn:E2.
  apply hRead_inv in E2 as [_ D2].
  destruct (hClose m2) as [[e'|] m3] eqn:E3;
    apply hClose_inv in E3 as [_ D3]; [congruence|].
  destruct (index 0 buffer) as [b|]; [|congruence].
  destruct (b =? 71); [rewrite initDisp_disp|]; congruence.
Qed.

(** The page loop from page [p] on: [k] pages are left. *)
Lemma pageLoop_run (buf : list Z) :
  length buf = 1024%nat ->
  forall (k p n : nat) m,
    (p + k = 16)%nat -> (k < n)%nat ->
    exists m',
      pageLoop n (0xB0 + Z.of_nat p) (Z.of_nat p) buf m = Ret tt m' /\
      trace m' = trace m ++ flat_map (pageWrites buf) (seq p k) /\
      disp m' = disp m.
Proof.
  intros Hlen.
  induction k as [|k IH]; intros p n m Hp Hn;
    (destruct n as [|n]; [lia|]); cbn [pageLoop].
  - replace (176 + Z.of_nat p <=? 191) with false
      by (symmetry; apply Z.leb_gt; lia).
    exists m. simpl. rewrite app_nil_r. repeat split.
  - replace (176 + Z.of_nat p <=? 191) with true
      by (symmetry; apply Z.leb_le; lia).
    rewrite (slice_nat (64 * p) 31 buf) by lia.
    rewrite (slice_nat (64 * p + 31) 31 buf) by lia.
    rewrite (index_nat (64 * p + 62) buf), (index_nat (64 * p + 63) buf) by lia.
    replace (wrap8 (176 + Z.of_nat p + 1)) with (176 + Z.of_nat (S p))
      by (unfold wrap8; rewrite Z.mod_small; lia).
    replace (Z.of_nat p + 1) with (Z.of_nat (S p)) by lia.
    match goal with
    | |- context [pageLoop n _ _ buf ?m4] =>
        destruct (IH (S p) n m4 ltac:(lia) ltac:(lia)) as (m' & E & T & D)
    end.
    exists m'. split; [exact E|]. split.
    + rewrite T, !hWrite_trace.
      change (seq p (S k)) with (p :: seq (S p) k).
      cbn [flat_map]. unfold pageWrites at 2.
      rewrite (firstn_2_skipn (64 * p + 62) buf) by lia.
      replace (64 * p + 62 + 1)%nat with (64 * p + 63)%nat by lia.
      rewrite <- !app_assoc. reflexivity.
    + rewrite D, !hWrite_disp. reflexivity.
Qed.

(** One commit, from the end of the probe on. *)
Lemma writeBuf_run (buf : list Z) m r m1 m2 :
  length buf = 1024%nat ->
  checkInit m = Ret r m1 -> openHandle m1 = (None, m2) ->
  exists m3,
    writeBuf buf m = Ret None m3 /\
    trace m3 = trace m1 ++ [EvOpen (addr (disp m))] ++ commitWrites buf
               ++ [EvClose] /\
    disp m3 = {| addr := addr (disp m); current := buf |}.
Proof.
  intros Hlen Hc Ho. unfold writeBuf. rewrite Hc, Ho.
  pose proof (checkInit_disp m) as D1. rewrite Hc in D1.
  apply openHandle_inv in Ho as [T2 D2].
  destruct (pageLoop_run buf Hlen 16 0 17 m2 eq_refl ltac:(lia))
    as (m' & E & T & D).
  change (0xB0 + Z.of_nat 0) with 0xB0 in E. change (Z.of_nat 0) with 0 in E.
  rewrite E. eexists. split; [reflexivity|].
  destruct (hClose_snd (setCurrent buf m')) as [T3 D3].
  rewrite T3, D3. unfold setCurrent. simpl.
  rewrite T, T2, D, D2, D1. unfold commitWrites.
  split; [now rewrite <- !app_assoc | reflexivity].
Qed.

(** C1. On a 1024-byte buffer, once the probe has returned and the
    handle is open, [writeBuf] returns [nil] and what it adds to the
    trace is the open, then for each page 0..15 in order the command
    [[0x00, 0xB0 + p, 0x10, 0x00]] and three data writes of 31, 31 and 2
    bytes behind [0x40] that carry bytes [64 p .. 64 p + 63], then the
    close. *)
Theorem writeBuf_page_writes (buf : list Z) m r m1 m2 :
  length buf = 1024%nat ->
  checkInit m = Ret r m1 -> openHandle m1 = (None, m2) ->
  (exists m3,
     writeBuf buf m = Ret None m3 /\
     trace m3 = trace m1 ++ [EvOpen (addr (disp m))] ++ commitWrites buf
                ++ [EvClose]) /\
  (forall p, (p < 16)%nat ->
     exists c1 c2 c3,
       pageWrites buf p
       = [ EvWrite [0x00; 0xB0 + Z.of_nat p; 0x10; 0x00];
           EvWrite (0x40 :: c1); EvWrite (0x40 :: c2); EvWrite (0x40 :: c3) ] /\
       length c1 = 31%nat /\ length c2 = 31%nat /\ length c3 = 2%nat /\
       c1 ++ c2 ++ c3 = firstn 64 (skipn (64 * p) buf)).
Proof.
  intros Hlen Hc Ho. split.
  - destruct (writeBuf_run buf m r m1 m2 Hlen Hc Ho) as (m3 & E & T & _).
    eauto.
  - intros p Hp.
    destruct (page_chunks buf p Hlen Hp) as (L1 & L2 & L3 & E).
    do 3 eexists. split; [reflexivity|]. auto.
Qed.

(** What [writeBuf] leaves in the driver, case by case. *)
Lemma writeBuf_inv (buf : list Z) m :
  length buf = 1024%nat ->
  match writeBuf buf m with
  | Ret None m' =>
      disp m' = {| addr := addr (disp m); current := buf |} /\
      exists t, trace m' = t ++ [EvOpen (addr (disp m))] ++ commitWrites buf
                           ++ [EvClose]
  | Ret (Some _) m' => disp m' = disp m
  | Fault m' => disp m' = disp m /\ checkInit m = Fault m'
  | Diverge => False
  end.
Proof.
  intros Hlen.
  pose proof (checkInit_disp m) as D1.
  destruct (checkInit m) as [r m1 | m1 |] eqn:Hc.
  - destruct (openHandle m1) as [[e|] m2] eqn:Ho.
    + unfold writeBuf. rewrite Hc, Ho.
      apply openHandle_inv in Ho as [_ D2]. congruence.
    + destruct (writeBuf_run buf m r m1 m2 Hlen Hc Ho) as (m3 & -> & T & D).
      split; [exact D | eauto].
  - unfold writeBuf. rewrite Hc. auto.
  - contradiction.
Qed.

(** The probe with a status byte in hand. *)
Lemma checkInit_byte m m1 b bs e m2 m3 :
  openHandle m = (None, m1) -> hRead 1 m1 = (b :: bs, e, m2) ->
  hClose m2 = (None, m3) ->
  checkInit m = Ret None (if b =? 71 then snd (initDisp m3) else m3) /\
  trace m3 = trace m ++ [EvOpen (addr (disp m)); EvRead 1; EvClose] /\
  disp m3 = disp m.
Proof.
  intros Ho Hr Hc. unfold checkInit. rewrite Ho, Hr, Hc.
  apply openHandle_inv in Ho as [T1 D1].
  apply hRead_inv in Hr as [T2 D2].
  apply hClose_inv in Hc as [T3 D3].
  split; [|split].
  - unfold index. cbn [length nth_error Z.to_nat].
    replace ((0 <=? 0) && (0 <? Z.of_nat (S (length bs)))) with true
      by (symmetry; rewrite andb_true_iff, Z.leb_le, Z.ltb_lt; lia).
    now destruct (b =? 71).
  - rewrite T3, T2, T1, <- !app_assoc. reflexivity.
  - congruence.
Qed.

(** The probe when its close reports an error: [checkInit] returns that
    error from the state the close left, whatever the status read
    returned; the buffer is not looked at. *)
Lemma checkInit_close_error m m1 buffer e m2 ce m3 :
  openHandle m = (None, m1) -> hRead 1 m1 = (buffer, e, m2) ->
  hClose m2 = (Some ce, m3) ->
  checkInit m = Ret (Some ce) m3 /\
  trace m3 = trace m ++ [EvOpen (addr (disp m)); EvRead 1; EvClose] /\
  disp m3 = disp m.
Proof.
  intros Ho Hr Hc. unfold checkInit. rewrite Ho, Hr, Hc.
  apply openHandle_inv in Ho as [T1 D1].
  apply hRead_inv in Hr as [T2 D2].
  apply hClose_inv in Hc as [T3 D3].
  split; [reflexivity|]. split.
  - rewrite T3, T2, T1, <- !app_assoc. reflexivity.
  - congruence.
Qed.

(** A trace is not itself with more calls after it. *)
Lemma trace_not_longer (t : list event) (ev : event) (evs : list event) :
  t <> t ++ ev :: evs.
Proof.
  intros E. apply (f_equal (@length event)) in E.
  rewrite length_app in E. simpl in E. lia.
Qed.

(** C5, as the code has it.  When the probe's handle opens, [checkInit]
    has made exactly the calls open, read of one byte, close, whatever
    the read returned and whatever the close reports.  When the close
    reports no error and the read returned a byte [b], it runs
    [initDisp] if and only if [b] is 0x47, and the paged write of
    [writeBuf] follows from the state so reached.  When the close
    reports an error, [checkInit] returns that error from the state the
    close left, without looking at what was read, and [writeBuf] goes on
    to the paged write with no initialization in between.  So whenever
    [checkInit] returns, it has run [initDisp] if and only if the close
    reported no error and the byte read is 0x47. *)
Theorem checkInit_probe m m1 buffer e m2 cerr m3 :
  openHandle m = (None, m1) -> hRead 1 m1 = (buffer, e, m2) ->
  hClose m2 = (cerr, m3) ->
  let a := addr (disp m) in
  trace m3 = trace m ++ [EvOpen a; EvRead 1; EvClose] /\
  (forall b bs, cerr = None -> buffer = b :: bs ->
     let m4 := if b =? 71 then snd (initDisp m3) else m3 in
     checkInit m = Ret None m4 /\
     (b = 71 <-> exists evs, trace m4 = trace m3 ++ EvOpen a :: evs) /\
     (b = 71 -> forall m3', openHandle m3 = (None, m3') ->
                trace m4 = trace m3 ++ initTrace a) /\
     (b <> 71 -> m4 = m3) /\
     (forall buf m5, length buf = 1024%nat -> openHandle m4 = (None, m5) ->
        exists m6,
          writeBuf buf m = Ret None m6 /\
          trace m6 = trace m4 ++ [EvOpen a] ++ commitWrites buf ++ [EvClose])) /\
  (forall ce, cerr = Some ce ->
     checkInit m = Ret (Some ce) m3 /\
     (forall buf m5, length buf = 1024%nat -> openHandle m3 = (None, m5) ->
        exists m6,
          writeBuf buf m = Ret None m6 /\
          trace m6 = trace m3 ++ [EvOpen a] ++ commitWrites buf ++ [EvClose])) /\
  (forall r m4, checkInit m = Ret r m4 ->
     ((exists evs, trace m4 = trace m3 ++ EvOpen a :: evs) <->
      (cerr = None /\ exists bs, buffer = 71 :: bs))).
Proof.
  intros Ho Hr Hc a.
  assert (Byte : forall b bs, cerr = None -> buffer = b :: bs ->
            checkInit m = Ret None (if b =? 71 then snd (initDisp m3) else m3) /\
            trace m3 = trace m ++ [EvOpen a; EvRead 1; EvClose] /\
            disp m3 = disp m).
  { intros b bs -> ->. exact (checkInit_byte m m1 b bs e m2 m3 Ho Hr Hc). }
  assert (Grows : forall b bs, cerr = None -> buffer = b :: bs ->
            (b = 71 <->
             exists evs, trace (if b =? 71 then snd (initDisp m3) else m3)
                         = trace m3 ++ EvOpen a :: evs)).
  { intros b bs Hce Hb. destruct (Byte b bs Hce Hb) as (_ & _ & D).
    assert (Ha : addr (disp m3) = a) by (subst a; now rewrite D).
    split.
    - intros ->. change (71 =? 71) with true. cbv iota.
      rewrite <- Ha. apply initDisp_grows.
    - intros [evs E]. destruct (b =? 71) eqn:Eb; [now apply Z.eqb_eq|].
      exfalso. exact (trace_not_longer _ _ _ E). }
  split; [|split; [|split]].
  - destruct cerr as [ce|].
    + exact (proj1 (proj2 (checkInit_close_error m m1 buffer e m2 ce m3
                             Ho Hr Hc))).
    + unfold a. clear Byte Grows.
      apply openHandle_inv in Ho as [T1 D1].
      apply hRead_inv in Hr as [T2 D2].
      apply hClose_inv in Hc as [T3 D3].
      rewrite T3, T2, T1, <- !app_assoc. reflexivity.
  - intros b bs Hce Hb m4.
    destruct (Byte b bs Hce Hb) as (Hck & _ & D).
    assert (Ha : addr (disp m3) = a) by (subst a; now rewrite D).
    split; [exact Hck|]. split; [exact (Grows b bs Hce Hb)|].
    split; [|split].
    + intros -> m3' Ho3. subst m4. change (71 =? 71) with true. cbv iota.
      rewrite <- Ha. now apply initDisp_trace with m3'.
    + intros Hn. subst m4.
      now replace (b =? 71) with false by (symmetry; now apply Z.eqb_neq).
    + intros buf m5 Hlen Ho5.
      destruct (writeBuf_run buf m None m4 m5 Hlen Hck Ho5) as (m6 & E & T6 & _).
      exists m6. split; [exact E|exact T6].
  - intros ce ->.
    destruct (checkInit_close_error m m1 buffer e m2 ce m3 Ho Hr Hc)
      as (Hck & _ & _).
    split; [exact Hck|].
    intros buf m5 Hlen Ho5.
    destruct (writeBuf_run buf m (Some ce) m3 m5 Hlen Hck Ho5)
      as (m6 & E & T6 & _).
    exists m6. split; [exact E|exact T6].
  - intros r m4 Hck. destruct cerr as [ce|].
    + destruct (checkInit_close_error m m1 buffer e m2 ce m3 Ho Hr Hc)
        as (Hck' & _ & _).
      rewrite Hck' in Hck. injection Hck as _ <-.
      split.
      * intros [evs E]. exfalso. exact (trace_not_longer _ _ _ E).
      * intros [Hn _]. discriminate.
    + destruct buffer as [|b bs].
      * exfalso. unfold checkInit in Hck. rewrite Ho, Hr, Hc in Hck.
        discriminate.
      * destruct (Byte b bs eq_refl eq_refl) as (Hck' & _ & _).
        rewrite Hck' in Hck. injection Hck as _ <-.
        split.
        { intros Hev. split; [reflexivity|]. exists bs.
          now rewrite (proj2 (Grows b bs eq_refl eq_refl) Hev). }
        { intros [_ [bs' Hb]]. injection Hb as -> _.
          now apply (Grows 71 bs eq_refl eq_refl). }
Qed.

Lemma blank_length : length blank = 1024%nat.
Proof. apply repeat_length. Qed.

(** *** A bus that serves the driver *)

Section Serving.
Variable P : W -> Prop.
Hypothesis HP : serves P.

Lemma openHandle_serves m :
  P (world m) -> exists m1, openHandle m = (None, m1) /\ P (world m1).
Proof.
  intros Hw. unfold openHandle.
  destruct (serves_open P HP (addr (disp m)) (world m) Hw) as [E Hw'].
  destruct (OpenHandle _ _) as [e w]. simpl in *. subst e. eauto.
Qed.

Lemma hWrite_serves bs m : P (world m) -> P (world (snd (hWrite bs m))).
Proof.
  intros Hw. unfold hWrite.
  pose proof (serves_write P HP bs (world m) Hw) as Hw'.
  now destruct (Write _ _) as [e w].
Qed.

Lemma hClose_serves m : P (world m) -> P (world (snd (hClose m))).
Proof.
  intros Hw. unfold hClose.
  pose proof (serves_close P HP (world m) Hw) as Hw'.
  now destruct (Close _) as [e w].
Qed.

Lemma initDisp_serves m : P (world m) -> P (world (snd (initDisp m))).
Proof.
  intros Hw. unfold initDisp.
  destruct (openHandle_serves m Hw) as (m1 & -> & Hw1). simpl.
  apply hClose_serves, hWrite_serves. unfold sleep, step. simpl.
  now apply hWrite_serves, hWrite_serves.
Qed.

Lemma checkInit_serves m :
  P (world m) -> exists r m1, checkInit m = Ret r m1 /\ P (world m1).
Proof.
  intros Hw. unfold checkInit.
  destruct (openHandle_serves m Hw) as (m1 & -> & Hw1).
  unfold hRead.
  destruct (serves_read P HP 1 (world m1) Hw1) as [Hb Hw2].
  destruct (Read 1 (world m1)) as [[buffer e] w]. simpl in Hb, Hw2.
  match goal with
  | |- context [hClose ?m2] =>
      pose proof (hClose_serves m2 Hw2) as Hw3;
      destruct (hClose m2) as [[e'|] m3]; simpl in Hw3; [eauto|]
  end.
  destruct buffer as [|b bs]; [contradiction|].
  unfold index. cbn [length nth_error Z.to_nat].
  replace ((0 <=? 0) && (0 <? Z.of_nat (S (length bs)))) with true
    by (symmetry; rewrite andb_true_iff, Z.leb_le, Z.ltb_lt; lia).
  destruct (b =? 71); eauto using initDisp_serves.
Qed.

Lemma pageLoop_serves (buf : list Z) (n : nat) :
  forall reg iter m m',
    pageLoop n reg iter buf m = Ret tt m' -> P (world m) -> P (world m').
Proof.
  induction n as [|n IH]; intros reg iter m m'; cbn [pageLoop];
    [discriminate|].
  destruct (reg <=? 0xBF); [|intros E Hw; now injection E as <-].
  destruct (slice _ _ buf); [|discriminate].
  destruct (slice _ _ buf); [|discriminate].
  destruct (index _ buf); [|discriminate].
  destruct (index _ buf); [|discriminate].
  intros E Hw. apply IH in E; [exact E|].
  now repeat apply hWrite_serves.
Qed.

Lemma writeBuf_commits (buf : list Z) m :
  P (world m) -> length buf = 1024%nat ->
  exists m',
    writeBuf buf m = Ret None m' /\
    disp m' = {| addr := addr (disp m); current := buf |} /\
    P (world m').
Proof.
  intros Hw Hlen.
  destruct (checkInit_serves m Hw) as (r & m1 & Hc & Hw1).
  destruct (openHandle_serves m1 Hw1) as (m2 & Ho & Hw2).
  destruct (writeBuf_run buf m r m1 m2 Hlen Hc Ho) as (m3 & E & _ & D).
  exists m3. split; [exact E|]. split; [exact D|].
  unfold writeBuf in E. rewrite Hc, Ho in E.
  destruct (pageLoop 17 0xB0 0 buf m2) as [[] m'| |] eqn:El; try discriminate.
  injection E as <-.
  apply hClose_serves. unfold setCurrent. cbn [world].
  now apply (pageLoop_serves buf 17 0xB0 0 m2 m').
Qed.

Lemma DisplayBytes_returns (data : list Z) m :
  P (world m) -> exists m', DisplayBytes data m = Ret None m'.
Proof.
  intros Hw. unfold DisplayBytes.
  destruct (writeBuf_commits blank m Hw blank_length) as (m1 & -> & D1 & Hw1).
  rewrite D1. cbn [current]. rewrite blank_length, rangeCopy_repeat.
  destruct (writeBuf_commits (firstn 1024 data ++ repeat 0 (1024 - length data))
              m1 Hw1 (truncPad_length data)) as (m' & E & _).
  eauto.
Qed.

End Serving.

(** C2, as the code has it.  The results of [handle.Write] are dropped:
    on a bus that serves the driver (handles open, status reads return a
    byte), whatever [Write] and [Close] report, [writeBuf] returns [nil]
    and stores the buffer it was given, and so does each of the four
    public operations with its new buffer. *)
Theorem write_errors_ignored (P : W -> Prop) m :
  serves P -> P (world m) ->
  length (current (disp m)) = 1024%nat ->
  (forall buf, length buf = 1024%nat ->
     exists m', writeBuf buf m = Ret None m' /\ current (disp m') = buf) /\
  (forall data,
     exists m', DisplayBytes data m = Ret None m' /\
                current (disp m') = truncPad data) /\
  (forall fuel x y text new,
     writeString fuel x y text (current (disp m)) = Done new ->
     exists m', WriteString fuel x y text m = Ret None m' /\
                current (disp m') = new) /\
  (forall fuel x1 y1 x2 y2 new,
     writeLine fuel x1 y1 x2 y2 (current (disp m)) = Done new ->
     exists m', DrawLine fuel x1 y1 x2 y2 m = Ret None m' /\
                current (disp m') = new) /\
  (exists m', Reset m = Ret None m' /\ current (disp m') = blank).
Proof.
  intros HP Hw Hcur.
  assert (Hwb : forall buf m0, P (world m0) -> length buf = 1024%nat ->
            exists m', writeBuf buf m0 = Ret None m' /\
                       current (disp m') = buf).
  { intros buf m0 Hw0 Hlen.
    destruct (writeBuf_commits P HP buf m0 Hw0 Hlen) as (m' & E & D & _).
    exists m'. split; [exact E|]. now rewrite D. }
  split; [intros buf; now apply Hwb|].
  split; [|split; [|split]].
  - intros data. unfold DisplayBytes.
    destruct (writeBuf_commits P HP blank m Hw blank_length)
      as (m1 & -> & D1 & Hw1).
    rewrite D1. cbn [current]. rewrite blank_length, rangeCopy_repeat.
    apply Hwb; [exact Hw1 | apply truncPad_length].
  - intros fuel x y text new E. unfold WriteString. rewrite E.
    apply Hwb; [exact Hw|].
    rewrite <- Hcur. now apply (writeString_inv fuel text x y).
  - intros fuel x1 y1 x2 y2 new E. unfold DrawLine. rewrite E.
    apply Hwb; [exact Hw|].
    rewrite <- Hcur. now apply writeLine_length in E.
  - unfold Reset. apply Hwb; [|apply blank_length].
    now apply initDisp_serves.
Qed.

(** C6. A [DisplayBytes] that returns [nil] has stored, and written to
    the device, the input cut to 1024 bytes and filled up with zeros;
    on a bus that serves the driver (handles open, status reads return a
    byte) it does return [nil].  For 2000 bytes of input only the first 1024
    count; for 10 bytes, bytes 10 .. 1023 are zero. *)
Theorem DisplayBytes_truncPad (data : list Z) m :
  length (current (disp m)) = 1024%nat ->
  (forall m', DisplayBytes data m = Ret None m' ->
     current (disp m') = truncPad data /\
     exists t, trace m' = t ++ [EvOpen (addr (disp m))]
                          ++ commitWrites (truncPad data) ++ [EvClose]) /\
  (forall P : W -> Prop, serves P -> P (world m) ->
   exists m', DisplayBytes data m = Ret None m') /\
  (forall data', length data = 2000%nat -> length data' = 2000%nat ->
     firstn 1024 data' = firstn 1024 data -> truncPad data' = truncPad data) /\
  (length data = 10%nat ->
     truncPad data = data ++ repeat 0 1014 /\
     forall i, (10 <= i < 1024)%nat -> nth i (truncPad data) 0 = 0).
Proof.
  intros Hcur. split; [|split; [|split]].
  - intros m' E. unfold DisplayBytes in E.
    pose proof (writeBuf_inv blank m blank_length) as I1.
    destruct (writeBuf blank m) as [r m1 | m1 |]; try discriminate.
    assert (L1 : length (current (disp m1)) = 1024%nat /\
                 addr (disp m1) = addr (disp m)).
    { destruct r as [e|].
      - now rewrite I1.
      - destruct I1 as [-> _]. split; [apply blank_length | reflexivity]. }
    destruct L1 as [L1 A1].
    rewrite L1, rangeCopy_repeat in E. fold (truncPad data) in E.
    pose proof (writeBuf_inv (truncPad data) m1 (truncPad_length data)) as I2.
    rewrite E in I2. destruct I2 as [D2 [t T2]].
    split; [now rewrite D2|]. exists t. now rewrite <- A1.
  - intros P HP Hw. now apply (DisplayBytes_returns P HP).
  - intros data' L L' E. unfold truncPad. now rewrite E, L, L'.
  - intros L.
    assert (E : truncPad data = data ++ repeat 0 1014).
    { unfold truncPad. rewrite L.
      rewrite firstn_all2 by lia. reflexivity. }
    split; [exact E|]. intros i Hi. rewrite E.
    rewrite app_nth2 by lia. rewrite L.
    apply nth_repeat.
Qed.

(** *** The stored framebuffer keeps its 1024 bytes *)

Lemma writeBuf_keeps_length (buf : list Z) m r m' :
  length buf = 1024%nat -> length (current (disp m)) = 1024%nat ->
  writeBuf buf m = Ret r m' -> length (current (disp m')) = 1024%nat.
Proof.
  intros Hlen Hcur E.
  pose proof (writeBuf_inv buf m Hlen) as I. rewrite E in I.
  destruct r as [e|]; [now rewrite I | now destruct I as [-> _]].
Qed.

(** The driver starts from [blank()], and no operation that returns
    changes the length of the stored framebuffer. *)
Lemma operations_keep_length m :
  length (current (disp m)) = 1024%nat ->
  (forall data r m', DisplayBytes data m = Ret r m' ->
     length (current (disp m')) = 1024%nat) /\
  (forall fuel x y text r m', WriteString fuel x y text m = Ret r m' ->
     length (current (disp m')) = 1024%nat) /\
  (forall fuel x1 y1 x2 y2 r m', DrawLine fuel x1 y1 x2 y2 m = Ret r m' ->
     length (current (disp m')) = 1024%nat) /\
  (forall r m', Reset m = Ret r m' -> length (current (disp m')) = 1024%nat).
Proof.
  intros Hcur. split; [|split; [|split]].
  - intros data r m' E. unfold DisplayBytes in E.
    destruct (writeBuf blank m) as [r1 m1 | m1 |] eqn:E1; try discriminate.
    pose proof (writeBuf_keeps_length blank m r1 m1 blank_length Hcur E1) as L1.
    rewrite L1, rangeCopy_repeat in E.
    exact (writeBuf_keeps_length _ m1 r m' (truncPad_length data) L1 E).
  - intros fuel x y text r m' E. unfold WriteString in E.
    destruct (writeString fuel x y text (current (disp m))) as [new| |] eqn:Es;
      try discriminate.
    apply (writeString_inv fuel text x y) in Es.
    apply (writeBuf_keeps_length new m r m'); congruence.
  - intros fuel x1 y1 x2 y2 r m' E. unfold DrawLine in E.
    destruct (writeLine fuel x1 y1 x2 y2 (current (disp m))) as [new| |] eqn:El;
      try discriminate.
    apply writeLine_length in El.
    apply (writeBuf_keeps_length new m r m'); congruence.
  - intros r m' E. unfold Reset in E.
    apply (writeBuf_keeps_length blank (snd (initDisp m)) r m');
      [apply blank_length | now rewrite initDisp_disp | exact E].
Qed.

(** *** The probe without a status byte *)

Lemma checkInit_faults m :
  probeReadsNothing m -> exists m3, checkInit m = Fault m3.
Proof.
  intros (m1 & e & m2 & m3 & Ho & Hr & Hc).
  exists m3. unfold checkInit. now rewrite Ho, Hr, Hc.
Qed.

Lemma writeBuf_faults (buf : list Z) m :
  probeReadsNothing m -> faults (writeBuf buf m).
Proof.
  intros Hp. destruct (checkInit_faults m Hp) as (m3 & E).
  exists m3. unfold writeBuf. now rewrite E.
Qed.

(** Once the probe has returned, [writeBuf] on a 1024-byte buffer
    returns too: with the error of its own open, or with [nil]. *)
Lemma writeBuf_after_probe (buf : list Z) m r m1 :
  length buf = 1024%nat -> checkInit m = Ret r m1 ->
  exists r' m', writeBuf buf m = Ret r' m'.
Proof.
  intros Hlen Hck.
  destruct (openHandle m1) as [[e'|] m2] eqn:Ho.
  - unfold writeBuf. rewrite Hck, Ho. eauto.
  - destruct (writeBuf_run buf m r m1 m2 Hlen Hck Ho) as (m3 & E & _).
    eauto.
Qed.

(** C10, as the code has it.  [checkInit] drops the error of the status
    read and indexes element 0 of its result, but only after a close
    that reported no error.  When the probe's handle opens, the probe
    faults if and only if the read returned an empty buffer and the
    close reported no error.  In that case that index is out of range:
    [writeBuf] faults, and with it every public operation at its first
    [writeBuf]; none of them returns to its caller.  ([WriteString] and
    [DrawLine] get there once their drawing has finished: with fuel
    above [2 ^ 64], and for [DrawLine] for endpoints below the largest
    int.)  When the close reports an error, whatever the read returned,
    [checkInit] returns that error from the state the close left, before
    it would index the buffer: nothing faults, and [writeBuf] on a
    1024-byte buffer returns. *)
Theorem probe_without_status_faults m m1 buffer e m2 cerr m3 :
  openHandle m = (None, m1) -> hRead 1 m1 = (buffer, e, m2) ->
  hClose m2 = (cerr, m3) ->
  (faults (checkInit m) <-> cerr = None /\ buffer = []) /\
  (cerr = None -> buffer = [] ->
   (forall buf, faults (writeBuf buf m)) /\
   (forall data, faults (DisplayBytes data m)) /\
   (forall fuel x y text,
      2 ^ 64 < Z.of_nat fuel -> faults (WriteString fuel x y text m)) /\
   (forall fuel x1 y1 x2 y2,
      is_int x1 -> is_int y1 -> is_int x2 -> is_int y2 ->
      x1 < int_max -> y1 < int_max -> x2 < int_max -> y2 < int_max ->
      length (current (disp m)) = 1024%nat -> 2 ^ 65 <= Z.of_nat fuel ->
      faults (DrawLine fuel x1 y1 x2 y2 m)) /\
   (forall fuel x y text r m', WriteString fuel x y text m <> Ret r m') /\
   (forall fuel x1 y1 x2 y2 r m', DrawLine fuel x1 y1 x2 y2 m <> Ret r m') /\
   (forall m0, snd (initDisp m0) = m -> faults (Reset m0))) /\
  (forall ce, cerr = Some ce ->
     checkInit m = Ret (Some ce) m3 /\
     trace m3 = trace m ++ [EvOpen (addr (disp m)); EvRead 1; EvClose] /\
     (forall buf, length buf = 1024%nat ->
        exists r m', writeBuf buf m = Ret r m')).
Proof.
  intros Ho Hr Hc.
  split; [|split].
  - split.
    + intros [mf Hf]. destruct cerr as [ce|].
      * destruct (checkInit_close_error m m1 buffer e m2 ce m3 Ho Hr Hc)
          as (Hck & _). congruence.
      * split; [reflexivity|]. destruct buffer as [|b bs]; [reflexivity|].
        destruct (checkInit_byte m m1 b bs e m2 m3 Ho Hr Hc) as (Hck & _).
        congruence.
    + intros [-> ->]. destruct (checkInit_faults m) as (mf & Hf).
      * exists m1, e, m2, m3. auto.
      * now exists mf.
  - intros -> ->.
    assert (Hp : probeReadsNothing m) by (exists m1, e, m2, m3; auto).
    pose proof (fun buf => writeBuf_faults buf m Hp) as Hwb.
    split; [exact Hwb|].
    split; [|split; [|split; [|split; [|split]]]].
    + intros data. unfold DisplayBytes.
      destruct (Hwb blank) as (mf & ->). now exists mf.
    + intros fuel x y text Hf. unfold WriteString.
      destruct (writeString_inv fuel text x y (current (disp m))) as [Hnf _].
      destruct (writeString fuel x y text (current (disp m))) as [new| |].
      * apply Hwb.
      * now exists m.
      * now specialize (Hnf Hf).
    + intros fuel x1 y1 x2 y2 ? ? ? ? ? ? ? ? Hlen Hf. unfold DrawLine.
      destruct (writeLine_ok fuel x1 y1 x2 y2 (current (disp m)))
        as (new & -> & _); try assumption.
      apply Hwb.
    + intros fuel x y text r m' E. unfold WriteString in E.
      destruct (writeString fuel x y text (current (disp m))) as [new| |];
        try discriminate.
      destruct (Hwb new) as (mf & E3). congruence.
    + intros fuel x1 y1 x2 y2 r m' E. unfold DrawLine in E.
      destruct (writeLine fuel x1 y1 x2 y2 (current (disp m))) as [new| |];
        try discriminate.
      destruct (Hwb new) as (mf & E3). congruence.
    + intros m0 <-. unfold Reset. apply Hwb.
  - intros ce ->.
    destruct (checkInit_close_error m m1 buffer e m2 ce m3 Ho Hr Hc)
      as (Hck & T & _).
    split; [exact Hck|]. split; [exact T|].
    intros buf Hlen. exact (writeBuf_after_probe buf m (Some ce) m3 Hlen Hck).
Qed.

End DriverProofs.

(* ------------------------------------------------------------------ *)
(** ** The driver on the simulated buses *)

Lemma writeBuf_page_writes_witness :
  (exists m3,
     writeBuf (upd 5 32 blank) (simMachine healthy blank) = Ret None m3 /\
     trace m3 = [EvOpen 0x3C; EvRead 1; EvClose] ++ [EvOpen 0x3C]
                ++ commitWrites (upd 5 32 blank) ++ [EvClose]) /\
  (forall p, (p < 16)%nat ->
     exists c1 c2 c3,
       pageWrites (upd 5 32 blank) p
       = [ EvWrite [0x00; 0xB0 + Z.of_nat p; 0x10; 0x00];
           EvWrite (0x40 :: c1); EvWrite (0x40 :: c2); EvWrite (0x40 :: c3) ] /\
       length c1 = 31%nat /\ length c2 = 31%nat /\ length c3 = 2%nat /\
       c1 ++ c2 ++ c3 = firstn 64 (skipn (64 * p) (upd 5 32 blank))).
Proof.
  apply (writeBuf_page_writes (W := Sim) (upd 5 32 blank)
           (simMachine healthy blank) None
           (logged [EvOpen 0x3C; EvRead 1; EvClose] (simMachine healthy blank))
           (logged [EvOpen 0x3C; EvRead 1; EvClose; EvOpen 0x3C]
              (simMachine healthy blank)));
    reflexivity.
Defined.

(** The first page of that commit, as it goes over the bus. *)
Example commitWrites_first_page :
  firstn 4 (commitWrites (upd 5 32 blank))
  = [ EvWrite [0; 176; 16; 0];
      EvWrite (64 :: [0; 0; 0; 0; 0; 32] ++ repeat 0 25);
      EvWrite (64 :: repeat 0 31);
      EvWrite [64; 0; 0] ].
Proof. vm_compute. reflexivity. Qed.

Lemma checkInit_probe_witness :
  (let m := simMachine resetSeen blank in
   let m3 := logged [EvOpen 0x3C; EvRead 1; EvClose] m in
   checkInit m = Ret None (snd (initDisp m3)) /\
   trace (snd (initDisp m3)) = trace m3 ++ initTrace 0x3C) /\
  (let m := simMachine resetSeenCloseFails blank in
   let m3 := logged [EvOpen 0x3C; EvRead 1; EvClose] m in
   checkInit m = Ret (Some (Err 4)) m3 /\
   exists m6,
     writeBuf (upd 5 32 blank) m = Ret None m6 /\
     trace m6 = trace m3 ++ [EvOpen 0x3C] ++ commitWrites (upd 5 32 blank)
                ++ [EvClose]).
Proof.
  split.
  - intros m m3.
    pose proof (checkInit_probe (W := Sim) m (logged [EvOpen 0x3C] m) [71]
                  None (logged [EvOpen 0x3C; EvRead 1] m) None m3
                  eq_refl eq_refl eq_refl) as P.
    cbv zeta in P. destruct P as (_ & Hb & _).
    destruct (Hb 71 [] eq_refl eq_refl) as (Hc & _ & Hi & _).
    split; [exact Hc|].
    exact (Hi eq_refl (logged [EvOpen 0x3C] m3) eq_refl).
  - intros m m3.
    pose proof (checkInit_probe (W := Sim) m (logged [EvOpen 0x3C] m) [71]
                  None (logged [EvOpen 0x3C; EvRead 1] m) (Some (Err 4)) m3
                  eq_refl eq_refl eq_refl) as P.
    cbv zeta in P. destruct P as (_ & _ & He & _).
    destruct (He (Err 4) eq_refl) as (Hc & Hw).
    split; [exact Hc|].
    exact (Hw (upd 5 32 blank) (logged [EvOpen 0x3C] m3) eq_refl eq_refl).
Defined.

(** C5, as the spec words it, fails when the probe's close reports an
    error: the status read returns 0x47, yet no initialization is run and
    the paged write goes ahead. *)
Lemma probe_close_error_skips_init :
  hRead 1 (logged [EvOpen 0x3C] (simMachine resetSeenCloseFails blank))
  = ([71], None,
     logged [EvOpen 0x3C; EvRead 1] (simMachine resetSeenCloseFails blank)) /\
  exists m',
    writeBuf blank (simMachine resetSeenCloseFails blank) = Ret None m' /\
    trace m' = [EvOpen 0x3C; EvRead 1; EvClose; EvOpen 0x3C]
               ++ commitWrites blank ++ [EvClose].
Proof.
  split; [reflexivity|].
  eexists. split; vm_compute; reflexivity.
Qed.

Lemma answering_serves : serves answering.
Proof.
  constructor; unfold answering; simpl.
  - intros a w [-> Hs]. now split.
  - intros n w [Ho Hs]. now split.
  - intros bs w Hw. exact Hw.
  - intros w Hw. exact Hw.
Qed.

Lemma write_errors_ignored_witness :
  (forall buf, length buf = 1024%nat ->
     exists m', writeBuf buf (simMachine deaf blank) = Ret None m' /\
                current (disp m') = buf) /\
  (forall data,
     exists m', DisplayBytes data (simMachine deaf blank) = Ret None m' /\
                current (disp m') = truncPad data) /\
  (forall fuel x y text new,
     writeString fuel x y text (current (disp (simMachine deaf blank))) = Done new ->
     exists m', WriteString fuel x y text (simMachine deaf blank) = Ret None m' /\
                current (disp m') = new) /\
  (forall fuel x1 y1 x2 y2 new,
     writeLine fuel x1 y1 x2 y2 (current (disp (simMachine deaf blank))) = Done new ->
     exists m', DrawLine fuel x1 y1 x2 y2 (simMachine deaf blank) = Ret None m' /\
                current (disp m') = new) /\
  (exists m', Reset (simMachine deaf blank) = Ret None m' /\
              current (disp m') = blank).
Proof.
  apply (write_errors_ignored (W := Sim) answering (simMachine deaf blank)).
  - exact answering_serves.
  - split; [reflexivity | discriminate].
  - reflexivity.
Defined.

(** C2, as the spec words it, fails: on a device on which every write
    reports an error, [DrawLine] returns [nil] and the stored framebuffer
    is no longer the one committed before. *)
Lemma failed_writes_change_framebuffer :
  (fst (Write [0; 176; 16; 0] deaf) = Some (Err 3)) /\
  exists m',
    DrawLine 8 0 0 3 0 (simMachine deaf blank) = Ret None m' /\
    current (disp m') = [15] ++ repeat 0 1023 /\
    current (disp m') <> current (disp (simMachine deaf blank)).
Proof.
  split; [reflexivity|].
  eexists. split; [vm_compute; reflexivity|].
  split; [vm_compute; reflexivity|].
  intros E. apply (f_equal (fun l => nth 0 l 0)) in E.
  vm_compute in E. discriminate.
Qed.

Lemma DisplayBytes_truncPad_witness :
  (forall m', DisplayBytes [7; 8; 9] (simMachine healthy blank) = Ret None m' ->
     current (disp m') = truncPad [7; 8; 9] /\
     exists t, trace m' = t ++ [EvOpen 0x3C]
                          ++ commitWrites (truncPad [7; 8; 9]) ++ [EvClose]) /\
  (exists m', DisplayBytes [7; 8; 9] (simMachine healthy blank) = Ret None m').
Proof.
  destruct (DisplayBytes_truncPad (W := Sim) [7; 8; 9]
              (simMachine healthy blank) eq_refl) as (Hc & Hr & _).
  split; [exact Hc|].
  apply (Hr answering answering_serves).
  split; [reflexivity | discriminate].
Defined.

(** [DisplayBytes] run on the simulated device: it returns [nil] and the
    stored buffer is the input followed by zeros. *)
Example DisplayBytes_7_8_9 :
  exists m',
    DisplayBytes [7; 8; 9] (simMachine healthy blank) = Ret None m' /\
    current (disp m') = [7; 8; 9] ++ repeat 0 1021.
Proof. eexists. split; vm_compute; reflexivity. Qed.

Lemma probe_without_status_faults_witness :
  ((forall buf, faults (writeBuf buf (simMachine mute blank))) /\
   (forall data, faults (DisplayBytes data (simMachine mute blank))) /\
   (forall fuel x y text,
      2 ^ 64 < Z.of_nat fuel ->
      faults (WriteString fuel x y text (simMachine mute blank))) /\
   (forall fuel x1 y1 x2 y2,
      is_int x1 -> is_int y1 -> is_int x2 -> is_int y2 ->
      x1 < int_max -> y1 < int_max -> x2 < int_max -> y2 < int_max ->
      length (current (disp (simMachine mute blank))) = 1024%nat ->
      2 ^ 65 <= Z.of_nat fuel ->
      faults (DrawLine fuel x1 y1 x2 y2 (simMachine mute blank))) /\
   (forall fuel x y text r m',
      WriteString fuel x y text (simMachine mute blank) <> Ret r m') /\
   (forall fuel x1 y1 x2 y2 r m',
      DrawLine fuel x1 y1 x2 y2 (simMachine mute blank) <> Ret r m') /\
   (forall m0, snd (initDisp m0) = simMachine mute blank -> faults (Reset m0))) /\
  (checkInit (simMachine muteCloseFails blank)
   = Ret (Some (Err 4))
       (logged [EvOpen 0x3C; EvRead 1; EvClose]
          (simMachine muteCloseFails blank)) /\
   ~ faults (checkInit (simMachine muteCloseFails blank)) /\
   exists r m', writeBuf (upd 5 32 blank) (simMachine muteCloseFails blank)
                = Ret r m').
Proof.
  split.
  - pose proof (probe_without_status_faults (W := Sim)
                  (simMachine mute blank)
                  (logged [EvOpen 0x3C] (simMachine mute blank)) []
                  (Some (Err 2))
                  (logged [EvOpen 0x3C; EvRead 1] (simMachine mute blank))
                  None
                  (logged [EvOpen 0x3C; EvRead 1; EvClose]
                     (simMachine mute blank))
                  eq_refl eq_refl eq_refl) as (_ & Hf & _).
    exact (Hf eq_refl eq_refl).
  - pose proof (probe_without_status_faults (W := Sim)
                  (simMachine muteCloseFails blank)
                  (logged [EvOpen 0x3C] (simMachine muteCloseFails blank)) []
                  (Some (Err 2))
                  (logged [EvOpen 0x3C; EvRead 1]
                     (simMachine muteCloseFails blank))
                  (Some (Err 4))
                  (logged [EvOpen 0x3C; EvRead 1; EvClose]
                     (simMachine muteCloseFails blank))
                  eq_refl eq_refl eq_refl) as (Hiff & _ & He).
    destruct (He (Err 4) eq_refl) as (Hc & _ & Hw).
    split; [exact Hc|]. split.
    + intros Hf. apply Hiff in Hf. destruct Hf as [Hn _]. discriminate.
    + exact (Hw (upd 5 32 blank) eq_refl).
Defined.

(** The four operations run on the mute device: each one faults. *)
Example mute_device_faults :
  faults (DisplayBytes [1; 2; 3] (simMachine mute blank)) /\
  faults (WriteString 8 0 20 [72; 105] (simMachine mute blank)) /\
  faults (DrawLine 8 0 0 3 0 (simMachine mute blank)) /\
  faults (Reset (simMachine mute blank)).
Proof. repeat split; eexists; vm_compute; reflexivity. Qed.

(** C10, as it is worded, fails when the probe's close reports an error:
    the status read returns nothing, [checkInit] returns the close error
    before it looks at the buffer, and [DisplayBytes] returns [nil]. *)
Lemma probe_close_error_hides_fault :
  hRead 1 (logged [EvOpen 0x3C] (simMachine muteCloseFails blank))
  = ([], Some (Err 2),
     logged [EvOpen 0x3C; EvRead 1] (simMachine muteCloseFails blank)) /\
  checkInit (simMachine muteCloseFails blank)
  = Ret (Some (Err 4))
      (logged [EvOpen 0x3C; EvRead 1; EvClose] (simMachine muteCloseFails blank)) /\
  exists m',
    DisplayBytes [1; 2; 3] (simMachine muteCloseFails blank) = Ret None m' /\
    current (disp m') = truncPad [1; 2; 3].
Proof.
  split; [reflexivity|].
  split; [reflexivity|].
  eexists. split; vm_compute; reflexivity.
Qed.

(* ================================================================== *)
(** * Further properties of the drawing code *)

(* ------------------------------------------------------------------ *)
(** ** One pixel *)

Lemma nth_upd (i j : nat) (v : Z) (l : list Z) :
  nth j (upd i v l) 0
  = if (j =? i)%nat && (i <? length l)%nat then v else nth j l 0.
Proof.
  revert i j. induction l as [|h t IH]; intros i j.
  - destruct i, j; simpl; rewrite ?andb_false_r; reflexivity.
  - destruct i as [|i], j as [|j]; simpl; try reflexivity.
    rewrite IH. reflexivity.
Qed.

Lemma upd_upd (i : nat) (v w : Z) (l : list Z) :
  upd i w (upd i v l) = upd i w l.
Proof.
  revert i. induction l as [|h t IH]; intros [|i]; simpl; try reflexivity.
  now rewrite IH.
Qed.

Lemma upd_comm (i j : nat) (v w : Z) (l : list Z) :
  i <> j -> upd i v (upd j w l) = upd j w (upd i v l).
Proof.
  revert i j. induction l as [|h t IH]; intros [|i] [|j] Hij; simpl;
    try reflexivity; try congruence.
  rewrite IH; [reflexivity | congruence].
Qed.

Lemma land_7 (a : Z) : Z.land a 7 = a mod 8.
Proof. change 7 with (Z.ones 3). now rewrite Z.land_ones by lia. Qed.

Lemma testbit_bit (b k : Z) :
  0 <= b -> 0 <= k -> Z.testbit (Z.shiftl 1 b) k = (k =? b).
Proof.
  intros Hb Hk. rewrite Z.shiftl_spec by assumption.
  destruct (Z.eqb_spec k b) as [->|Hne].
  - now rewrite Z.sub_diag.
  - destruct (Z.lt_ge_cases k b).
    + apply Z.testbit_neg_r. lia.
    + replace (k - b) with (Z.succ (k - b - 1)) by lia.
      change 1 with (2 * 0 + 1) at 1.
      rewrite Z.testbit_odd_succ by lia. apply Z.testbit_0_l.
Qed.

Lemma wrapX_range (y : Z) : 0 <= wrapX y < 64.
Proof. unfold wrapX. apply Z.mod_pos_bound. lia. Qed.

Lemma wrapY_range (x : Z) : 0 <= wrapY x < 128.
Proof. unfold wrapY. apply Z.mod_pos_bound. lia. Qed.

(** The packing is one-to-one: two coordinates address the same bit of
    the same byte exactly when they name the same pixel. *)
Lemma samePixel_bit (x y x' y' : Z) :
  samePixel x y x' y'
  = (bufIndex x' y' =? bufIndex x y)
    && (Z.land (wrapY x') 7 =? Z.land (wrapY x) 7).
Proof.
  unfold samePixel, bufIndex. rewrite !land_7.
  pose proof (wrapX_range y). pose proof (wrapX_range y').
  pose proof (wrapY_range x). pose proof (wrapY_range x').
  destruct (Z.eqb_spec (wrapY x') (wrapY x)) as [Ey|Ny];
    destruct (Z.eqb_spec (wrapX y') (wrapX y)) as [Ex|Nx]; simpl.
  - rewrite Ey, Ex, !Z.eqb_refl. reflexivity.
  - rewrite Ey. symmetry. apply andb_false_iff. left. apply Z.eqb_neq. lia.
  - rewrite Ex. symmetry. apply andb_false_iff.
    destruct (Z.eqb_spec (wrapY x' mod 8) (wrapY x mod 8)) as [Em|Nm];
      [left | now right].
    apply Z.eqb_neq. intros E. apply Ny.
    rewrite (Z.div_mod (wrapY x') 8), (Z.div_mod (wrapY x) 8) by lia. lia.
  - symmetry. apply andb_false_iff.
    destruct (Z.eqb_spec (wrapY x' mod 8) (wrapY x mod 8)) as [Em|Nm];
      [left | now right].
    apply Z.eqb_neq. intros E. apply Nx.
    assert (wrapY x' / 8 = wrapY x / 8); [|lia].
    Z.div_mod_to_equations. lia.
Qed.

(** The effect of the store of [writePixel] on what [pixelOn] reads. *)
Lemma orAt_pixel (x y : Z) (buf : list Z) :
  length buf = 1024%nat ->
  exists buf',
    orAt (bufIndex x y) (Z.shiftl 1 (Z.land (wrapY x) 7)) buf = Done buf' /\
    length buf' = 1024%nat /\
    forall x' y', pixelOn x' y' buf' = pixelOn x' y' buf || samePixel x y x' y'.
Proof.
  intros Hlen. pose proof (bufIndex_range x y) as Hr.
  unfold orAt.
  replace ((0 <=? bufIndex x y) && (bufIndex x y <? Z.of_nat (length buf)))
    with true
    by (symmetry; rewrite Hlen, andb_true_iff, Z.leb_le, Z.ltb_lt; lia).
  eexists. split; [reflexivity|]. split; [now rewrite upd_length|].
  intros x' y'. unfold pixelOn. rewrite nth_upd, samePixel_bit.
  pose proof (bufIndex_range x' y') as Hr'.
  pose proof (wrapY_range x). pose proof (wrapY_range x').
  assert (Hb : 0 <= Z.land (wrapY x) 7) by (rewrite land_7; apply Z.mod_pos_bound; lia).
  assert (Hb' : 0 <= Z.land (wrapY x') 7) by (rewrite land_7; apply Z.mod_pos_bound; lia).
  replace (Z.to_nat (bufIndex x y) <? length buf)%nat with true
    by (symmetry; apply Nat.ltb_lt; lia).
  rewrite andb_true_r.
  destruct (Z.eqb_spec (bufIndex x' y') (bufIndex x y)) as [E|N].
  - rewrite E, Nat.eqb_refl, Z.lor_spec, testbit_bit by assumption.
    reflexivity.
  - replace (Z.to_nat (bufIndex x' y') =? Z.to_nat (bufIndex x y))%nat
      with false by (symmetry; apply Nat.eqb_neq; lia).
    simpl. now rewrite orb_false_r.
Qed.

(** X1. On a 1024-byte buffer [writePixel] turns on the pixel it is given
    and changes no other: afterwards a coordinate reads lit exactly when
    it read lit before or names the same pixel (equal modulo 128 in [x]
    and modulo 64 in [y]). *)
Theorem writePixel_lights_one_pixel (fuel : nat) (x y : Z) (buf : list Z) :
  is_int x -> is_int y -> length buf = 1024%nat ->
  Z.abs x + Z.abs y < Z.of_nat fuel ->
  exists buf',
    writePixel fuel x y buf = Done buf' /\
    forall x' y', pixelOn x' y' buf' = pixelOn x' y' buf || samePixel x y x' y'.
Proof.
  intros Hx Hy Hlen Hf. rewrite writePixel_done by assumption.
  destruct (orAt_pixel x y buf Hlen) as (buf' & E & _ & P). eauto.
Qed.

Lemma writePixel_lights_one_pixel_witness :
  exists buf',
    writePixel 300 (-130) 70 blank = Done buf' /\
    forall x' y',
      pixelOn x' y' buf' = pixelOn x' y' blank || samePixel (-130) 70 x' y'.
Proof.
  apply (writePixel_lights_one_pixel 300 (-130) 70 blank);
    try (unfold is_int, int_min, int_max; lia); reflexivity.
Defined.

Lemma orAt_twice (idx mask : Z) (buf b : list Z) :
  orAt idx mask buf = Done b -> orAt idx mask b = Done b.
Proof.
  unfold orAt. destruct ((0 <=? idx) && (idx <? Z.of_nat (length buf))) eqn:E;
    [|discriminate].
  intros Eb. injection Eb as <-.
  rewrite upd_length, E, nth_upd, Nat.eqb_refl, upd_upd.
  apply andb_true_iff in E as [E0 E1].
  apply Z.leb_le in E0. apply Z.ltb_lt in E1.
  replace (Z.to_nat idx <? length buf)%nat with true
    by (symmetry; apply Nat.ltb_lt; lia).
  simpl. do 2 f_equal.
  now rewrite <- Z.lor_assoc, Z.lor_diag.
Qed.

(** X2. [writePixel] is idempotent: on the buffer it returned, the same
    call returns that buffer again. *)
Theorem writePixel_idempotent (fuel : nat) (x y : Z) (buf b : list Z) :
  writePixel fuel x y buf = Done b -> writePixel fuel x y b = Done b.
Proof.
  unfold writePixel. destruct (pixelIndex fuel x y) as [p| |]; simpl;
    try discriminate.
  apply orAt_twice.
Qed.

Lemma writePixel_idempotent_witness :
  writePixel 8 5 5 (upd 5 32 blank) = Done (upd 5 32 blank).
Proof.
  apply (writePixel_idempotent 8 5 5 blank (upd 5 32 blank)).
  vm_compute. reflexivity.
Defined.

Lemma orAt_comm (i1 m1 i2 m2 : Z) (buf : list Z) :
  (b <- orAt i1 m1 buf ;; orAt i2 m2 b) = (b <- orAt i2 m2 buf ;; orAt i1 m1 b).
Proof.
  unfold orAt.
  destruct ((0 <=? i1) && (i1 <? Z.of_nat (length buf))) eqn:E1;
    destruct ((0 <=? i2) && (i2 <? Z.of_nat (length buf))) eqn:E2;
    simpl; rewrite ?upd_length, ?E1, ?E2; try reflexivity.
  apply andb_true_iff in E1 as [A1 B1]. apply andb_true_iff in E2 as [A2 B2].
  apply Z.leb_le in A1, A2. apply Z.ltb_lt in B1, B2.
  f_equal. rewrite !nth_upd.
  replace (Z.to_nat i1 <? length buf)%nat with true
    by (symmetry; apply Nat.ltb_lt; lia).
  replace (Z.to_nat i2 <? length buf)%nat with true
    by (symmetry; apply Nat.ltb_lt; lia).
  rewrite !andb_true_r.
  destruct (Z.eq_dec i1 i2) as [->|Hne].
  - rewrite Nat.eqb_refl, !upd_upd. f_equal.
    rewrite <- !Z.lor_assoc. f_equal. apply Z.lor_comm.
  - replace (Z.to_nat i2 =? Z.to_nat i1)%nat with false
      by (symmetry; apply Nat.eqb_neq; lia).
    replace (Z.to_nat i1 =? Z.to_nat i2)%nat with false
      by (symmetry; apply Nat.eqb_neq; lia).
    apply upd_comm. lia.
Qed.

(** X3. Two [writePixel] calls give the same result in either order. *)
Theorem writePixel_order (fuel : nat) (x1 y1 x2 y2 : Z) (buf : list Z) :
  is_int x1 -> is_int y1 -> is_int x2 -> is_int y2 ->
  Z.abs x1 + Z.abs y1 < Z.of_nat fuel -> Z.abs x2 + Z.abs y2 < Z.of_nat fuel ->
  (b <- writePixel fuel x1 y1 buf ;; writePixel fuel x2 y2 b)
  = (b <- writePixel fuel x2 y2 buf ;; writePixel fuel x1 y1 b).
Proof.
  intros Hx1 Hy1 Hx2 Hy2 Hf1 Hf2.
  rewrite (writePixel_done fuel x1 y1 buf), (writePixel_done fuel x2 y2 buf)
    by assumption.
  transitivity (b <- orAt (bufIndex x1 y1) (Z.shiftl 1 (Z.land (wrapY x1) 7)) buf ;;
                orAt (bufIndex x2 y2) (Z.shiftl 1 (Z.land (wrapY x2) 7)) b).
  - destruct (orAt (bufIndex x1 y1) _ buf); simpl; try reflexivity.
    now apply writePixel_done.
  - rewrite orAt_comm.
    destruct (orAt (bufIndex x2 y2) _ buf); simpl; try reflexivity.
    symmetry. now apply writePixel_done.
Qed.

Lemma writePixel_order_witness :
  (b <- writePixel 200 3 70 blank ;; writePixel 200 (-1) 6 b)
  = (b <- writePixel 200 (-1) 6 blank ;; writePixel 200 3 70 b).
Proof.
  apply (writePixel_order 200 3 70 (-1) 6 blank);
    unfold is_int, int_min, int_max; lia.
Defined.

(* ------------------------------------------------------------------ *)
(** ** Drawing only turns pixels on *)

Lemma covers_refl (buf : list Z) : covers buf buf.
Proof. split; auto. Qed.

Lemma covers_trans (b1 b2 b3 : list Z) :
  covers b1 b2 -> covers b2 b3 -> covers b1 b3.
Proof. intros [L1 H1] [L2 H2]. split; [congruence | auto]. Qed.

Lemma covers_pixelOn (buf buf' : list Z) (x y : Z) :
  covers buf buf' -> pixelOn x y buf = true -> pixelOn x y buf' = true.
Proof.
  intros [_ Hc]. unfold pixelOn. apply Hc.
  rewrite land_7. apply Z.mod_pos_bound. lia.
Qed.

Lemma orAt_covers (idx mask : Z) (buf b : list Z) :
  orAt idx mask buf = Done b -> covers buf b.
Proof.
  intros E. split; [now apply orAt_length in E|].
  unfold orAt in E. destruct (_ && _); [|discriminate].
  injection E as <-. intros i k Hk Hb. rewrite nth_upd.
  destruct ((i =? Z.to_nat idx)%nat && _) eqn:Ei; [|assumption].
  apply andb_true_iff in Ei as [Ei _]. apply Nat.eqb_eq in Ei. subst i.
  rewrite Z.lor_spec, Hb. reflexivity.
Qed.

Lemma writePixel_covers (fuel : nat) (x y : Z) (buf b : list Z) :
  writePixel fuel x y buf = Done b -> covers buf b.
Proof.
  unfold writePixel. destruct (pixelIndex fuel x y) as [p| |]; simpl;
    try discriminate.
  apply orAt_covers.
Qed.

(** What every [writePixel] keeps, the loops built from it keep. *)
Section Preserved.
Variable Q : list Z -> Prop.
Hypothesis HQ : forall fuel x y b b',
  Q b -> writePixel fuel x y b = Done b' -> Q b'.

Lemma lineLoop_pres (fp n : nat) (steep : bool) (x1 dx dy ystep : Z) :
  forall (x0 y0 err : Z) (buf buf' : list Z),
    Q buf -> lineLoop fp n steep x1 dx dy ystep x0 y0 err buf = Done buf' ->
    Q buf'.
Proof.
  induction n as [|n IH]; intros x0 y0 err buf buf' Hq; simpl; [discriminate|].
  destruct (x0 <=? x1); [|intros E; now injection E as <-].
  destruct (if steep then writePixel fp y0 x0 buf else writePixel fp x0 y0 buf)
    as [buf1| |] eqn:E1; simpl; try discriminate.
  assert (Q1 : Q buf1) by (destruct steep; eapply HQ; eassumption).
  destruct (sub err dy <? 0); apply IH; assumption.
Qed.

Lemma writeLine_pres (fuel : nat) (x0 y0 x1 y1 : Z) (buf buf' : list Z) :
  Q buf -> writeLine fuel x0 y0 x1 y1 buf = Done buf' -> Q buf'.
Proof.
  intros Hq. unfold writeLine.
  destruct (fabs (float64 (sub y1 y0)) >? fabs (float64 (sub x1 x0)));
    [destruct (y0 >? y1) | destruct (x0 >? x1)];
    now apply lineLoop_pres.
Qed.

Lemma fillLoop_pres (fuel n : nat) (hi y h : Z) :
  forall (i : Z) (buf buf' : list Z),
    Q buf -> fillLoop fuel n i hi y h buf = Done buf' -> Q buf'.
Proof.
  induction n as [|n IH]; intros i buf buf' Hq; simpl; [discriminate|].
  destruct (i <? hi); [|intros E; now injection E as <-].
  destruct (writeLine fuel i y i (add y h) buf) as [buf1| |] eqn:E1; simpl;
    try discriminate.
  apply IH. now apply (writeLine_pres fuel i y i (add y h) buf).
Qed.

Lemma writeFillRect_pres (fuel : nat) (x y w h : Z) (buf buf' : list Z) :
  Q buf -> writeFillRect fuel x y w h buf = Done buf' -> Q buf'.
Proof. apply fillLoop_pres. Qed.

Lemma forRange_pres {S : Type} (P : S -> Prop) (body : Z -> S -> result S) :
  (forall i s s', P s -> body i s = Done s' -> P s') ->
  forall (n : nat) (i : Z) (s s' : S),
    P s -> forRange n i body s = Done s' -> P s'.
Proof.
  intros Hb. induction n as [|n IH]; intros i s s' Hs; simpl.
  - intros E. now injection E as <-.
  - destruct (body i s) as [s1| |] eqn:E1; simpl; try discriminate.
    apply IH. now apply (Hb i s).
Qed.

Context `{Font}.

Lemma glyphBit_pres (fuel : nat) (x y xo yo yy xx : Z)
    (st st' : Z * Z * Z * list Z) :
  Q (snd st) -> glyphBit fuel x y xo yo yy xx st = Done st' -> Q (snd st').
Proof.
  destruct st as [[[bo bit] bits] buf]. simpl. intros Hq. unfold glyphBit.
  destruct (if Z.land bit 7 =? 0
            then b <- lift (index bo freemono);; Done (b, add bo 1)
            else Done (bits, bo)) as [[bits' bo']| |]; simpl; try discriminate.
  destruct (Z.land bits' 128 >? 0).
  - destruct (writePixel fuel (add (add x xo) xx) (sub (sub y yo) yy) buf)
      as [buf1| |] eqn:E; simpl; try discriminate.
    intros E'. injection E' as <-. simpl. eapply HQ; eassumption.
  - simpl. intros E'. now injection E' as <-.
Qed.

Lemma writeString_pres (fuel : nat) (text : list Z) :
  forall (x y : Z) (buf buf' : list Z),
    Q buf -> writeString fuel x y text buf = Done buf' -> Q buf'.
Proof.
  induction text as [|cb rest IH]; intros x y buf buf' Hq; simpl.
  - intros E. now injection E as <-.
  - destruct ((cb <? 32) || (wrap8 (cb - 32) >=? 95)); [now apply IH|].
    destruct (index (wrap8 (cb - 32)) chars) as [cInfo|]; simpl;
      [|discriminate].
    destruct (index 0 cInfo) as [bo|]; simpl; [|discriminate].
    destruct (index 1 cInfo) as [w|]; simpl; [|discriminate].
    destruct (index 2 cInfo) as [h|]; simpl; [|discriminate].
    destruct (index 3 cInfo) as [adv|]; simpl; [|discriminate].
    destruct (index 4 cInfo) as [xo|]; simpl; [|discriminate].
    destruct (index 5 cInfo) as [yo|]; simpl; [|discriminate].
    destruct (forRange (Z.to_nat h) 0 (glyphRow fuel x y xo yo w) (bo, 0, 0, buf))
      as [st| |] eqn:Er; simpl; try discriminate.
    apply IH.
    apply (forRange_pres (fun s => Q (snd s)) (glyphRow fuel x y xo yo w))
      with (n := Z.to_nat h) (i := 0) (s := (bo, 0, 0, buf)) (s' := st);
      try assumption.
    intros yy s s' Hs. unfold glyphRow.
    apply (forRange_pres (fun s => Q (snd s))); [|assumption].
    intros xx s0 s0'. apply glyphBit_pres.
Qed.

End Preserved.

(** X4. [writeLine] never clears a pixel: whenever it returns, every bit
    set in the buffer it was given is set in the one it returns, which has
    the same length; so every pixel that read lit still does. *)
Theorem writeLine_never_clears (fuel : nat) (a b c d : Z) (buf buf' : list Z) :
  writeLine fuel a b c d buf = Done buf' ->
  covers buf buf' /\
  forall x y, pixelOn x y buf = true -> pixelOn x y buf' = true.
Proof.
  intros E.
  assert (Hc : covers buf buf').
  { refine (writeLine_pres (covers buf) _ fuel a b c d buf buf'
              (covers_refl buf) E).
    intros f x y b0 b1 Hq Ep. eapply covers_trans; [exact Hq|].
    now apply writePixel_covers in Ep. }
  split; [exact Hc|]. intros x y. now apply covers_pixelOn.
Qed.

Lemma writeLine_never_clears_witness :
  covers (upd 5 32 blank) (upd 5 32 (upd 0 15 blank)) /\
  forall x y, pixelOn x y (upd 5 32 blank) = true ->
              pixelOn x y (upd 5 32 (upd 0 15 blank)) = true.
Proof.
  apply (writeLine_never_clears 8 0 0 3 0).
  vm_compute. reflexivity.
Defined.

(** X5. [writeString] never clears a pixel, whatever the font tables
    hold: whenever it returns, every bit set before is still set and the
    buffer has the length it had. *)
Theorem writeString_never_clears `{Font} (fuel : nat) (x y : Z)
    (text : list Z) (buf buf' : list Z) :
  writeString fuel x y text buf = Done buf' ->
  covers buf buf' /\
  forall x' y', pixelOn x' y' buf = true -> pixelOn x' y' buf' = true.
Proof.
  intros E.
  assert (Hc : covers buf buf').
  { refine (writeString_pres (covers buf) _ fuel text x y buf buf'
              (covers_refl buf) E).
    intros f x0 y0 b0 b1 Hq Ep. eapply covers_trans; [exact Hq|].
    now apply writePixel_covers in Ep. }
  split; [exact Hc|]. intros x' y'. now apply covers_pixelOn.
Qed.

Lemma writeString_never_clears_witness :
  covers (upd 5 32 blank) (upd 20 3 (upd 5 32 blank)) /\
  forall x' y', pixelOn x' y' (upd 5 32 blank) = true ->
                pixelOn x' y' (upd 20 3 (upd 5 32 blank)) = true.
Proof.
  apply (writeString_never_clears (H := dotFont) 8 0 20 [72; 105]).
  vm_compute. reflexivity.
Defined.

(* ------------------------------------------------------------------ *)
(** ** Lines along an axis *)

Lemma zrange_S (lo : Z) (n : nat) : zrange lo (S n) = lo :: zrange (lo + 1) n.
Proof.
  unfold zrange. cbn [seq map]. rewrite Z.add_0_r. f_equal.
  rewrite <- seq_shift, map_map. apply map_ext. intros k. lia.
Qed.

Lemma amongPixels_cons (p : Z * Z) (pts : list (Z * Z)) (x' y' : Z) :
  amongPixels (p :: pts) x' y'
  = samePixel (fst p) (snd p) x' y' || amongPixels pts x' y'.
Proof. reflexivity. Qed.

Lemma amongPixels_app (p q : list (Z * Z)) (x' y' : Z) :
  amongPixels (p ++ q) x' y' = amongPixels p x' y' || amongPixels q x' y'.
Proof. apply existsb_app. Qed.

(** The loop of [writeLine] when [dy] is 0 and [err] starts at or above
    0: [y0] never moves, and the pixels from [x0] to [x1] are plotted. *)
Lemma lineLoop_flat (fp : nat) (steep : bool) (x1 dx ystep y0 M : Z) :
  x1 < int_max -> is_int y0 -> x1 <= M -> Z.abs y0 + M < Z.of_nat fp ->
  forall (cnt n : nat) (x0 err : Z) (buf : list Z),
    is_int x0 -> - M <= x0 -> is_int err -> 0 <= err ->
    x1 + 1 - x0 = Z.of_nat cnt -> (cnt < n)%nat -> length buf = 1024%nat ->
    exists buf',
      lineLoop fp n steep x1 dx 0 ystep x0 y0 err buf = Done buf' /\
      length buf' = 1024%nat /\
      forall x' y',
        pixelOn x' y' buf'
        = pixelOn x' y' buf
          || amongPixels (map (fun j => if steep then (y0, j) else (j, y0))
                            (zrange x0 cnt)) x' y'.
Proof.
  intros Hmax Hy0 HM Hfp.
  induction cnt as [|cnt IH]; intros n x0 err buf Hx0 Hlo Herr Hpos Hc Hn Hlen;
    (destruct n as [|n]; [lia|]); cbn [lineLoop].
  - replace (x0 <=? x1) with false by (symmetry; apply Z.leb_gt; lia).
    exists buf. repeat split; [assumption|]. intros x' y'.
    now rewrite orb_false_r.
  - replace (x0 <=? x1) with true by (symmetry; apply Z.leb_le; lia).
    assert (Hpix : exists buf1,
               (if steep then writePixel fp y0 x0 buf
                else writePixel fp x0 y0 buf) = Done buf1 /\
               length buf1 = 1024%nat /\
               forall x' y',
                 pixelOn x' y' buf1
                 = pixelOn x' y' buf
                   || samePixel (fst (if steep then (y0, x0) else (x0, y0)))
                        (snd (if steep then (y0, x0) else (x0, y0))) x' y').
    { destruct steep; rewrite writePixel_done by (try assumption; lia);
        apply orAt_pixel; assumption. }
    destruct Hpix as (buf1 & -> & Hlen1 & P1). cbn [bind].
    assert (Hs : sub err 0 = err)
      by (unfold sub; rewrite Z.sub_0_r; now apply wrap_id).
    rewrite Hs.
    replace (err <? 0) with false by (symmetry; apply Z.ltb_ge; lia).
    assert (Hinc : add x0 1 = x0 + 1).
    { apply wrap_id. unfold is_int, int_min, int_max in *. lia. }
    rewrite Hinc.
    destruct (IH n (x0 + 1) err buf1) as (buf' & E & L & P);
      try assumption; try lia.
    { unfold is_int, int_min, int_max in *. lia. }
    exists buf'. split; [exact E|]. split; [exact L|].
    intros x' y'. rewrite P, P1, zrange_S. cbn [map].
    rewrite amongPixels_cons, orb_assoc. reflexivity.
Qed.

Lemma quot2_range (d : Z) : 0 <= d -> is_int d -> 0 <= div d 2 /\ is_int (div d 2).
Proof.
  intros Hd Hi. unfold div.
  assert (0 <= Z.quot d 2 <= d).
  { rewrite Z.quot_div_nonneg by lia. split.
    - apply Z.div_pos; lia.
    - apply Z.div_le_upper_bound; lia. }
  unfold is_int, int_min, int_max in *. lia.
Qed.

Ltac int_lia :=
  unfold is_int, int_min, int_max in *;
  change (2 ^ 61) with 2305843009213693952 in *;
  change (2 ^ 63) with 9223372036854775808 in *;
  lia.

(** The line between [(lo, y)] and [(hi, y)] along the walking axis,
    after [writeLine] has put its endpoints in order. *)
Lemma lineLoop_straight (fuel : nat) (steep : bool) (lo hi y ystep : Z)
    (buf : list Z) :
  - 2 ^ 61 <= lo -> lo <= hi -> hi <= 2 ^ 61 -> is_int y ->
  hi - lo + 1 < Z.of_nat fuel ->
  Z.max (Z.abs lo) (Z.abs hi) + Z.abs y < Z.of_nat fuel ->
  length buf = 1024%nat ->
  exists buf',
    lineLoop fuel fuel steep hi (sub hi lo) 0 ystep lo y (div (sub hi lo) 2) buf
    = Done buf' /\
    length buf' = 1024%nat /\
    forall x' y',
      pixelOn x' y' buf'
      = pixelOn x' y' buf
        || amongPixels (map (fun j => if steep then (y, j) else (j, y))
                          (zrange lo (Z.to_nat (hi - lo) + 1))) x' y'.
Proof.
  intros Hlo Hle Hhi Hy Hn Hf Hlen.
  assert (Ilo : is_int lo) by int_lia.
  assert (Ihi : is_int hi) by int_lia.
  assert (Hdx : sub hi lo = hi - lo) by (apply wrap_id; int_lia).
  rewrite Hdx.
  destruct (quot2_range (hi - lo)) as [Hq Hqi]; [lia | int_lia |].
  apply (lineLoop_flat fuel steep hi (hi - lo) ystep y (Z.max (Z.abs lo) (Z.abs hi)));
    try assumption; try lia; int_lia.
Qed.

Lemma writeLine_horizontal (fuel : nat) (a c y : Z) (buf : list Z) :
  - 2 ^ 61 <= a <= 2 ^ 61 -> - 2 ^ 61 <= c <= 2 ^ 61 -> is_int y ->
  Z.abs a + Z.abs c + Z.abs y + 1 < Z.of_nat fuel ->
  length buf = 1024%nat ->
  exists buf',
    writeLine fuel a y c y buf = Done buf' /\
    length buf' = 1024%nat /\
    forall x' y',
      pixelOn x' y' buf'
      = pixelOn x' y' buf
        || amongPixels (map (fun j => (j, y))
                          (zrange (Z.min a c) (Z.to_nat (Z.abs (c - a)) + 1)))
             x' y'.
Proof.
  intros Ha Hc Hy Hf Hlen. unfold writeLine.
  rewrite !sub_diag. change (fabs (float64 0)) with 0.
  rewrite (gtb_false 0) by apply fabs_float64_nonneg.
  cbv beta iota zeta. change (0 <? 0) with false. cbv iota.
  destruct (Z.le_gt_cases a c) as [Hle|Hgt].
  - rewrite (gtb_false a c) by lia. cbv beta iota zeta.
    rewrite ?sub_diag. change (0 <? 0) with false. cbv iota.
    rewrite Z.min_l, Z.abs_eq by lia.
    apply (lineLoop_straight fuel false a c y); try assumption; lia.
  - rewrite (gtb_true a c) by lia. cbv beta iota zeta.
    rewrite ?sub_diag. change (0 <? 0) with false. cbv iota.
    rewrite Z.min_r by lia.
    replace (Z.abs (c - a)) with (a - c) by lia.
    apply (lineLoop_straight fuel false c a y); try assumption; lia.
Qed.

Lemma writeLine_vertical (fuel : nat) (x a c : Z) (buf : list Z) :
  - 2 ^ 61 <= a <= 2 ^ 61 -> - 2 ^ 61 <= c <= 2 ^ 61 ->
  - 2 ^ 61 <= x <= 2 ^ 61 ->
  Z.abs a + Z.abs c + Z.abs x + 1 < Z.of_nat fuel ->
  length buf = 1024%nat ->
  exists buf',
    writeLine fuel x a x c buf = Done buf' /\
    length buf' = 1024%nat /\
    forall x' y',
      pixelOn x' y' buf'
      = pixelOn x' y' buf
        || amongPixels (map (fun j => (x, j))
                          (zrange (Z.min a c) (Z.to_nat (Z.abs (c - a)) + 1)))
             x' y'.
Proof.
  intros Ha Hc Hx Hf Hlen.
  assert (Ix : is_int x) by int_lia.
  destruct (Z.eq_dec a c) as [->|Hne].
  - (* a single point: not steep *)
    unfold writeLine. rewrite !sub_diag.
    change (fabs (float64 0) >? fabs (float64 0)) with false.
    cbv beta iota zeta. rewrite (gtb_false x x) by lia.
    cbv beta iota zeta. rewrite ?sub_diag.
    change (0 <? 0) with false. cbv iota.
    rewrite Z.sub_diag, Z.min_id.
    destruct (lineLoop_straight fuel false x x c
                (if c <? c then 1 else -1) buf) as (buf' & E & L & P);
      try assumption; try lia; try int_lia.
    rewrite sub_diag in E.
    exists buf'. split; [exact E|]. split; [exact L|].
    intros x' y'. rewrite P, Z.sub_diag.
    change (Z.to_nat (Z.abs 0) + 1)%nat with 1%nat.
    change (Z.to_nat 0 + 1)%nat with 1%nat.
    unfold zrange. cbn [seq map]. rewrite !Z.add_0_r. reflexivity.
  - unfold writeLine. rewrite sub_diag. change (fabs (float64 0)) with 0.
    assert (Hs : 0 < fabs (float64 (sub c a))).
    { pose proof (fabs_float64_nonneg (sub c a)).
      destruct (Z.eq_dec (fabs (float64 (sub c a))) 0) as [E|]; [|lia].
      apply fabs_float64_zero, sub_zero_eq in E; [congruence | int_lia | int_lia]. }
    rewrite (gtb_true _ 0) by exact Hs.
    cbv beta iota zeta.
    destruct (Z.le_gt_cases a c) as [Hle|Hgt].
    + rewrite (gtb_false a c) by lia. cbv beta iota zeta.
      rewrite ?sub_diag. change (0 <? 0) with false. cbv iota.
      rewrite Z.min_l, Z.abs_eq by lia.
      apply (lineLoop_straight fuel true a c x); try assumption; lia.
    + rewrite (gtb_true a c) by lia. cbv beta iota zeta.
      rewrite ?sub_diag. change (0 <? 0) with false. cbv iota.
      rewrite Z.min_r by lia.
      replace (Z.abs (c - a)) with (a - c) by lia.
      apply (lineLoop_straight fuel true c a x); try assumption; lia.
Qed.

(** X6. A line along an axis lights exactly the pixels of its segment,
    both endpoints included, in either direction: after
    [writeLine(a, y, c, y)] a coordinate reads lit exactly when it did
    before or names one of the pixels [(j, y)] with [j] between [a] and
    [c]; likewise for the vertical line [writeLine(x, a, x, c)] and the
    pixels [(x, j)].  (Coordinates up to [2 ^ 61] in size, a 1024-byte
    buffer, fuel above the sum of the coordinates' sizes.) *)
Theorem writeLine_axis_parallel (fuel : nat) (a c t : Z) (buf : list Z) :
  - 2 ^ 61 <= a <= 2 ^ 61 -> - 2 ^ 61 <= c <= 2 ^ 61 ->
  - 2 ^ 61 <= t <= 2 ^ 61 ->
  Z.abs a + Z.abs c + Z.abs t + 1 < Z.of_nat fuel ->
  length buf = 1024%nat ->
  let span := zrange (Z.min a c) (Z.to_nat (Z.abs (c - a)) + 1) in
  (exists buf',
     writeLine fuel a t c t buf = Done buf' /\
     forall x' y',
       pixelOn x' y' buf'
       = pixelOn x' y' buf || amongPixels (map (fun j => (j, t)) span) x' y') /\
  (exists buf',
     writeLine fuel t a t c buf = Done buf' /\
     forall x' y',
       pixelOn x' y' buf'
       = pixelOn x' y' buf || amongPixels (map (fun j => (t, j)) span) x' y').
Proof.
  intros Ha Hc Ht Hf Hlen span. split.
  - destruct (writeLine_horizontal fuel a c t buf) as (buf' & E & _ & P);
      try assumption; [int_lia|]. eauto.
  - destruct (writeLine_vertical fuel t a c buf) as (buf' & E & _ & P);
      try assumption. eauto.
Qed.

Lemma writeLine_axis_parallel_witness :
  (exists buf',
     writeLine 200 100 10 20 10 blank = Done buf' /\
     forall x' y',
       pixelOn x' y' buf'
       = pixelOn x' y' blank
         || amongPixels (map (fun j => (j, 10))
                           (zrange (Z.min 100 20)
                              (Z.to_nat (Z.abs (20 - 100)) + 1))) x' y') /\
  (exists buf',
     writeLine 200 10 100 10 20 blank = Done buf' /\
     forall x' y',
       pixelOn x' y' buf'
       = pixelOn x' y' blank
         || amongPixels (map (fun j => (10, j))
                           (zrange (Z.min 100 20)
                              (Z.to_nat (Z.abs (20 - 100)) + 1))) x' y').
Proof.
  apply (writeLine_axis_parallel 200 100 20 10 blank);
    try (change (2 ^ 61) with 2305843009213693952; lia); reflexivity.
Defined.

(* ------------------------------------------------------------------ *)
(** ** Filled rectangles *)

Lemma fillLoop_columns (fuel : nat) (hi y h : Z) :
  - 2 ^ 60 <= y <= 2 ^ 60 -> 0 <= h <= 2 ^ 60 -> hi <= 2 ^ 61 ->
  forall (cnt n : nat) (i : Z) (buf : list Z),
    - 2 ^ 61 <= i -> hi - i = Z.of_nat cnt -> (cnt < n)%nat ->
    Z.max (Z.abs i) (Z.abs hi) + 2 * Z.abs y + h + 1 < Z.of_nat fuel ->
    length buf = 1024%nat ->
    exists buf',
      fillLoop fuel n i hi y h buf = Done buf' /\
      length buf' = 1024%nat /\
      forall x' y',
        pixelOn x' y' buf'
        = pixelOn x' y' buf
          || amongPixels
               (flat_map (fun c => map (fun j => (c, j))
                                     (zrange y (Z.to_nat h + 1)))
                  (zrange i cnt)) x' y'.
Proof.
  intros Hy Hh Hhi.
  induction cnt as [|cnt IH]; intros n i buf Hi Hc Hn Hf Hlen;
    (destruct n as [|n]; [lia|]); cbn [fillLoop].
  - replace (i <? hi) with false by (symmetry; apply Z.ltb_ge; lia).
    exists buf. repeat split; [assumption|]. intros x' y'.
    now rewrite orb_false_r.
  - replace (i <? hi) with true by (symmetry; apply Z.ltb_lt; lia).
    assert (Hyh : add y h = y + h) by (apply wrap_id; int_lia;
      change (2 ^ 60) with 1152921504606846976 in *; lia).
    rewrite Hyh.
    destruct (writeLine_vertical fuel i y (y + h) buf) as (buf1 & -> & L1 & P1);
      try assumption;
      try (change (2 ^ 60) with 1152921504606846976 in *;
           change (2 ^ 61) with 2305843009213693952 in *; lia).
    cbn [bind].
    assert (Hinc : add i 1 = i + 1).
    { apply wrap_id. change (2 ^ 61) with 2305843009213693952 in *. int_lia. }
    rewrite Hinc.
    destruct (IH n (i + 1) buf1) as (buf' & E & L & P); try assumption; try lia.
    exists buf'. split; [exact E|]. split; [exact L|].
    intros x' y'. rewrite P, P1, zrange_S. cbn [flat_map].
    rewrite amongPixels_app, orb_assoc.
    rewrite Z.min_l by lia.
    replace (Z.abs (y + h - y)) with h by lia.
    reflexivity.
Qed.

(** X7. [writeFillRect(x, y, w, h)] lights exactly the columns
    [x .. x + w - 1] over the rows [y .. y + h], the row [y + h]
    included: [h + 1] rows, one more than [h].  With [w <= 0] it returns
    the buffer it was given. *)
Theorem writeFillRect_pixels (fuel : nat) (x y w h : Z) (buf : list Z) :
  - 2 ^ 60 <= x <= 2 ^ 60 -> - 2 ^ 60 <= y <= 2 ^ 60 ->
  - 2 ^ 60 <= w <= 2 ^ 60 -> 0 <= h <= 2 ^ 60 ->
  Z.abs x + 2 * Z.abs y + Z.abs w + h + 1 < Z.of_nat fuel ->
  length buf = 1024%nat ->
  (exists buf',
     writeFillRect fuel x y w h buf = Done buf' /\
     forall x' y',
       pixelOn x' y' buf'
       = pixelOn x' y' buf
         || amongPixels
              (flat_map (fun c => map (fun j => (c, j))
                                    (zrange y (Z.to_nat h + 1)))
                 (zrange x (Z.to_nat w))) x' y') /\
  (w <= 0 -> writeFillRect fuel x y w h buf = Done buf).
Proof.
  intros Hx Hy Hw Hh Hf Hlen.
  change (2 ^ 60) with 1152921504606846976 in *.
  assert (Hhi : add x w = x + w) by (apply wrap_id; int_lia).
  unfold writeFillRect. rewrite Hhi.
  assert (Hzero : w <= 0 -> fillLoop fuel fuel x (x + w) y h buf = Done buf).
  { intros Hle. destruct fuel as [|f]; [lia|]. cbn [fillLoop].
    now replace (x <? x + w) with false by (symmetry; apply Z.ltb_ge; lia). }
  split; [|exact Hzero].
  destruct (Z.le_gt_cases w 0) as [Hle|Hgt].
  - rewrite (Hzero Hle). exists buf. split; [reflexivity|].
    intros x' y'. replace (Z.to_nat w) with 0%nat by lia.
    cbn. now rewrite orb_false_r.
  - destruct (fillLoop_columns fuel (x + w) y h) with
      (cnt := Z.to_nat w) (n := fuel) (i := x) (buf := buf)
      as (buf' & E & _ & P);
      try assumption;
      try (change (2 ^ 60) with 1152921504606846976;
           change (2 ^ 61) with 2305843009213693952; lia).
    eauto.
Qed.

Lemma writeFillRect_pixels_witness :
  (exists buf',
     writeFillRect 100 8 20 8 24 blank = Done buf' /\
     forall x' y',
       pixelOn x' y' buf'
       = pixelOn x' y' blank
         || amongPixels
              (flat_map (fun c => map (fun j => (c, j))
                                    (zrange 20 (Z.to_nat 24 + 1)))
                 (zrange 8 (Z.to_nat 8))) x' y') /\
  (8 <= 0 -> writeFillRect 100 8 20 8 24 blank = Done blank).
Proof.
  apply (writeFillRect_pixels 100 8 20 8 24 blank);
    try (change (2 ^ 60) with 1152921504606846976; lia); reflexivity.
Defined.

(** The first frame of the start-up animation, run: 8 columns of 25 rows,
    200 pixels, and the row [y + h = 44] is lit. *)
Example writeFillRect_first_frame :
  exists buf',
    writeFillRect 100 8 20 8 24 blank = Done buf' /\
    litPixels buf' = 200%nat /\
    pixelOn 8 44 buf' = true /\ pixelOn 15 20 buf' = true /\
    pixelOn 16 20 buf' = false /\ pixelOn 8 45 buf' = false.
Proof.
  eexists. split; [vm_compute; reflexivity|].
  repeat split; vm_compute; reflexivity.
Qed.

(* ------------------------------------------------------------------ *)
(** ** Bresenham's walk reaches the far endpoint *)

Lemma float64_small (z : Z) : Z.abs z < 2 ^ 53 -> float64 z = z.
Proof.
  intros Hz. unfold float64, round53.
  assert (Hk : Z.log2 (Z.abs z) - 52 <= 0).
  { destruct (Z.eq_dec z 0) as [->|Hne]; [vm_compute; discriminate|].
    assert (Z.log2 (Z.abs z) < 53); [|lia].
    apply Z.log2_lt_pow2; lia. }
  replace (Z.log2 (Z.abs z) - 52 <=? 0) with true
    by (symmetry; now apply Z.leb_le).
  rewrite Z.mul_comm. apply Z.abs_sgn.
Qed.

Lemma samePixel_refl (x y : Z) : samePixel x y x y = true.
Proof. unfold samePixel. now rewrite !Z.eqb_refl. Qed.

(** The loop from a state on the walk: [k] columns have been passed and
    [y0] has moved [s] times, with the error term Bresenham keeps.  The
    loop returns, lights the pixel it stands on, and lights the pixel of
    the last column at the height of the far endpoint. *)
Lemma lineLoop_reaches (fp : nat) (steep : bool)
    (x1 dx dy ystep x0i y0i B : Z) :
  (ystep = 1 \/ ystep = -1) -> 0 <= dy <= dx -> dx = x1 - x0i ->
  Z.abs x0i <= B -> Z.abs x1 <= B -> Z.abs y0i <= B -> B <= 2 ^ 40 ->
  4 * B < Z.of_nat fp ->
  forall (cnt n : nat) (k s x0 y0 err : Z) (buf : list Z),
    x0 = x0i + k -> 0 <= k -> y0 = y0i + ystep * s -> 0 <= s <= k ->
    0 <= err -> (err < dx \/ (dx = 0 /\ err = 0)) ->
    err = Z.quot dx 2 - k * dy + s * dx ->
    x1 + 1 - x0 = Z.of_nat cnt -> (cnt < n)%nat -> length buf = 1024%nat ->
    exists buf',
      lineLoop fp n steep x1 dx dy ystep x0 y0 err buf = Done buf' /\
      length buf' = 1024%nat /\ covers buf buf' /\
      (x0 <= x1 ->
       pixelOn (if steep then y0 else x0) (if steep then x0 else y0) buf' = true /\
       pixelOn (if steep then y0i + ystep * dy else x1)
               (if steep then x1 else y0i + ystep * dy) buf' = true).
Proof.
  intros Hstep Hdy Hdx Bx0 Bx1 By0 HB Hfp.
  change (2 ^ 40) with 1099511627776 in HB.
  induction cnt as [|cnt IH];
    intros n k s x0 y0 err buf Hx0 Hk Hy0 Hs Herr Hlt Heq Hc Hn Hlen;
    (destruct n as [|n]; [lia|]); cbn [lineLoop].
  - replace (x0 <=? x1) with false by (symmetry; apply Z.leb_gt; lia).
    exists buf. split; [reflexivity|]. split; [assumption|].
    split; [apply covers_refl | lia].
  - replace (x0 <=? x1) with true by (symmetry; apply Z.leb_le; lia).
    assert (Ix0 : is_int x0) by int_lia.
    assert (Iy0 : is_int y0) by int_lia.
    assert (Hpix : exists buf1,
               (if steep then writePixel fp y0 x0 buf
                else writePixel fp x0 y0 buf) = Done buf1 /\
               length buf1 = 1024%nat /\ covers buf buf1 /\
               pixelOn (if steep then y0 else x0) (if steep then x0 else y0)
                 buf1 = true).
    { destruct steep.
      - rewrite writePixel_done by (try assumption; lia).
        destruct (orAt_pixel y0 x0 buf Hlen) as (b1 & E1 & L1 & P1).
        exists b1. rewrite E1. split; [reflexivity|]. split; [assumption|].
        split; [now apply orAt_covers in E1|].
        now rewrite P1, samePixel_refl, orb_true_r.
      - rewrite writePixel_done by (try assumption; lia).
        destruct (orAt_pixel x0 y0 buf Hlen) as (b1 & E1 & L1 & P1).
        exists b1. rewrite E1. split; [reflexivity|]. split; [assumption|].
        split; [now apply orAt_covers in E1|].
        now rewrite P1, samePixel_refl, orb_true_r. }
    destruct Hpix as (buf1 & -> & L1 & C1 & P1). cbn [bind].
    assert (Hsub : sub err dy = err - dy) by (apply wrap_id; int_lia).
    assert (Hinc : add x0 1 = x0 + 1) by (apply wrap_id; int_lia).
    rewrite Hsub, Hinc.
    assert (Hend : x0 = x1 -> y0 = y0i + ystep * dy).
    { intros E. assert (k = dx) by lia. subst k.
      assert (s = dy); [|subst; reflexivity].
      destruct Hlt as [Hlt|H0]; [|lia].
      assert (Hh : 0 <= Z.quot dx 2 < dx).
      { rewrite Z.quot_div_nonneg by lia.
        split; [apply Z.div_pos; lia | apply Z.div_lt_upper_bound; lia]. }
      nia. }
    destruct (err - dy <? 0) eqn:Eneg.
    + apply Z.ltb_lt in Eneg.
      assert (Hy : add y0 ystep = y0 + ystep) by (apply wrap_id; int_lia).
      assert (He : add (err - dy) dx = err - dy + dx) by (apply wrap_id; int_lia).
      rewrite Hy, He.
      destruct (IH n (k + 1) (s + 1) (x0 + 1) (y0 + ystep) (err - dy + dx) buf1)
        as (buf' & E & L & C & P); try assumption; try lia; try nia.
      exists buf'. split; [exact E|]. split; [exact L|].
      split; [eapply covers_trans; eassumption|].
      intros _. split; [eapply covers_pixelOn; eassumption|].
      destruct (Z.eq_dec x0 x1) as [Ex|Nx].
      * specialize (Hend Ex). rewrite <- Hend, <- Ex.
        eapply covers_pixelOn; eassumption.
      * apply P. lia.
    + apply Z.ltb_ge in Eneg.
      destruct (IH n (k + 1) s (x0 + 1) y0 (err - dy) buf1)
        as (buf' & E & L & C & P); try assumption; try lia; try nia.
      exists buf'. split; [exact E|]. split; [exact L|].
      split; [eapply covers_trans; eassumption|].
      intros _. split; [eapply covers_pixelOn; eassumption|].
      destruct (Z.eq_dec x0 x1) as [Ex|Nx].
      * specialize (Hend Ex). rewrite <- Hend, <- Ex.
        eapply covers_pixelOn; eassumption.
      * apply P. lia.
Qed.

Lemma lineLoop_start (fuel : nat) (steep : bool) (x0 y0 x1 y1 B : Z)
    (buf : list Z) :
  x0 <= x1 -> Z.abs (y1 - y0) <= x1 - x0 ->
  Z.abs x0 <= B -> Z.abs x1 <= B -> Z.abs y0 <= B -> Z.abs y1 <= B ->
  B <= 2 ^ 40 -> 4 * B + 1 < Z.of_nat fuel -> length buf = 1024%nat ->
  exists buf',
    lineLoop fuel fuel steep x1 (sub x1 x0)
      (if sub y1 y0 <? 0 then mul (sub y1 y0) (-1) else sub y1 y0)
      (if y0 <? y1 then 1 else -1) x0 y0 (div (sub x1 x0) 2) buf
    = Done buf' /\
    pixelOn (if steep then y0 else x0) (if steep then x0 else y0) buf' = true /\
    pixelOn (if steep then y1 else x1) (if steep then x1 else y1) buf' = true.
Proof.
  intros Hle Hdy Bx0 Bx1 By0 By1 HB Hf Hlen.
  assert (HB' : B <= 1099511627776) by exact HB.
  assert (Hdx : sub x1 x0 = x1 - x0) by (apply wrap_id; int_lia).
  assert (Hsy : sub y1 y0 = y1 - y0) by (apply wrap_id; int_lia).
  rewrite Hdx, Hsy.
  assert (Hm : mul (y1 - y0) (-1) = y0 - y1)
    by (unfold mul; rewrite wrap_id; [lia | int_lia]).
  rewrite Hm.
  set (ystep := if y0 <? y1 then 1 else -1).
  set (dy := if y1 - y0 <? 0 then y0 - y1 else y1 - y0).
  assert (Edy : dy = Z.abs (y1 - y0)).
  { subst dy. destruct (y1 - y0 <? 0) eqn:E;
      [apply Z.ltb_lt in E | apply Z.ltb_ge in E]; lia. }
  assert (Eend : y0 + ystep * dy = y1).
  { subst ystep. rewrite Edy. destruct (y0 <? y1) eqn:E;
      [apply Z.ltb_lt in E | apply Z.ltb_ge in E]; lia. }
  assert (Hh : 0 <= Z.quot (x1 - x0) 2 /\
               (Z.quot (x1 - x0) 2 < x1 - x0 \/
                (x1 - x0 = 0 /\ Z.quot (x1 - x0) 2 = 0))).
  { rewrite Z.quot_div_nonneg by lia. split; [apply Z.div_pos; lia|].
    destruct (Z.eq_dec (x1 - x0) 0) as [E|N].
    - right. rewrite E. split; reflexivity.
    - left. apply Z.div_lt_upper_bound; lia. }
  destruct (lineLoop_reaches fuel steep x1 (x1 - x0) dy ystep x0 y0 B)
    with (cnt := Z.to_nat (x1 + 1 - x0)) (n := fuel) (k := 0) (s := 0)
         (x0 := x0) (y0 := y0) (err := div (x1 - x0) 2) (buf := buf)
    as (buf' & E & _ & _ & P);
    try assumption; try lia; try (unfold div; lia).
  { subst ystep. destruct (y0 <? y1); auto. }
  exists buf'. split; [exact E|].
  rewrite Eend in P. apply P. lia.
Qed.

(** X8. [writeLine] lights both of its endpoints.  For endpoints within
    [2 ^ 31] of the origin on a 1024-byte buffer, with fuel above four
    times the sum of the coordinates' sizes, the call returns a buffer in
    which the pixels at [(a, b)] and at [(c, d)] read lit: Bresenham's
    error term brings the walk to the height of the far endpoint exactly
    at its last column. *)
Theorem writeLine_lights_endpoints (fuel : nat) (a b c d : Z) (buf : list Z) :
  Z.abs a <= 2 ^ 31 -> Z.abs b <= 2 ^ 31 ->
  Z.abs c <= 2 ^ 31 -> Z.abs d <= 2 ^ 31 ->
  4 * (Z.abs a + Z.abs b + Z.abs c + Z.abs d) + 1 < Z.of_nat fuel ->
  length buf = 1024%nat ->
  exists buf',
    writeLine fuel a b c d buf = Done buf' /\
    pixelOn a b buf' = true /\ pixelOn c d buf' = true.
Proof.
  intros Ha Hb Hc Hd Hf Hlen.
  change (2 ^ 31) with 2147483648 in *.
  set (B := Z.abs a + Z.abs b + Z.abs c + Z.abs d) in *.
  assert (HB : B <= 2 ^ 40)
    by (change (2 ^ 40) with 1099511627776; subst B; lia).
  unfold writeLine.
  assert (Sy : sub d b = d - b) by (apply wrap_id; int_lia).
  assert (Sx : sub c a = c - a) by (apply wrap_id; int_lia).
  rewrite Sy, Sx.
  rewrite !float64_small
    by (change (2 ^ 53) with 9007199254740992; lia).
  unfold fabs.
  destruct (Z.abs (d - b) >? Z.abs (c - a)) eqn:Es.
  - (* steep: the walk is along y *)
    rewrite Z.gtb_ltb in Es. apply Z.ltb_lt in Es.
    destruct (Z.le_gt_cases b d) as [Hle|Hgt].
    + rewrite (gtb_false b d) by lia.
      destruct (lineLoop_start fuel true b a d c B buf) as (buf' & E & P0 & P1);
        try assumption; try (subst B; lia).
      exists buf'. auto.
    + rewrite (gtb_true b d) by lia.
      destruct (lineLoop_start fuel true d c b a B buf) as (buf' & E & P0 & P1);
        try assumption; try (subst B; lia).
      exists buf'. auto.
  - rewrite Z.gtb_ltb in Es. apply Z.ltb_ge in Es.
    destruct (Z.le_gt_cases a c) as [Hle|Hgt].
    + rewrite (gtb_false a c) by lia.
      destruct (lineLoop_start fuel false a b c d B buf) as (buf' & E & P0 & P1);
        try assumption; try (subst B; lia).
      exists buf'. auto.
    + rewrite (gtb_true a c) by lia.
      destruct (lineLoop_start fuel false c d a b B buf) as (buf' & E & P0 & P1);
        try assumption; try (subst B; lia).
      exists buf'. auto.
Qed.

Lemma writeLine_lights_endpoints_witness :
  exists buf',
    writeLine 700 (-3) 40 100 (-7) blank = Done buf' /\
    pixelOn (-3) 40 buf' = true /\ pixelOn 100 (-7) buf' = true.
Proof.
  apply (writeLine_lights_endpoints 700 (-3) 40 100 (-7) blank);
    try (change (2 ^ 31) with 2147483648; lia); reflexivity.
Defined.

(* ------------------------------------------------------------------ *)
(** ** Text *)

(** X9. Bytes outside 0x20 .. 0x7E draw nothing: on a text made only of
    control bytes (below 0x20) and of bytes from 0x7F up, which includes
    every byte of a multi-byte UTF-8 character, [writeString] returns the
    buffer it was given, whatever the font, the position and the fuel. *)
Theorem writeString_skips_unprintable `{Font} (fuel : nat) (x y : Z)
    (text : list Z) (buf : list Z) :
  Forall (fun cb => 0 <= cb < 0x20 \/ 0x7F <= cb <= 0xFF) text ->
  writeString fuel x y text buf = Done buf.
Proof.
  induction 1 as [|cb rest Hcb _ IH]; simpl; [reflexivity|].
  replace ((cb <? 32) || (wrap8 (cb - 32) >=? 95)) with true; [exact IH|].
  symmetry. apply orb_true_iff. destruct Hcb as [Hlo|Hhi].
  - left. apply Z.ltb_lt. lia.
  - right. unfold wrap8. rewrite Z.mod_small by lia.
    rewrite Z.geb_leb. apply Z.leb_le. lia.
Qed.

Lemma writeString_skips_unprintable_witness :
  writeString 0 3 4 [10; 9; 127; 195; 169; 255] (upd 5 32 blank)
  = Done (upd 5 32 blank).
Proof.
  apply (writeString_skips_unprintable (H := dotFont));
    repeat constructor; lia.
Defined.

(** X10. [writeString] goes through a text piece by piece: rendering
    [t1 ++ t2] at [x] is rendering [t1] at [x] and then [t2] where the pen
    stands after [t1], on the buffer [t1] left; the height [y] never
    changes.  When [t1] fails, the whole fails the same way. *)
Theorem writeString_app `{Font} (fuel : nat) (t1 t2 : list Z) (x y : Z)
    (buf : list Z) :
  writeString fuel x y (t1 ++ t2) buf
  = (b <- writeString fuel x y t1 buf ;;
     writeString fuel (penAfter x t1) y t2 b).
Proof.
  revert x buf. induction t1 as [|cb rest IH]; intros x buf; simpl.
  - reflexivity.
  - destruct ((cb <? 32) || (wrap8 (cb - 32) >=? 95)); [apply IH|].
    destruct (index (wrap8 (cb - 32)) chars) as [cInfo|]; simpl;
      [|reflexivity].
    destruct (index 0 cInfo) as [bo|]; simpl; [|reflexivity].
    destruct (index 1 cInfo) as [w|]; simpl; [|reflexivity].
    destruct (index 2 cInfo) as [h|]; simpl; [|reflexivity].
    destruct (index 3 cInfo) as [adv|]; simpl; [|reflexivity].
    destruct (index 4 cInfo) as [xo|]; simpl; [|reflexivity].
    destruct (index 5 cInfo) as [yo|]; simpl; [|reflexivity].
    destruct (forRange (Z.to_nat h) 0 (glyphRow fuel x y xo yo w) (bo, 0, 0, buf))
      as [st| |]; simpl; try reflexivity.
    apply IH.
Qed.

(** The two-letter text of the README, piece by piece, on the one-pixel
    font: the second letter lands one advance to the right. *)
Example writeString_Hi :
  penAfter 0 [72] = 1 /\
  writeString 8 0 20 [72; 105] blank = Done (upd 20 3 blank) /\
  writeString 8 0 20 [72] blank = Done (upd 20 1 blank) /\
  writeString 8 1 20 [105] (upd 20 1 blank) = Done (upd 20 3 blank).
Proof. repeat split; vm_compute; reflexivity. Qed.

(* ------------------------------------------------------------------ *)
(** ** More on the bus protocol and the operations *)

Section DriverMore.
Context {W : Type} `{I2C W} `{Font}.
Implicit Types m : @machine W.

Lemma pageLoop_disp (buf : list Z) (n : nat) :
  forall reg iter m m',
    pageLoop n reg iter buf m = Ret tt m' -> disp m' = disp m.
Proof.
  induction n as [|n IH]; intros reg iter m m'; cbn [pageLoop];
    [discriminate|].
  destruct (reg <=? 0xBF); [|intros E; now injection E as <-].
  destruct (slice _ _ buf); [|discriminate].
  destruct (slice _ _ buf); [|discriminate].
  destruct (index _ buf); [|discriminate].
  destruct (index _ buf); [|discriminate].
  intros E. apply IH in E. rewrite E, !hWrite_disp. reflexivity.
Qed.

(** What a [writeBuf] that returns leaves in the driver, for any buffer. *)
Lemma writeBuf_ret (buf : list Z) m r m' :
  writeBuf buf m = Ret r m' ->
  match r with
  | None => disp m' = {| addr := addr (disp m); current := buf |}
  | Some _ => disp m' = disp m
  end.
Proof.
  unfold writeBuf. pose proof (checkInit_disp m) as D1.
  destruct (checkInit m) as [r1 m1 | m1 |]; try discriminate.
  destruct (openHandle m1) as [[e|] m2] eqn:Ho;
    apply openHandle_inv in Ho as [_ D2].
  - intros E. injection E as <- <-. congruence.
  - destruct (pageLoop 17 0xB0 0 buf m2) as [[] m3 | m3 |] eqn:El;
      try discriminate.
    intros E. injection E as <- <-.
    apply pageLoop_disp in El.
    rewrite (proj2 (hClose_snd _)). unfold setCurrent. cbn [disp].
    congruence.
Qed.

(** X11. [initDisp] reports an error only when the handle does not open:
    its result is that of [OpenHandle], whatever the three writes and the
    close report.  It never touches the stored framebuffer, and its bus
    calls are the open alone when that fails, and otherwise open,
    contrast, the 23-byte init sequence, the 100 ms pause, display-on,
    close. *)
Theorem initDisp_behaviour m :
  fst (initDisp m) = fst (openHandle m) /\
  disp (snd (initDisp m)) = disp m /\
  trace (snd (initDisp m))
  = trace m ++ match fst (openHandle m) with
               | None => initTrace (addr (disp m))
               | Some _ => [EvOpen (addr (disp m))]
               end.
Proof.
  split; [|split].
  - unfold initDisp. now destruct (openHandle m) as [[e|] m1].
  - apply initDisp_disp.
  - destruct (openHandle m) as [[e|] m1] eqn:Ho; cbn [fst].
    + unfold initDisp. rewrite Ho. now apply openHandle_inv in Ho.
    + now apply initDisp_trace with m1.
Qed.

(** X12. An operation that returns an error has not replaced the stored
    framebuffer by its new one: after [WriteString], [DrawLine] or
    [Reset] the driver's fields are as before, and after [DisplayBytes]
    the stored framebuffer is the one before or, when only the second of
    its two commits failed, the blank one. *)
Theorem operation_error_keeps_framebuffer m (e : error) m' :
  (forall fuel x y text,
     WriteString fuel x y text m = Ret (Some e) m' -> disp m' = disp m) /\
  (forall fuel x1 y1 x2 y2,
     DrawLine fuel x1 y1 x2 y2 m = Ret (Some e) m' -> disp m' = disp m) /\
  (Reset m = Ret (Some e) m' -> disp m' = disp m) /\
  (forall data,
     DisplayBytes data m = Ret (Some e) m' ->
     addr (disp m') = addr (disp m) /\
     (current (disp m') = current (disp m) \/ current (disp m') = blank)).
Proof.
  split; [|split; [|split]].
  - intros fuel x y text E. unfold WriteString in E.
    destruct (writeString fuel x y text (current (disp m))) as [new| |];
      try discriminate.
    exact (writeBuf_ret new m (Some e) m' E).
  - intros fuel x1 y1 x2 y2 E. unfold DrawLine in E.
    destruct (writeLine fuel x1 y1 x2 y2 (current (disp m))) as [new| |];
      try discriminate.
    exact (writeBuf_ret new m (Some e) m' E).
  - intros E. unfold Reset in E.
    pose proof (writeBuf_ret blank _ (Some e) m' E) as D. cbn in D.
    now rewrite D, initDisp_disp.
  - intros data E. unfold DisplayBytes in E.
    destruct (writeBuf blank m) as [r1 m1 | m1 |] eqn:E1; try discriminate.
    pose proof (writeBuf_ret blank m r1 m1 E1) as D1.
    pose proof (writeBuf_ret _ m1 (Some e) m' E) as D2. cbn in D2.
    rewrite D2. destruct r1 as [e1|]; rewrite D1; cbn; auto.
Qed.

(** X13. [DrawLine] and [WriteString] only ever add pixels to the stored
    framebuffer: whenever one of them returns, with or without an error,
    every bit that was set in the stored framebuffer is still set, and
    its length is the same. *)
Theorem operations_only_add_pixels m r m' :
  (forall fuel x1 y1 x2 y2,
     DrawLine fuel x1 y1 x2 y2 m = Ret r m' ->
     covers (current (disp m)) (current (disp m'))) /\
  (forall fuel x y text,
     WriteString fuel x y text m = Ret r m' ->
     covers (current (disp m)) (current (disp m'))).
Proof.
  split.
  - intros fuel x1 y1 x2 y2 E. unfold DrawLine in E.
    destruct (writeLine fuel x1 y1 x2 y2 (current (disp m))) as [new| |] eqn:El;
      try discriminate.
    pose proof (writeBuf_ret new m r m' E) as D.
    destruct r as [e|]; rewrite D; [apply covers_refl|]. cbn.
    refine (writeLine_pres (covers (current (disp m))) _ _ _ _ _ _ _ _
              (covers_refl _) El).
    intros f x y b0 b1 Hq Ep. eapply covers_trans; [exact Hq|].
    now apply writePixel_covers in Ep.
  - intros fuel x y text E. unfold WriteString in E.
    destruct (writeString fuel x y text (current (disp m))) as [new| |] eqn:Es;
      try discriminate.
    pose proof (writeBuf_ret new m r m' E) as D.
    destruct r as [e|]; rewrite D; [apply covers_refl|]. cbn.
    refine (writeString_pres (covers (current (disp m))) _ _ _ _ _ _ _
              (covers_refl _) Es).
    intros f x0 y0 b0 b1 Hq Ep. eapply covers_trans; [exact Hq|].
    now apply writePixel_covers in Ep.
Qed.

Lemma dataBytes_app (e1 e2 : list event) :
  dataBytes (e1 ++ e2) = dataBytes e1 ++ dataBytes e2.
Proof. apply flat_map_app. Qed.

Lemma writesWithin_app (n : nat) (e1 e2 : list event) :
  writesWithin n e1 -> writesWithin n e2 -> writesWithin n (e1 ++ e2).
Proof. intros H1 H2. apply Forall_app. now split. Qed.

Lemma pages_wire (buf : list Z) :
  length buf = 1024%nat ->
  forall n, (n <= 16)%nat ->
    dataBytes (flat_map (pageWrites buf) (seq 0 n)) = firstn (64 * n) buf /\
    writesWithin 32 (flat_map (pageWrites buf) (seq 0 n)).
Proof.
  intros Hlen. induction n as [|n IH]; intros Hn.
  - split; [reflexivity | constructor].
  - destruct (IH ltac:(lia)) as [Ed Ew].
    destruct (page_chunks buf n Hlen ltac:(lia)) as (L1 & L2 & L3 & Ec).
    rewrite seq_S, flat_map_app. cbn [flat_map Nat.add]. rewrite app_nil_r.
    split.
    + rewrite dataBytes_app, Ed. unfold pageWrites, dataBytes.
      cbn [flat_map Z.eqb Pos.eqb app]. rewrite app_nil_r.
      rewrite Ec.
      replace (64 * S n)%nat with (64 * n + 64)%nat by lia.
      apply firstn_skipn_add.
    + apply writesWithin_app; [exact Ew|].
      unfold writesWithin, pageWrites.
      repeat (apply Forall_cons || apply Forall_nil); cbn [length]; lia.
Qed.

(** X14. What a commit puts on the bus is the buffer: the data bytes of
    the writes [writeBuf] makes after the probe, read in order, are
    exactly the 1024 bytes it was given, and none of its writes is longer
    than 32 bytes (the data-mode byte and 31 bytes of data). *)
Theorem writeBuf_wire (buf : list Z) m r m1 m2 :
  length buf = 1024%nat ->
  checkInit m = Ret r m1 -> openHandle m1 = (None, m2) ->
  exists m3 evs,
    writeBuf buf m = Ret None m3 /\
    trace m3 = trace m1 ++ evs /\
    dataBytes evs = buf /\
    writesWithin 32 evs.
Proof.
  intros Hlen Hc Ho.
  destruct (writeBuf_run buf m r m1 m2 Hlen Hc Ho) as (m3 & E & T & _).
  destruct (pages_wire buf Hlen 16 ltac:(lia)) as [Ed Ew].
  exists m3, ([EvOpen (addr (disp m))] ++ commitWrites buf ++ [EvClose]).
  split; [exact E|]. split; [exact T|]. split.
  - rewrite !dataBytes_app. unfold commitWrites. rewrite Ed.
    cbn [dataBytes flat_map app]. rewrite app_nil_r.
    replace (64 * 16)%nat with (length buf) by lia. apply firstn_all.
  - apply writesWithin_app;
      [apply Forall_cons; [exact I | apply Forall_nil]|].
    apply writesWithin_app;
      [exact Ew | apply Forall_cons; [exact I | apply Forall_nil]].
Qed.

End DriverMore.

Lemma writeBuf_wire_witness :
  exists m3 evs,
    writeBuf (upd 5 32 blank) (simMachine healthy blank) = Ret None m3 /\
    trace m3 = [EvOpen 0x3C; EvRead 1; EvClose] ++ evs /\
    dataBytes evs = upd 5 32 blank /\
    writesWithin 32 evs.
Proof.
  apply (writeBuf_wire (W := Sim) (upd 5 32 blank)
           (simMachine healthy blank) None
           (logged [EvOpen 0x3C; EvRead 1; EvClose] (simMachine healthy blank))
           (logged [EvOpen 0x3C; EvRead 1; EvClose; EvOpen 0x3C]
              (simMachine healthy blank)));
    reflexivity.
Defined.

(** [DisplayBytes] on a bus whose handles open three times and then no
    more: the first commit blanks the stored framebuffer, the second
    fails to open, and the call returns the error with the blank buffer
    stored. *)
Example DisplayBytes_error_after_blanking :
  exists m',
    DisplayBytes [1; 2; 3] (flakyMachine 3 (upd 5 32 blank))
    = Ret (Some (Err 1)) m' /\
    current (disp m') = blank /\
    current (disp m') <> upd 5 32 blank.
Proof.
  eexists. split; [vm_compute; reflexivity|].
  split; [vm_compute; reflexivity|].
  intros E. apply (f_equal (fun l => nth 5 l 0)) in E.
  vm_compute in E. discriminate.
Qed.

(* ------------------------------------------------------------------ *)
(** ** Construction and the start-up animation *)

Lemma zrange_app (lo : Z) (a b : nat) :
  zrange lo (a + b) = zrange lo a ++ zrange (lo + Z.of_nat a) b.
Proof.
  revert lo. induction a as [|a IH]; intros lo.
  - cbn [Nat.add Z.of_nat]. now rewrite Z.add_0_r.
  - cbn [Nat.add]. rewrite !zrange_S, IH. cbn [app]. do 3 f_equal. lia.
Qed.

(** One frame of the animation: the bar grows by eight columns. *)
Lemma anim_frame (fuel : nat) (j : nat) (buf : list Z) :
  (j < 14)%nat -> (200 <= fuel)%nat -> length buf = 1024%nat ->
  shows (animBar j) buf ->
  exists buf',
    writeFillRect fuel (mul (Z.of_nat (S j)) 8) 20 8 24 buf = Done buf' /\
    length buf' = 1024%nat /\
    shows (animBar (S j)) buf'.
Proof.
  intros Hj Hf Hlen Hs.
  assert (Hx : mul (Z.of_nat (S j)) 8 = 8 + Z.of_nat (8 * j)).
  { unfold mul. rewrite wrap_id by int_lia. lia. }
  rewrite Hx. unfold writeFillRect.
  assert (Hhi : add (8 + Z.of_nat (8 * j)) 8 = 8 + Z.of_nat (8 * j) + 8)
    by (apply wrap_id; int_lia).
  rewrite Hhi.
  destruct (fillLoop_columns fuel (8 + Z.of_nat (8 * j) + 8) 20 24)
    with (cnt := 8%nat) (n := fuel) (i := 8 + Z.of_nat (8 * j)) (buf := buf)
    as (buf' & E & L & P);
    try assumption;
    try (change (2 ^ 60) with 1152921504606846976;
         change (2 ^ 61) with 2305843009213693952; lia).
  exists buf'. split; [exact E|]. split; [exact L|].
  intros x' y'. rewrite P, Hs. unfold animBar.
  replace (8 * S j)%nat with (8 * j + 8)%nat by lia.
  rewrite (zrange_app 8 (8 * j) 8), flat_map_app, amongPixels_app. reflexivity.
Qed.

Section ConstructionProofs.
Context {W : Type} `{I2C W}.
Implicit Types m : @machine W.

(** On any bus: the loop of the animation keeps the stored framebuffer
    1024 bytes long and the address as it was. *)
Lemma animLoop_keeps (fuel : nat) (cancelled : Z -> bool) (left : nat) :
  forall i buf aliased m v m',
    length buf = 1024%nat -> length (current (disp m)) = 1024%nat ->
    animLoop fuel cancelled left i buf aliased m = Ret v m' ->
    length (current (disp m')) = 1024%nat /\ addr (disp m') = addr (disp m).
Proof.
  induction left as [|left IH]; intros i buf aliased m v m' Hlen Hcur;
    cbn [animLoop].
  - intros E. injection E as _ <-. auto.
  - destruct (cancelled i); [intros E; injection E as _ <-; auto|].
    destruct (writeFillRect fuel (mul i 8) 20 8 24 buf) as [buf1| |] eqn:Ef;
      try discriminate.
    assert (L1 : length buf1 = 1024%nat).
    { refine (writeFillRect_pres (fun b => length b = 1024%nat) _ _ _ _ _ _ _ _
                Hlen Ef).
      intros f x y b b' Hb Ep. apply writePixel_length in Ep. congruence. }
    set (m1 := if aliased then setCurrent buf1 m else m).
    assert (Hm1 : length (current (disp m1)) = 1024%nat /\
                  addr (disp m1) = addr (disp m))
      by (subst m1; destruct aliased; auto).
    destruct (writeBuf buf1 m1) as [r m2 | m2 |] eqn:Ew; try discriminate.
    pose proof (writeBuf_ret buf1 m1 r m2 Ew) as D.
    intros E. apply IH in E; try assumption.
    + destruct E as [E1 E2]. split; [exact E1|].
      rewrite E2. destruct r; rewrite D; cbn; tauto.
    + destruct r; rewrite D; cbn; tauto.
Qed.

Lemma initTimes_disp (n : nat) m : disp (initTimes n m) = disp m.
Proof.
  revert m. induction n as [|n IH]; intros m; cbn; [reflexivity|].
  now rewrite IH, initDisp_disp.
Qed.

(** X15. Whatever the bus does and whenever the context is cancelled, a
    [newDisplay] that returns a driver leaves it with a stored
    framebuffer of 1024 bytes, and with the address byte
    [byte(i2c_addr)], or 0x3C when [i2c_addr] is 0: a configured address
    counts modulo 256, so 256 gives address 0 and 0x13C gives 0x3C. *)
Theorem newDisplay_invariant (fuel : nat) (cancelled : Z -> bool)
    (busErr : option error) (attr : Config) (w : W) m' :
  newDisplay fuel cancelled busErr attr w = inr (Ret tt m') ->
  length (current (disp m')) = 1024%nat /\
  addr (disp m')
  = (if I2cAddr attr =? 0 then 0x3C else I2cAddr attr mod 256) /\
  0 <= addr (disp m') < 256.
Proof.
  unfold newDisplay. destruct busErr as [e|]; [discriminate|].
  set (a := wrap8 (if I2cAddr attr =? 0 then defaultI2Caddr else I2cAddr attr)).
  set (m0 := {| disp := {| addr := a; current := blank |};
                world := w; trace := [] |}).
  assert (Ha : a = (if I2cAddr attr =? 0 then 0x3C else I2cAddr attr mod 256)
               /\ 0 <= a < 256).
  { subst a. unfold wrap8. split.
    - now destruct (I2cAddr attr =? 0).
    - apply Z.mod_pos_bound. lia. }
  assert (D0 : disp (initTimes 4 m0) = disp m0) by apply initTimes_disp.
  generalize dependent (initTimes 4 m0). intros mi D0.
  assert (Hgoal : forall m1, disp m1 = disp mi ->
            length (current (disp m1)) = 1024%nat /\
            addr (disp m1)
            = (if I2cAddr attr =? 0 then 0x3C else I2cAddr attr mod 256) /\
            0 <= addr (disp m1) < 256).
  { intros m1 ->. rewrite D0. cbn. destruct Ha as [-> ?]. auto. }
  destruct (negb (SkipAnimation attr)).
  - intros E. injection E as E. unfold initAnimation in E.
    destruct (animLoop fuel cancelled 14 1 blank false mi)
      as [[[fin b] al] m1 | m1 |] eqn:El; try discriminate.
    apply animLoop_keeps in El as [L1 A1];
      [ | reflexivity | rewrite D0; reflexivity].
    assert (K : forall m2, length (current (disp m2)) = 1024%nat ->
              addr (disp m2) = addr (disp m1) ->
              length (current (disp m2)) = 1024%nat /\
              addr (disp m2)
              = (if I2cAddr attr =? 0 then 0x3C else I2cAddr attr mod 256) /\
              0 <= addr (disp m2) < 256).
    { intros m2 L2 A2. split; [exact L2|]. rewrite A2, A1, D0. cbn.
      destruct Ha as [-> ?]. auto. }
    destruct fin.
    + destruct (writeBuf blank m1) as [r m2 | m2 |] eqn:Ew; try discriminate.
      injection E as <-.
      pose proof (writeBuf_ret blank m1 r m2 Ew) as D.
      apply K; destruct r; rewrite D; cbn; auto.
    + injection E as <-. now apply K.
  - intros E. injection E as <-. now apply Hgoal.
Qed.

Section Served.
Variable P : W -> Prop.
Hypothesis HP : serves P.

Lemma initTimes_serves (n : nat) m :
  P (world m) ->
  P (world (initTimes n m)) /\
  trace (initTimes n m)
  = trace m ++ concat (repeat (initTrace (addr (disp m))) n).
Proof.
  revert m. induction n as [|n IH]; intros m Hw; cbn [initTimes repeat concat].
  - split; [exact Hw | now rewrite app_nil_r].
  - destruct (openHandle_serves P HP m Hw) as (m1 & Ho & _).
    destruct (IH (snd (initDisp m)) (initDisp_serves P HP m Hw)) as [Pw T].
    split; [exact Pw|].
    rewrite T, (initDisp_trace m m1 Ho), initDisp_disp, app_assoc.
    reflexivity.
Qed.

(** The loop of the animation on a bus that serves the driver, from the
    state after [j] frames. *)
Lemma animLoop_serving (fuel : nat) (cancelled : Z -> bool) :
  (200 <= fuel)%nat ->
  forall (left j : nat) (buf : list Z) (aliased : bool) m,
    (j + left = 14)%nat -> length buf = 1024%nat ->
    shows (animBar j) buf -> P (world m) ->
    exists fin buf' al m',
      animLoop fuel cancelled left (Z.of_nat (S j)) buf aliased m
      = Ret (fin, buf', al) m' /\
      P (world m') /\
      ((fin = true /\
        forall t, (j < t <= 14)%nat -> cancelled (Z.of_nat t) = false) \/
       (fin = false /\
        exists k, (j < k <= 14)%nat /\ cancelled (Z.of_nat k) = true /\
          (forall t, (j < t < k)%nat -> cancelled (Z.of_nat t) = false) /\
          shows (animBar (k - 1)) buf' /\
          ((k = S j /\ m' = m /\ buf' = buf) \/
           (S j < k /\ current (disp m') = buf')%nat))).
Proof.
  intros Hf.
  induction left as [|left IH]; intros j buf aliased m Hj Hlen Hs Hw;
    cbn [animLoop].
  - exists true, buf, aliased, m. split; [reflexivity|]. split; [exact Hw|].
    left. split; [reflexivity|]. intros t Ht. lia.
  - destruct (cancelled (Z.of_nat (S j))) eqn:Ec.
    + exists false, buf, aliased, m. split; [reflexivity|].
      split; [exact Hw|]. right. split; [reflexivity|].
      exists (S j). split; [lia|]. split; [exact Ec|].
      split; [intros t Ht; lia|].
      split; [now replace (S j - 1)%nat with j by lia|].
      left. auto.
    + destruct (anim_frame fuel j buf) as (buf1 & -> & L1 & S1);
        try assumption; try lia.
      set (m1 := if aliased then setCurrent buf1 m else m).
      assert (Hw1 : P (world m1)) by (subst m1; destruct aliased; exact Hw).
      destruct (writeBuf_commits P HP buf1 m1 Hw1 L1) as (m2 & -> & D2 & Hw2).
      assert (Hinc : add (Z.of_nat (S j)) 1 = Z.of_nat (S (S j)))
        by (unfold add; rewrite wrap_id by int_lia; lia).
      rewrite Hinc.
      destruct (IH (S j) buf1 true m2) as (fin & buf' & al & m' & E & Pw & R);
        try assumption; try lia.
      exists fin, buf', al, m'. split; [exact E|]. split; [exact Pw|].
      destruct R as [[-> Hn]|[-> (k & Hk & Ck & Hn & Sk & Hm)]].
      * left. split; [reflexivity|]. intros t Ht.
        destruct (Nat.eq_dec t (S j)) as [->|]; [exact Ec | apply Hn; lia].
      * right. split; [reflexivity|].
        exists k. split; [lia|]. split; [exact Ck|].
        split.
        { intros t Ht.
          destruct (Nat.eq_dec t (S j)) as [->|]; [exact Ec | apply Hn; lia]. }
        split; [exact Sk|]. right. split; [lia|].
        destruct Hm as [(_ & -> & ->)|[_ Hm]]; [|exact Hm].
        now rewrite D2.
Qed.

Lemma shows_animBar_0 : shows (animBar 0) blank.
Proof.
  intros x' y'. unfold animBar, pixelOn, blank. cbn [Nat.mul zrange seq map flat_map amongPixels existsb].
  pose proof (bufIndex_range x' y').
  rewrite nth_repeat. apply Z.testbit_0_l.
Qed.

End Served.
End ConstructionProofs.

Section AnimationProofs.
Context {W : Type} `{I2C W}.
Implicit Types m : @machine W.

(** The loop of the animation on any bus, from the state after [j]
    frames: the buffer holds the bar of the frames drawn, and the stored
    framebuffer is that buffer as soon as one commit has stored it. *)
Lemma animLoop_any (fuel : nat) (cancelled : Z -> bool) :
  (200 <= fuel)%nat ->
  forall (left j : nat) (buf : list Z) (aliased : bool) m fin buf' al m',
    (j + left = 14)%nat -> length buf = 1024%nat ->
    shows (animBar j) buf ->
    (aliased = true -> current (disp m) = buf) ->
    animLoop fuel cancelled left (Z.of_nat (S j)) buf aliased m
    = Ret (fin, buf', al) m' ->
    (al = true -> current (disp m') = buf') /\
    (al = false -> aliased = false /\ disp m' = disp m) /\
    (fin = false ->
     exists k, (j < k <= 14)%nat /\ cancelled (Z.of_nat k) = true /\
       (forall t, (j < t < k)%nat -> cancelled (Z.of_nat t) = false) /\
       shows (animBar (k - 1)) buf') /\
    (fin = true ->
     forall t, (j < t <= 14)%nat -> cancelled (Z.of_nat t) = false).
Proof.
  intros Hf.
  induction left as [|left IH];
    intros j buf aliased m fin buf' al m' Hj Hlen Hs Hal; cbn [animLoop].
  - intros E. injection E as <- <- <- <-.
    split; [exact Hal|]. split; [auto|]. split; [discriminate|].
    intros _ t Ht. lia.
  - destruct (cancelled (Z.of_nat (S j))) eqn:Ec.
    + intros E. injection E as <- <- <- <-.
      split; [exact Hal|]. split; [auto|]. split; [|discriminate].
      intros _. exists (S j). split; [lia|]. split; [exact Ec|].
      split; [intros t Ht; lia|].
      now replace (S j - 1)%nat with j by lia.
    + destruct (anim_frame fuel j buf) as (buf1 & -> & L1 & S1);
        try assumption; try lia.
      set (m1 := if aliased then setCurrent buf1 m else m).
      destruct (writeBuf buf1 m1) as [r m2 | m2 |] eqn:Ew; try discriminate.
      pose proof (writeBuf_ret buf1 m1 r m2 Ew) as D.
      assert (Hinc : add (Z.of_nat (S j)) 1 = Z.of_nat (S (S j)))
        by (unfold add; rewrite wrap_id by int_lia; lia).
      rewrite Hinc. intros E.
      apply IH in E; try assumption; try lia.
      * destruct E as (E1 & E2 & E3 & E4).
        split; [exact E1|].
        split.
        { intros Ha. destruct (E2 Ha) as [Hr D2].
          destruct r as [e|]; [|discriminate]. subst aliased.
          split; [reflexivity|]. now rewrite D2, D. }
        split.
        { intros Hfin. destruct (E3 Hfin) as (k & Hk & Ck & Hn & Sk).
          exists k. split; [lia|]. split; [exact Ck|]. split; [|exact Sk].
          intros t Ht.
          destruct (Nat.eq_dec t (S j)) as [->|]; [exact Ec | apply Hn; lia]. }
        intros Hfin t Ht.
        destruct (Nat.eq_dec t (S j)) as [->|]; [exact Ec | apply E4; [exact Hfin | lia]].
      * destruct r as [e|]; [|intros _; now rewrite D].
        intros ->. rewrite D. reflexivity.
Qed.

(** On any bus the loop of the animation leaves the address alone. *)
Lemma animLoop_addr (fuel : nat) (cancelled : Z -> bool) (left : nat) :
  forall i buf aliased m v m',
    animLoop fuel cancelled left i buf aliased m = Ret v m' ->
    addr (disp m') = addr (disp m).
Proof.
  induction left as [|left IH]; intros i buf al0 m v m'; cbn [animLoop].
  - intros E. now injection E as _ <-.
  - destruct (cancelled i); [intros E; now injection E as _ <-|].
    destruct (writeFillRect fuel (mul i 8) 20 8 24 buf) as [buf1| |];
      try discriminate.
    set (m0 := if al0 then setCurrent buf1 m else m).
    assert (A0 : addr (disp m0) = addr (disp m))
      by (subst m0; destruct al0; reflexivity).
    destruct (writeBuf buf1 m0) as [r m2 | m2 |] eqn:Ew; try discriminate.
    pose proof (writeBuf_ret buf1 m0 r m2 Ew) as D.
    intros E. apply IH in E. rewrite E, <- A0.
    destruct r; rewrite D; reflexivity.
Qed.

(** X16. When the context is cancelled during the start-up animation,
    the driver is left showing a partial bar: if the first poll that
    finds the context done is the one of turn [k], then on any bus, when
    [initAnimation] returns, the stored framebuffer is either the one
    from before (no commit stored anything) or exactly the bar of the
    [k - 1] frames drawn, columns 8 to [8 k - 1], rows 20 to 44.  The
    closing blank frame is not written.  The stored framebuffer holds
    every frame drawn after the first one that was stored, also the ones
    whose commit failed, since the animation draws into the stored slice
    itself. *)
Theorem initAnimation_cancelled (fuel : nat) (cancelled : Z -> bool)
    (k : nat) m m' :
  (200 <= fuel)%nat -> (1 <= k <= 14)%nat ->
  cancelled (Z.of_nat k) = true ->
  (forall t, (1 <= t < k)%nat -> cancelled (Z.of_nat t) = false) ->
  initAnimation fuel cancelled m = Ret tt m' ->
  addr (disp m') = addr (disp m) /\
  (current (disp m') = current (disp m) \/
   shows (animBar (k - 1)) (current (disp m'))).
Proof.
  intros Hf Hk Ck Hn. unfold initAnimation.
  destruct (animLoop fuel cancelled 14 1 blank false m)
    as [[[fin b] al] m1 | m1 |] eqn:El; try discriminate.
  pose proof (animLoop_any fuel cancelled Hf 14 0 blank false m fin b al m1
                eq_refl eq_refl shows_animBar_0 (fun E => False_ind _ (diff_false_true E)) El)
    as (E1 & E2 & E3 & E4).
  destruct fin.
  - specialize (E4 eq_refl k ltac:(lia)). congruence.
  - intros E. injection E as <-.
    destruct (E3 eq_refl) as (k' & Hk' & Ck' & Hn' & Sk).
    assert (k' = k).
    { destruct (Nat.lt_trichotomy k' k) as [L|[L|L]]; [|exact L|].
      - specialize (Hn k' ltac:(lia)). congruence.
      - specialize (Hn' k ltac:(lia)). congruence. }
    subst k'.
    destruct al.
    + rewrite (E1 eq_refl). split; [|right; exact Sk].
      exact (animLoop_addr fuel cancelled 14 1 blank false m _ m1 El).
    + destruct (E2 eq_refl) as [_ ->]. auto.
Qed.

Section ServedAnimation.
Variable P : W -> Prop.
Hypothesis HP : serves P.

(** X17. [newDisplay] on a bus that serves the driver.  With
    [skip_animation] it returns a driver with the blank framebuffer,
    having run the initialization four times and nothing else.  Without
    it, when the context is not cancelled, it returns a driver whose
    stored framebuffer is blank again: the closing frame clears the bar.
    When the context is first found done at turn [k] of the animation,
    it still returns a driver and no error, and the stored framebuffer
    shows the bar of [k - 1] frames. *)
Theorem newDisplay_served (fuel : nat) (cancelled : Z -> bool)
    (attr : Config) (w : W) :
  P w ->
  let a := if I2cAddr attr =? 0 then 0x3C else I2cAddr attr mod 256 in
  (SkipAnimation attr = true ->
   exists m', newDisplay fuel cancelled None attr w = inr (Ret tt m') /\
     disp m' = {| addr := a; current := blank |} /\
     trace m' = concat (repeat (initTrace a) 4)) /\
  (SkipAnimation attr = false -> (200 <= fuel)%nat ->
   (forall t, (1 <= t <= 14)%nat -> cancelled (Z.of_nat t) = false) ->
   exists m', newDisplay fuel cancelled None attr w = inr (Ret tt m') /\
     disp m' = {| addr := a; current := blank |}) /\
  (SkipAnimation attr = false -> (200 <= fuel)%nat ->
   forall k, (1 <= k <= 14)%nat -> cancelled (Z.of_nat k) = true ->
   (forall t, (1 <= t < k)%nat -> cancelled (Z.of_nat t) = false) ->
   exists m', newDisplay fuel cancelled None attr w = inr (Ret tt m') /\
     addr (disp m') = a /\
     shows (animBar (k - 1)) (current (disp m'))).
Proof.
  intros Hw a. unfold newDisplay.
  set (m0 := {| disp := {| addr := wrap8 (if I2cAddr attr =? 0
                                          then defaultI2Caddr
                                          else I2cAddr attr);
                           current := blank |};
                world := w; trace := [] |}).
  assert (Ha : wrap8 (if I2cAddr attr =? 0 then defaultI2Caddr
                      else I2cAddr attr) = a).
  { subst a. unfold wrap8. now destruct (I2cAddr attr =? 0). }
  destruct (initTimes_serves P HP 4 m0 Hw) as [Pw T].
  pose proof (initTimes_disp 4 m0) as D0.
  generalize dependent (initTimes 4 m0). intros mi Pw T D0.
  assert (Dm : disp mi = {| addr := a; current := blank |})
    by (rewrite D0; subst m0; cbn [disp]; now rewrite Ha).
  split; [|split].
  - intros ->. cbn [negb]. exists mi. split; [reflexivity|].
    split; [exact Dm|]. rewrite T. subst m0. cbn [trace disp addr app].
    now rewrite Ha.
  - intros -> Hf Hn. cbn [negb]. unfold initAnimation.
    destruct (animLoop_serving P HP fuel cancelled Hf 14 0 blank false mi
                eq_refl eq_refl shows_animBar_0 Pw)
      as (fin & b & al & m1 & El & Pw1 & R).
    change (Z.of_nat 1) with 1 in El. rewrite El.
    pose proof (animLoop_keeps fuel cancelled 14 _ blank false mi _ m1
                  eq_refl ltac:(rewrite Dm; reflexivity) El) as [L1 A1].
    destruct R as [[-> _]|[-> (k & Hk & Ck & _)]].
    + destruct (writeBuf_commits P HP blank m1 Pw1 eq_refl)
        as (m2 & -> & D2 & _).
      exists m2. split; [reflexivity|]. rewrite D2, A1, Dm. reflexivity.
    + specialize (Hn k ltac:(lia)). congruence.
  - intros -> Hf k Hk Ck Hn. cbn [negb]. unfold initAnimation.
    destruct (animLoop_serving P HP fuel cancelled Hf 14 0 blank false mi
                eq_refl eq_refl shows_animBar_0 Pw)
      as (fin & b & al & m1 & El & Pw1 & R).
    change (Z.of_nat 1) with 1 in El. rewrite El.
    pose proof (animLoop_keeps fuel cancelled 14 _ blank false mi _ m1
                  eq_refl ltac:(rewrite Dm; reflexivity) El) as [L1 A1].
    destruct R as [[-> Hn']|[-> (k' & Hk' & Ck' & Hn' & Sk & Hm)]].
    + specialize (Hn' k ltac:(lia)). congruence.
    + assert (k' = k).
      { destruct (Nat.lt_trichotomy k' k) as [L|[L|L]]; [|exact L|].
        - specialize (Hn k' ltac:(lia)). congruence.
        - specialize (Hn' k ltac:(lia)). congruence. }
      subst k'. exists m1. split; [reflexivity|].
      split; [rewrite A1, Dm; reflexivity|].
      destruct Hm as [(-> & -> & ->)|[_ ->]]; [|exact Sk].
      rewrite Dm. exact shows_animBar_0.
Qed.

End ServedAnimation.
End AnimationProofs.

Lemma newDisplay_invariant_witness :
  exists m',
    newDisplay (W := nat) 200 neverCancelled None
      {| I2CBus := [49]; I2cAddr := 0x13C; SkipAnimation := false |} 0%nat
    = inr (Ret tt m') /\
    (length (current (disp m')) = 1024%nat /\
     addr (disp m') = 0x3C /\
     0 <= addr (disp m') < 256).
Proof.
  eexists. split; [vm_compute; reflexivity|].
  apply (newDisplay_invariant (W := nat) 200 neverCancelled None
           {| I2CBus := [49]; I2cAddr := 0x13C; SkipAnimation := false |}
           0%nat).
  vm_compute. reflexivity.
Defined.

Lemma initAnimation_cancelled_witness :
  exists m',
    initAnimation 200 (fun i => i =? 3) (flakyMachine 2 blank) = Ret tt m' /\
    (addr (disp m') = addr (disp (flakyMachine 2 blank)) /\
     (current (disp m') = current (disp (flakyMachine 2 blank)) \/
      shows (animBar (3 - 1)) (current (disp m')))).
Proof.
  eexists. split; [vm_compute; reflexivity|].
  apply (initAnimation_cancelled (W := nat) 200 (fun i => i =? 3) 3
           (flakyMachine 2 blank)).
  - repeat constructor.
  - split; repeat constructor.
  - reflexivity.
  - intros t [H1 H2].
    destruct t as [|[|[|t]]]; [inversion H1 | reflexivity | reflexivity |].
    exfalso. apply (Nat.lt_irrefl 3). eapply Nat.le_lt_trans; [|exact H2].
    repeat apply le_n_S. apply Nat.le_0_l.
  - vm_compute. reflexivity.
Defined.

(** The animation on a bus whose handles open only twice, cancelled at
    its third turn: the one commit that opened stored the first frame,
    the second frame's commit failed, and the stored framebuffer holds
    the bar of both frames while the trace holds one paged write. *)
Example initAnimation_aliasing :
  exists m',
    initAnimation 200 (fun i => i =? 3) (flakyMachine 2 blank) = Ret tt m' /\
    pixelOn 8 20 (current (disp m')) = true /\
    pixelOn 23 44 (current (disp m')) = true /\
    pixelOn 24 20 (current (disp m')) = false /\
    length (filter (fun ev => match ev with EvClose => true | _ => false end)
              (trace m')) = 2%nat.
Proof.
  eexists. split; [vm_compute; reflexivity|].
  split; [vm_compute; reflexivity|].
  split; [vm_compute; reflexivity|].
  split; vm_compute; reflexivity.
Qed.

Lemma newDisplay_served_witness :
  exists m',
    newDisplay 200 neverCancelled None
      {| I2CBus := [49]; I2cAddr := 0; SkipAnimation := false |} healthy
    = inr (Ret tt m') /\
    disp m' = {| addr := 0x3C; current := blank |}.
Proof.
  refine (proj1 (proj2
            (newDisplay_served (W := Sim) answering answering_serves 200
               neverCancelled
               {| I2CBus := [49]; I2cAddr := 0; SkipAnimation := false |}
               healthy _)) eq_refl _ _).
  - split; [reflexivity | discriminate].
  - apply le_n.
  - intros t _. reflexivity.
Defined.

Lemma operation_error_keeps_framebuffer_witness :
  exists m',
    DrawLine 100 0 0 3 0 (flakyMachine 1 (upd 5 32 blank))
    = Ret (Some (Err 1)) m' /\
    disp m' = disp (flakyMachine 1 (upd 5 32 blank)).
Proof.
  eexists. split; [vm_compute; reflexivity|].
  apply (proj1 (proj2 (operation_error_keeps_framebuffer (W := nat)
                         (flakyMachine 1 (upd 5 32 blank)) (Err 1) _))
           100%nat 0 0 3 0).
  vm_compute. reflexivity.
Defined.

Lemma operations_only_add_pixels_witness :
  exists m',
    DrawLine 100 0 0 3 0 (flakyMachine 2 (upd 5 32 blank)) = Ret None m' /\
    covers (current (disp (flakyMachine 2 (upd 5 32 blank))))
      (current (disp m')).
Proof.
  eexists. split; [vm_compute; reflexivity|].
  apply (proj1 (operations_only_add_pixels (W := nat)
                  (flakyMachine 2 (upd 5 32 blank)) None _)
           100%nat 0 0 3 0).
  vm_compute. reflexivity.
Defined.

(* ------------------------------------------------------------------ *)
(** ** The RPC service *)

Lemma int32_range (x : Z) : is_int32 (int32 x).
Proof.
  unfold is_int32, int32.
  pose proof (Z.mod_pos_bound (x + 2 ^ 31) (2 ^ 32) ltac:(reflexivity)) as B.
  change (2 ^ 32) with 4294967296 in *.
  change (2 ^ 31) with 2147483648 in *. lia.
Qed.

Lemma int32_id (x : Z) : is_int32 x -> int32 x = x.
Proof.
  unfold is_int32, int32. intros Hx.
  change (2 ^ 31) with 2147483648 in *.
  rewrite Z.mod_small; [lia|].
  change (2 ^ 32) with 4294967296. lia.
Qed.

Lemma int32_mod (x d : Z) : 0 < d -> (d | 2 ^ 32) -> int32 x mod d = x mod d.
Proof.
  intros Hd [k Hk]. unfold int32.
  change (2 ^ 31) with 2147483648 in *.
  pose proof (Z.div_mod (x + 2147483648) (2 ^ 32)
                ltac:(change (2 ^ 32) with 4294967296; lia)) as E.
  replace ((x + 2147483648) mod 2 ^ 32 - 2147483648)
    with (x + (- ((x + 2147483648) / 2 ^ 32) * k) * d).
  - now rewrite Z.mod_add by lia.
  - rewrite Hk in E at 1. lia.
Qed.

Lemma int32_is_int (x : Z) : is_int (int32 x) /\ int32 x < int_max.
Proof.
  pose proof (int32_range x) as B. unfold is_int32 in B.
  unfold is_int, int_min, int_max.
  change (2 ^ 31) with 2147483648 in *.
  change (2 ^ 63) with 9223372036854775808. lia.
Qed.

Lemma int32_same_pixel (x y : Z) :
  bufIndex (int32 x) (int32 y) = bufIndex x y /\
  wrapY (int32 x) = wrapY x.
Proof.
  unfold bufIndex, wrapX, wrapY.
  assert (Hx : int32 x mod 128 = x mod 128)
    by (apply int32_mod; [lia | exists (2 ^ 25); reflexivity]).
  assert (Hy : int32 y mod 64 = y mod 64)
    by (apply int32_mod; [lia | exists (2 ^ 26); reflexivity]).
  rewrite Hx, Hy. auto.
Qed.

Section ServiceProofs.
Context {W : Type} `{I2C W} `{Font}.
Implicit Types m : @machine W.
Variable coll : list Z -> option error.

Section ServedRemotely.
Variable P : W -> Prop.
Hypothesis HP : serves P.

(** X18. A [DrawLine] that comes in through the RPC client returns for
    every choice of [int] coordinates, on a bus that serves the driver:
    the client narrows the coordinates to [int32], so the line the
    server draws ends below the largest [int] and its loop ends.  A name
    the collection does not resolve gives the lookup's error with the
    driver untouched; otherwise the call returns [nil] and the stored
    framebuffer is the line between the narrowed endpoints drawn on the
    one before. *)
Theorem remote_DrawLine_returns (fuel : nat) (name : list Z)
    (x1 y1 x2 y2 : Z) m :
  P (world m) -> length (current (disp m)) = 1024%nat ->
  2 ^ 65 <= Z.of_nat fuel ->
  (forall e, coll name = Some e ->
     remote_DrawLine coll fuel name x1 y1 x2 y2 m = Ret (Some e) m) /\
  (coll name = None ->
   exists buf' m',
     writeLine fuel (int32 x1) (int32 y1) (int32 x2) (int32 y2)
       (current (disp m)) = Done buf' /\
     remote_DrawLine coll fuel name x1 y1 x2 y2 m = Ret None m' /\
     disp m' = {| addr := addr (disp m); current := buf' |} /\
     P (world m')).
Proof.
  intros Hw Hlen Hf.
  unfold remote_DrawLine, client_DrawLine, serviceServer_DrawLine.
  cbn [dlName X1 Y1 X2 Y2].
  split.
  - intros e ->. reflexivity.
  - intros ->. unfold DrawLine.
    destruct (writeLine_ok fuel (int32 x1) (int32 y1) (int32 x2) (int32 y2)
                (current (disp m))) as (buf' & E & L);
      try apply int32_is_int; try assumption.
    rewrite E.
    destruct (writeBuf_commits P HP buf' m Hw L) as (m' & Ew & D & Pw).
    exists buf', m'. auto.
Qed.

(** X19. A single-point [DrawLine] through the RPC client lights the
    pixel of its coordinate for every [int] [x] and [y], the largest
    [int] included (where the driver's own [DrawLine] never returns):
    narrowing to [int32] keeps the coordinate modulo 128 and modulo 64,
    which is all [writePixel] looks at. *)
Theorem remote_point_lights_pixel (fuel : nat) (name : list Z) (x y : Z) m :
  P (world m) -> length (current (disp m)) = 1024%nat ->
  2 ^ 65 <= Z.of_nat fuel -> coll name = None ->
  exists buf' m',
    remote_DrawLine coll fuel name x y x y m = Ret None m' /\
    current (disp m') = buf' /\
    orAt (bufIndex x y) (Z.shiftl 1 (Z.land (wrapY x) 7)) (current (disp m))
    = Done buf' /\
    forall x' y',
      pixelOn x' y' buf'
      = pixelOn x' y' (current (disp m)) || samePixel x y x' y'.
Proof.
  intros Hw Hlen Hf Hc.
  unfold remote_DrawLine, client_DrawLine, serviceServer_DrawLine.
  cbn [dlName X1 Y1 X2 Y2]. rewrite Hc. unfold DrawLine.
  destruct (int32_is_int x) as [Ix Mx]. destruct (int32_is_int y) as [Iy _].
  assert (Hf2 : (2 <= fuel)%nat).
  { change (2 ^ 65) with 36893488147419103232 in Hf. lia. }
  rewrite (writeLine_point (int32 x) (int32 y) _ fuel Ix Iy Mx Hf2).
  rewrite writePixel_done; try assumption.
  - destruct (int32_same_pixel x y) as [-> ->].
    destruct (orAt_pixel x y (current (disp m)) Hlen) as (buf' & E & L & Px).
    rewrite E.
    destruct (writeBuf_commits P HP buf' m Hw L) as (m' & Ew & D & _).
    exists buf', m'. split; [exact Ew|]. split; [now rewrite D|].
    split; [reflexivity | exact Px].
  - pose proof (int32_range x) as Bx. pose proof (int32_range y) as By.
    unfold is_int32 in *.
    change (2 ^ 31) with 2147483648 in *.
    change (2 ^ 65) with 36893488147419103232 in Hf. lia.
Qed.

End ServedRemotely.

(** X20. For coordinates that fit in 32 bits, and a name the collection
    resolves, a call through the RPC client is the driver's own call:
    [DrawLine] and [WriteString] give the same result on the same
    machine, at every fuel and on every bus. *)
Theorem remote_in_range_is_local (fuel : nat) (name : list Z) m :
  coll name = None ->
  (forall x1 y1 x2 y2,
     is_int32 x1 -> is_int32 y1 -> is_int32 x2 -> is_int32 y2 ->
     remote_DrawLine coll fuel name x1 y1 x2 y2 m
     = DrawLine fuel x1 y1 x2 y2 m) /\
  (forall xloc yloc text,
     is_int32 xloc -> is_int32 yloc ->
     remote_WriteString coll fuel name xloc yloc text m
     = WriteString fuel xloc yloc text m).
Proof.
  intros Hc. split.
  - intros x1 y1 x2 y2 H1 H2 H3 H4.
    unfold remote_DrawLine, client_DrawLine, serviceServer_DrawLine.
    cbn [dlName X1 Y1 X2 Y2]. rewrite Hc.
    now rewrite !int32_id.
  - intros xloc yloc text H1 H2.
    unfold remote_WriteString, client_WriteString, serviceServer_WriteString.
    cbn [wsName Xloc Yloc Text]. rewrite Hc.
    now rewrite !int32_id.
Qed.

End ServiceProofs.

Lemma remote_DrawLine_returns_witness :
  exists buf' m',
    writeLine (Z.to_nat (2 ^ 65)) (int32 int_max) (int32 0) (int32 int_max)
      (int32 0) (current (disp (simMachine healthy blank))) = Done buf' /\
    remote_DrawLine (fun _ => None) (Z.to_nat (2 ^ 65)) [100]
      int_max 0 int_max 0 (simMachine healthy blank) = Ret None m' /\
    disp m' = {| addr := addr (disp (simMachine healthy blank));
                 current := buf' |} /\
    answering (world m').
Proof.
  refine (proj2 (remote_DrawLine_returns (W := Sim) (fun _ => None)
                   answering answering_serves (Z.to_nat (2 ^ 65)) [100]
                   int_max 0 int_max 0 (simMachine healthy blank) _ _ _)
            eq_refl).
  - split; [reflexivity | discriminate].
  - reflexivity.
  - rewrite Z2Nat.id; [apply Z.le_refl | discriminate].
Defined.

Lemma remote_point_lights_pixel_witness :
  exists buf' m',
    remote_DrawLine (fun _ => None) (Z.to_nat (2 ^ 65)) [100]
      int_max 5 int_max 5 (simMachine healthy blank) = Ret None m' /\
    current (disp m') = buf' /\
    orAt (bufIndex int_max 5) (Z.shiftl 1 (Z.land (wrapY int_max) 7))
      (current (disp (simMachine healthy blank))) = Done buf' /\
    forall x' y',
      pixelOn x' y' buf'
      = pixelOn x' y' (current (disp (simMachine healthy blank)))
        || samePixel int_max 5 x' y'.
Proof.
  apply (remote_point_lights_pixel (W := Sim) (fun _ => None)
           answering answering_serves (Z.to_nat (2 ^ 65)) [100]
           int_max 5 (simMachine healthy blank)).
  - split; [reflexivity | discriminate].
  - reflexivity.
  - rewrite Z2Nat.id; [apply Z.le_refl | discriminate].
  - reflexivity.
Defined.

Lemma remote_in_range_is_local_witness :
  remote_DrawLine (fun _ => None) 100 [100] 0 0 3 0 (simMachine healthy blank)
  = DrawLine 100 0 0 3 0 (simMachine healthy blank) /\
  remote_WriteString (fun _ => None) 100 [100] 0 20 [72; 105]
    (simMachine healthy blank)
  = WriteString 100 0 20 [72; 105] (simMachine healthy blank).
Proof.
  destruct (remote_in_range_is_local (W := Sim) (fun _ => None) 100 [100]
              (simMachine healthy blank) eq_refl) as [HD HS].
  split.
  - apply HD; unfold is_int32; split; discriminate || reflexivity.
  - apply HS; unfold is_int32; split; discriminate || reflexivity.
Defined.
